(** * LSR1: a limited-memory SR1 trust-region optimizer

    A shallow embedding of [optimizer/lsr1.py].  The numerical code is written
    once, over an abstract scalar type, and read at two instances:

    - IEEE binary64 numbers ([PrimFloat.float]), which is what the Python
      code computes with; every concrete run below is evaluated there;
    - the real numbers, the exact arithmetic the trust-region bounds are
      stated in.

    Tensors of rank one are lists of scalars, tensors of rank two are lists
    of rows.  The closure of the optimizer (the gradient oracle) is a
    function from the flat parameter vector to a loss and a flat gradient. *)

From Stdlib Require Import String Ascii.
From Stdlib Require Import List ZArith Bool Lia.
From Stdlib Require Import Reals Lra.
From Stdlib Require Floats Uint63.
Import PrimFloat.
Import ListNotations.

Set Implicit Arguments.

(* ================================================================= *)
(** ** Scalars *)

(** The operations the source applies to Python floats and to the entries
    of torch tensors.  Comparisons are boolean and follow IEEE: every
    comparison with a NaN is [false]. *)
Class Scalar (F : Type) := {
  fofZ : Z -> F;
  fadd : F -> F -> F;
  fsub : F -> F -> F;
  fmul : F -> F -> F;
  fdiv : F -> F -> F;
  fneg : F -> F;
  fabs : F -> F;
  fsqrt : F -> F;
  fltb : F -> F -> bool;
  fleb : F -> F -> bool;
  fisnan : F -> bool
}.

Declare Scope sc_scope.
Delimit Scope sc_scope with sc.
Notation "x + y" := (fadd x y) : sc_scope.
Notation "x - y" := (fsub x y) : sc_scope.
Notation "x * y" := (fmul x y) : sc_scope.
Notation "x / y" := (fdiv x y) : sc_scope.
Notation "- x" := (fneg x) : sc_scope.
Notation "x <? y" := (fltb x y) : sc_scope.
Notation "x <=? y" := (fleb x y) : sc_scope.
Notation "x >? y" := (fltb y x) : sc_scope.
Notation "x >=? y" := (fleb y x) : sc_scope.

(** Binary64.  Integers are converted exactly up to 2^53. *)
Definition float_ofZ (z : Z) : float :=
  match z with
  | Z0 => PrimFloat.zero
  | Zpos _ => PrimFloat.of_uint63 (Uint63.of_Z z)
  | Zneg p => PrimFloat.opp (PrimFloat.of_uint63 (Uint63.of_Z (Zpos p)))
  end.

#[export] Instance float_scalar : Scalar float := {|
  fofZ := float_ofZ;
  fadd := PrimFloat.add;
  fsub := PrimFloat.sub;
  fmul := PrimFloat.mul;
  fdiv := PrimFloat.div;
  fneg := PrimFloat.opp;
  fabs := PrimFloat.abs;
  fsqrt := PrimFloat.sqrt;
  fltb := PrimFloat.ltb;
  fleb := PrimFloat.leb;
  fisnan := PrimFloat.is_nan
|}.

(** Exact real arithmetic.  Division and square root are the total
    functions of the Standard Library ([x / 0 = 0], [sqrt x = 0] for
    negative [x]); a statement read at this instance is about the source
    only where no division by zero and no root of a negative number
    occurs, and the theorems below say so in their hypotheses. *)
Definition Rltb (x y : R) : bool := if Rlt_dec x y then true else false.
Definition Rleb (x y : R) : bool := if Rle_dec x y then true else false.

#[export] Instance real_scalar : Scalar R := {|
  fofZ := IZR;
  fadd := Rplus;
  fsub := Rminus;
  fmul := Rmult;
  fdiv := Rdiv;
  fneg := Ropp;
  fabs := Rabs;
  fsqrt := R_sqrt.sqrt;
  fltb := Rltb;
  fleb := Rleb;
  fisnan := fun _ => false
|}.

Section Numeric.

Context {F : Type} {SF : Scalar F}.
Local Open Scope sc_scope.

(** Decimal literals of the source: [dec m e] is [m * 10^e], obtained for a
    negative exponent by one correctly rounded division, which is the
    binary64 number the Python literal denotes for the constants used. *)
Definition dec (m e : Z) : F :=
  if (0 <=? e)%Z then fofZ (m * 10 ^ e) else fofZ m / fofZ (10 ^ (- e)).

Definition f0 : F := fofZ 0.
Definition f1 : F := fofZ 1.
Definition f2 : F := fofZ 2.

(** Python's builtin [min(a, b)] and [max(a, b)]: the first argument is
    kept unless the second is strictly smaller (larger). *)
Definition pymin (a b : F) : F := if b <? a then b else a.
Definition pymax (a b : F) : F := if b >? a then b else a.

(** Builtin [min] and [max] over a non-empty sequence. *)
Definition pymin_list (a : F) (l : list F) : F := fold_left pymin l a.
Definition pymax_list (a : F) (l : list F) : F := fold_left pymax l a.

(* ================================================================= *)
(** ** Tensors *)

Definition vec := list F.
Definition matrix := list (list F).

Fixpoint map2 {A B C} (f : A -> B -> C) (l : list A) (l' : list B) : list C :=
  match l, l' with
  | a :: l, b :: l' => f a b :: map2 f l l'
  | _, _ => []
  end.

Definition vadd (u v : vec) : vec := map2 fadd u v.
Definition vsub (u v : vec) : vec := map2 fsub u v.
Definition vmul (u v : vec) : vec := map2 fmul u v.
Definition vneg (u : vec) : vec := map fneg u.
Definition vabs (u : vec) : vec := map fabs u.
(** [c * u] for a scalar [c]. *)
Definition vscale (c : F) (u : vec) : vec := map (fmul c) u.
(** [u / c] for a scalar [c]. *)
Definition vdivs (u : vec) (c : F) : vec := map (fun x => x / c) u.
(** [u + c] for a scalar [c] (broadcast). *)
Definition vadds (u : vec) (c : F) : vec := map (fun x => x + c) u.

Definition vsum (u : vec) : F := fold_left fadd u f0.
(** [torch.matmul] and [dot] of two vectors. *)
Definition dot (u v : vec) : F := vsum (vmul u v).
(** [torch.linalg.norm] of a vector. *)
Definition norm (u : vec) : F := fsqrt (dot u u).
(** [u.abs().max()]; a NaN entry makes the maximum NaN. *)
Definition tmax_step (m x : F) : F :=
  if fisnan m then m else if fisnan x then x else if m <? x then x else m.
Definition abs_max (u : vec) : F := fold_left tmax_step (vabs u) f0.
Definition zeros (n : nat) : vec := repeat f0 n.

Fixpoint transpose_aux (n : nat) (m : matrix) : matrix :=
  match n with
  | O => []
  | S n' => map (fun r => hd f0 r) m :: transpose_aux n' (map (@tl F) m)
  end.
(** [torch.transpose(m, 0, 1)]. *)
Definition transpose (m : matrix) : matrix :=
  transpose_aux (length (hd [] m)) m.

(** [torch.matmul(m, u)], matrix times vector. *)
Definition matvec (m : matrix) (u : vec) : vec := map (fun r => dot r u) m.
(** [torch.matmul(u, m)], vector times matrix. *)
Definition vecmat (u : vec) (m : matrix) : vec := matvec (transpose m) u.
(** [torch.mm(a, b)]. *)
Definition mm (a b : matrix) : matrix := map (fun r => vecmat r b) a.
Definition madd (a b : matrix) : matrix := map2 vadd a b.
Definition mscale (c : F) (a : matrix) : matrix := map (vscale c) a.
(** [lamb * P]: a vector broadcast along the rows, scaling column [j] of
    [P] by [lamb[j]]. *)
Definition row_scale (lamb : vec) (P : matrix) : matrix := map (vmul lamb) P.

(* ================================================================= *)
(** ** The curvature memory: [update_SY] *)

Inductive error : Type :=
| IndexError
| TypeError
| NameError
| RuntimeError (msg : string).

Inductive result (A : Type) : Type :=
| Ok (a : A)
| Raise (e : error).
Arguments Ok {A} a.
Arguments Raise {A} e.

Definition bind {A B} (m : result A) (k : A -> result B) : result B :=
  match m with
  | Ok a => k a
  | Raise e => Raise e
  end.

(** [list.pop(0)]. *)
Definition pop0 {A} (l : list A) : result (list A) :=
  match l with
  | [] => Raise IndexError
  | _ :: l' => Ok l'
  end.

(** [update_SY(s, y, old_s, old_y, cond_rest)]: the two lists are mutated in
    place; the model returns their contents after the call. *)
Definition update_SY (memory_size : Z) (s y : vec) (old_s old_y : list vec)
    (cond_rest : F) : result (list vec * list vec) :=
  let ys := dot y s in
  if ys + cond_rest >? dec 1 (-10) then
    bind (if (Z.of_nat (length old_s) =? memory_size)%Z
          then bind (pop0 old_s) (fun old_s' =>
               bind (pop0 old_y) (fun old_y' => Ok (old_s', old_y')))
          else Ok (old_s, old_y))
         (fun '(old_s, old_y) => Ok (old_s ++ [s], old_y ++ [y]))
  else Ok (old_s, old_y).


(* ================================================================= *)
(** ** The radius controller: [update_radius] *)

Definition update_radius (r trust_radius : F) (s : vec) (T rho : F)
    : F * F * F :=
  let rho := dec 5 (-1) * T * rho - r in
  let T := dec 5 (-1) * T + f1 in
  let rho := rho / T in
  let norm_s := norm s in
  let trust_radius :=
    if rho <? dec 5 (-1) then pymin trust_radius norm_s else trust_radius in
  let trust_radius :=
    if (rho >=? dec 5 (-1)) && (norm_s >=? trust_radius)
    then f2 * trust_radius else trust_radius in
  (trust_radius, rho, T).

(* ================================================================= *)
(** ** Trust-region solvers on the factored Hessian *)

(** [trust_solver_cauchy(flat_grad, hess_1, hess_2, trust_radius)]. *)
Definition trust_solver_cauchy (flat_grad : vec) (hess_1 hess_2 : matrix)
    (trust_radius : F) : vec :=
  let gH := vecmat flat_grad hess_1 in
  let Hg := matvec hess_2 flat_grad in
  let cauchy_cond := dot gH Hg in
  let tau :=
    if cauchy_cond <=? f0 then f1
    else
      let n := norm flat_grad in
      pymin (n * n * n / (cauchy_cond * trust_radius)) f1 in
  vscale (- tau * trust_radius / norm flat_grad) flat_grad.

(** The positive root of [|z + tau d| = trust_radius], as both early exits
    of the CG loop compute it. *)
Definition boundary_tau (dz dd zz trust_radius : F) : F :=
  let m2dz := - f2 * dz in
  (m2dz + fsqrt (m2dz * m2dz
                 - fofZ 4 * dd * (zz - trust_radius * trust_radius)))
  / (f2 * dd).

(** One pass through the body of the [for] loop of
    [trust_solver_steihaug]: either the function returns, or the loop goes
    on with new [z], [r] and [d]. *)
Inductive cg_outcome : Type :=
| CgReturn (p : vec)
| CgNext (z r d : vec).

Definition steihaug_body (hess_1 hess_2 : matrix) (trust_radius delta : F)
    (z r d : vec) : cg_outcome :=
  let dH := vecmat d hess_1 in
  let Hd := matvec hess_2 d in
  let dHd := dot dH Hd in
  let dz := dot d z in
  let dd := dot d d in
  let zz := dot z z in
  if dHd <=? f0 then
    let tau := boundary_tau dz dd zz trust_radius in
    CgReturn (vadd z (vscale tau d))
  else
    let rr := dot r r in
    let alpha := rr / dHd in
    let z_ersatz := z in
    let z := vadd z (vscale alpha d) in
    if norm z >=? trust_radius then
      let tau := boundary_tau dz dd zz trust_radius in
      CgReturn (vadd z_ersatz (vscale tau d))
    else
      let r := vadd r (vscale alpha (matvec hess_1 (matvec hess_2 d))) in
      if norm r <? delta then CgReturn z
      else
        let beta := dot r r / rr in
        let d := vadds (vneg r) (beta * dd) in
        CgNext z r d.

Fixpoint steihaug_loop (iters : nat) (hess_1 hess_2 : matrix)
    (trust_radius delta : F) (z r d : vec) : vec :=
  match iters with
  | O => z
  | S iters' =>
      match steihaug_body hess_1 hess_2 trust_radius delta z r d with
      | CgReturn p => p
      | CgNext z r d =>
          steihaug_loop iters' hess_1 hess_2 trust_radius delta z r d
      end
  end.

(** [trust_solver_steihaug(flat_grad, hess_1, hess_2, trust_radius)], with
    [self.cg_iter] as first argument. *)
Definition trust_solver_steihaug (cg_iter : nat) (flat_grad : vec)
    (hess_1 hess_2 : matrix) (trust_radius : F) : vec :=
  let z := zeros (length flat_grad) in
  let r := flat_grad in
  let d := vneg r in
  let g_norm := norm flat_grad in
  let delta := pymin (dec 5 (-1)) (fsqrt g_norm) * g_norm in
  let fH := vecmat flat_grad hess_1 in
  let Hf := matvec hess_2 flat_grad in
  if dot fH Hf <=? f0 then
    vscale (- trust_radius / norm flat_grad) flat_grad
  else steihaug_loop cg_iter hess_1 hess_2 trust_radius delta z r d.

(* ================================================================= *)
(** ** The compact representation: [calculate_M], [calculate_hess] *)

Fixpoint mapi_aux {A B} (f : nat -> A -> B) (i : nat) (l : list A) : list B :=
  match l with
  | [] => []
  | a :: l' => f i a :: mapi_aux f (S i) l'
  end.
Definition mapi {A B} (f : nat -> A -> B) (l : list A) : list B :=
  mapi_aux f 0 l.

(** [torch.tril(m, diagonal=-1)]. *)
Definition tril_strict (m : matrix) : matrix :=
  mapi (fun i r => mapi (fun j x => if (j <? i)%nat then x else f0) r) m.
(** [torch.diag(m)]. *)
Definition diag (m : matrix) : vec := mapi (fun i r => nth i r f0) m.
(** [m[mask, mask] = m[mask, mask] + d]. *)
Definition add_diag (m : matrix) (d : vec) : matrix :=
  mapi (fun i r =>
          mapi (fun j x => if (j =? i)%nat then x + nth i d f0 else x) r) m.
(** [torch.eye(n)]. *)
Definition eye (n : nat) : matrix :=
  mapi (fun i r => mapi (fun j _ => if (j =? i)%nat then f1 else f0) r)
       (repeat (zeros n) n).

(** The routines of [torch.linalg] the optimizer calls.  They belong to the
    library, not to the repository, and stay a parameter of the model:
    - [linalg_eig m]: the eigenvalues of [m] as pairs (real part, imaginary
      part) and the real parts of its eigenvectors, as columns;
    - [linalg_solve a b]: the solution [x] of [a x = b] for a vector [b];
    - [linalg_qr m]: the factors [(Q, R)] of the reduced QR factorisation. *)
Record Linalg : Type := {
  linalg_eig : matrix -> list (F * F) * matrix;
  linalg_solve : matrix -> vec -> vec;
  linalg_qr : matrix -> matrix * matrix
}.

Variable la : Linalg.

(** [torch.linalg.solve(a, b)] for a matrix [b]: column by column. *)
Definition solve_mat (a b : matrix) : matrix :=
  transpose (map (linalg_solve la a) (transpose b)).

(** [abs] of a complex number. *)
Definition cabs (c : F * F) : F := fsqrt (fst c * fst c + snd c * snd c).

(** [calculate_M(S, Y, gamma)]: the pair [(M, Psi)]. *)
Definition calculate_M (S Y : matrix) (gamma : F) : matrix * matrix :=
  let Psi := map2 vsub Y (mscale gamma S) in
  let SY := mm (transpose S) Y in
  let SS := mscale gamma (mm (transpose S) S) in
  let L := tril_strict SY in
  let M := madd (madd L (transpose L)) SS in
  let M := add_diag M (diag SY) in
  (M, Psi).

(** [calculate_hess(Psi, M_inverse)]: the pair [(P, lamb)]. *)
Definition calculate_hess (Psi M_inverse : matrix) : matrix * vec :=
  let '(Q, R) := linalg_qr la Psi in
  let RMR := mm (mm R M_inverse) (transpose R) in
  let RMR := map (fun r => vdivs r f2) (madd RMR (transpose RMR)) in
  let '(lamb, U) := linalg_eig la RMR in
  (mm Q U, map fst lamb).

(* ================================================================= *)
(** ** The orthonormal-basis solver: [trust_solver_OBS] *)

Definition obs_tol : F := dec 1 (-10).

Definition any_small (u : vec) : bool := existsb (fun x => fabs x <? obs_tol) u.

(** The [for] loop shared by [phi] and [phi_phi_T].  The accumulators start
    as the Python integer [0] ([None]) and become tensors at the first
    addition.  [inl tt] is the early return inside the loop. *)
Fixpoint secular_loop (at_ : list (F * F)) (llpll2 llpll_prim : option F)
    : unit + (option F * option F) :=
  match at_ with
  | [] => inr (llpll2, llpll_prim)
  | (ai, ti) :: rest =>
      if (fabs ai >? obs_tol) && (obs_tol >? fabs ti) then inl tt
      else if (fabs ai >? obs_tol) && (fabs ti >? obs_tol) then
        let acc (o : option F) (x : F) :=
          Some (match o with None => f0 | Some v => v end + x) in
        secular_loop rest
          (acc llpll2 (ai / ti * (ai / ti)))
          (acc llpll_prim (ai * ai / (ti * ti * ti)))
      else secular_loop rest llpll2 llpll_prim
  end.

(** [phi_phi_T(sigma, delta, a, lam)]; [trust_radius] is the variable of the
    enclosing function. *)
Definition phi_phi_T (trust_radius sigma delta : F) (a lam : vec)
    : result (F * F) :=
  let t := vadds lam sigma in
  if any_small a || any_small t then
    match secular_loop (combine a t) None None with
    | inl _ => Ok (- f1 / trust_radius, f1 / obs_tol)
    | inr (Some llpll2, Some llpll_prim) =>
        let llpll := fsqrt (fabs llpll2) in
        Ok (f1 / llpll - f1 / delta, llpll_prim / (llpll * llpll * llpll))
    | inr _ => Raise TypeError
    end
  else
    let llpll := norm (map2 fdiv a t) in
    Ok (f1 / llpll - f1 / delta,
        vsum (map2 fdiv (vmul a a) (vmul (vmul t t) t))
        / (llpll * llpll * llpll)).

(** [phi(sigma, delta, a, lam)]. *)
Definition phi (trust_radius sigma delta : F) (a lam : vec) : result F :=
  let t := vadds lam sigma in
  if any_small a || any_small t then
    match secular_loop (combine a t) None None with
    | inl _ => Ok (- f1 / trust_radius)
    | inr (Some llpll2, _) => Ok (f1 / fsqrt llpll2 - f1 / delta)
    | inr (None, _) => Raise TypeError
    end
  else
    let llpll := norm (map2 fdiv a t) in
    Ok (f1 / llpll - f1 / delta).

(** [equation_p1(psi, M, sigma_star, flat_grad)]. *)
Definition equation_p1 (psi M : matrix) (sigma_star : F) (flat_grad : vec)
    : vec :=
  let psi_T := transpose psi in
  let Z := madd (mscale sigma_star M) (mm psi_T psi) in
  let f := matvec psi_T flat_grad in
  let Zf := linalg_solve la Z f in
  vdivs (vneg (vsub flat_grad (matvec psi Zf))) sigma_star.

(** [equation_p2(sigma, gamma, g, a, lam, P, g_l)]. *)
Definition equation_p2 (sigma gamma : F) (g a lam : vec) (P : matrix)
    (g_l : vec) : vec :=
  let v := map2 (fun ai li =>
                   if fabs (li + sigma) >? obs_tol then ai / (li + sigma)
                   else f0) a lam in
  if fabs (gamma + sigma) <? obs_tol then vneg (matvec P (removelast v))
  else vsub (vneg (matvec P (removelast v)))
            (vdivs (vsub g (matvec P g_l)) (gamma + sigma)).

(** The vector [e] of [equation_p3] with its entry [i] set to one. *)
Definition unit_vec (n i : nat) : result vec :=
  if (i <? n)%nat
  then Ok (mapi (fun j _ => if (j =? i)%nat then f1 else f0) (zeros n))
  else Raise IndexError.

(** [e - P @ transpose(P)[:, i]] *)
Definition off_range (P : matrix) (n i : nat) : result vec :=
  bind (unit_vec n i) (fun e => Ok (vsub e (matvec P (nth i P [])))).

(** The search of [equation_p3] for a unit vector outside the range of
    [P], over the indices [i, i+1, ... ] of [range(k)] that are left. *)
Fixpoint search_u_min (P : matrix) (n : nat) (i left : nat)
    : result (option vec) :=
  match left with
  | O => Ok None
  | S left' =>
      bind (off_range P n i) (fun u_min =>
        if norm u_min >? obs_tol then Ok (Some u_min)
        else search_u_min P n (S i) left')
  end.

(** [equation_p3(lam_min, delta, p_hat, lam, P)].  The index [lam[-2]] is
    out of range for a [lam] of fewer than two entries. *)
Definition equation_p3 (lam_min delta : F) (p_hat lam : vec) (P : matrix)
    : result vec :=
  let alpha := fsqrt (delta * delta - dot p_hat p_hat) in
  if (length lam <? 2)%nat then Raise IndexError
  else if fabs (lam_min - nth (length lam - 2) lam f0) <? obs_tol then
    let last_col := map (fun r => last r f0) P in
    let u_min := vdivs last_col (norm last_col) in
    Ok (vadd p_hat (vscale alpha u_min))
  else
    let n := length P in
    let k := length (hd [] P) in
    bind (search_u_min P n 0 k) (fun found =>
    bind (match found with
          | Some u_min => Ok u_min
          | None => off_range P n (Nat.pred k + 1)
          end) (fun u_min =>
    let u_min := vdivs u_min (norm u_min) in
    Ok (vadd p_hat (vscale alpha u_min)))).

(** The [while] loop of [newton_method], with the iterations left. *)
Fixpoint newton_loop (left : nat) (trust_radius delta : F) (a lam_all : vec)
    (s phi_v phi_T : F) : result F :=
  match left with
  | O => Ok s
  | S left' =>
      if fabs phi_v >? dec 1 (-15) then
        let s := s - phi_v / phi_T in
        bind (phi_phi_T trust_radius s delta a lam_all) (fun '(phi_v, phi_T) =>
        newton_loop left' trust_radius delta a lam_all s phi_v phi_T)
      else Ok s
  end.

(** [newton_method(sigma, delta, a, lam_all)]. *)
Definition newton_method (newton_maxit : nat) (trust_radius sigma delta : F)
    (a lam_all : vec) : result F :=
  bind (phi_phi_T trust_radius sigma delta a lam_all) (fun '(phi_v, phi_T) =>
  newton_loop newton_maxit trust_radius delta a lam_all sigma phi_v phi_T).

(** [torch.min] of a non-empty tensor; a NaN entry makes it NaN. *)
Definition tmin_step (m x : F) : F :=
  if fisnan m then m else if fisnan x then x else if x <? m then x else m.
Definition tensor_min (u : vec) : F := fold_left tmin_step (tl u) (hd f0 u).

(** [trust_solver_OBS(M, P, lamb_gamma, trust_radius, gamma, flat_grad, psi)],
    with [self.newton_maxit] as first argument. *)
Definition trust_solver_OBS (newton_maxit : nat) (M P : matrix)
    (lamb_gamma : vec) (trust_radius gamma : F) (flat_grad : vec)
    (psi : matrix) : result vec :=
  let lam_all := lamb_gamma ++ [gamma] in
  let lam_all :=
    map (fun x => x * (if fabs x >? obs_tol then f1 else f0)) lam_all in
  let lam_min := tensor_min lam_all in
  let g_ll := matvec (transpose P) flat_grad in
  let gg := dot flat_grad flat_grad in
  let gl_gl := dot g_ll g_ll in
  let llg_perbll := fsqrt (fabs (gg - gl_gl)) in
  let llg_perbll :=
    if llg_perbll * llg_perbll <? obs_tol then f0 else llg_perbll in
  let a := g_ll ++ [llg_perbll] in
  bind (phi trust_radius f0 trust_radius a lam_all) (fun phi_0 =>
  if (phi_0 >=? f0) && (lam_min >? f0) then
    let sigma_star := f0 in
    let tau_star := gamma + sigma_star in
    Ok (equation_p1 psi M tau_star flat_grad)
  else
    bind (if lam_min <=? f0
          then bind (phi trust_radius (- lam_min) trust_radius a lam_all)
                    (fun phi_m => Ok (f0 <=? phi_m))
          else Ok false) (fun easy =>
    if easy then
      let sigma_star := - lam_min in
      let p_star := equation_p2 sigma_star gamma flat_grad a lam_all P g_ll in
      if lam_min <? f0
      then equation_p3 lam_min trust_radius p_star lam_all P
      else Ok p_star
    else
      bind (if lam_min >? f0
            then newton_method newton_maxit trust_radius f0 trust_radius
                               a lam_all
            else
              let shifted := vsub (vdivs (vabs a) trust_radius) lam_all in
              let sigma_hat := pymax_list (hd f0 shifted) (tl shifted) in
              if sigma_hat >? - lam_min
              then newton_method newton_maxit trust_radius sigma_hat
                                 trust_radius a lam_all
              else newton_method newton_maxit trust_radius (- lam_min)
                                 trust_radius a lam_all) (fun sigma_star =>
      let tau_star := sigma_star + gamma in
      Ok (equation_p1 psi M tau_star flat_grad)))).

(* ================================================================= *)
(** ** The line search: [_cubic_interpolate], [_strong_wolfe] *)

(** [_cubic_interpolate(x1, f1, g1, x2, f2, g2, bounds)].  Step lengths and
    losses are scalars of the arithmetic, as the entries of tensors are: for
    [x1 = x2] the division by [x1 - x2] gives an infinity or a NaN, which is
    what the source computes when one of the two step lengths is a tensor
    (after a restart with a gradient of 1-norm above one).  When both are
    Python numbers and equal (a learning rate of zero is the first way to
    get there) the source raises [ZeroDivisionError] instead; the model does
    not tell the two kinds of number apart and has no such path. *)
Definition cubic_interpolate (x1 f1' g1 x2 f2' g2 : F)
    (bounds : option (F * F)) : F :=
  let '(xmin_bound, xmax_bound) :=
    match bounds with
    | Some b => b
    | None => if x1 <=? x2 then (x1, x2) else (x2, x1)
    end in
  let d1 := g1 + g2 - fofZ 3 * (f1' - f2') / (x1 - x2) in
  let d2_square := d1 * d1 - g1 * g2 in
  if d2_square >=? f0 then
    let d2 := fsqrt d2_square in
    let min_pos :=
      if x1 <=? x2
      then x2 - (x2 - x1) * ((g2 + d2 - d1) / (g2 - g1 + f2 * d2))
      else x1 - (x1 - x2) * ((g1 + d2 - d1) / (g1 - g2 + f2 * d2)) in
    pymin (pymax min_pos xmin_bound) xmax_bound
  else (xmin_bound + xmax_bound) / f2.

(** One entry of the parallel lists [bracket], [bracket_f], [bracket_g]
    and [bracket_gtd]. *)
Record bpoint : Type := {
  b_t : F;
  b_f : F;
  b_g : vec;
  b_gtd : F
}.

(** How the bracketing phase ends: with a two-point bracket, with a point
    that satisfies the Wolfe conditions, or with [max_ls] reached. *)
Inductive bracketing : Type :=
| BrPair (p0 p1 : bpoint) (ls_iter ls_func_evals : nat)
| BrDone (t f_new : F) (g_new : vec) (ls_iter ls_func_evals : nat)
| BrMaxLs (t f_new : F) (g_new : vec) (ls_func_evals : nat).

Section StrongWolfe.

Variable obj_func : vec -> F -> vec -> F * vec.
Variables (x d : vec) (f : F) (g : vec) (gtd : F).

Definition c1 : F := dec 1 (-4).
Definition c2 : F := dec 9 (-1).
Definition ls_tolerance_change : F := dec 1 (-9).
Definition max_ls : nat := 25.

(** The first [while] loop; [left] is [max_ls - ls_iter]. *)
Fixpoint bracket_loop (left ls_iter ls_func_evals : nat)
    (t f_new : F) (g_new : vec) (gtd_new : F)
    (t_prev f_prev : F) (g_prev : vec) (gtd_prev : F) : bracketing :=
  match left with
  | O => BrMaxLs t f_new g_new ls_func_evals
  | S left' =>
      if (f_new >? f + c1 * t * gtd)
         || ((1 <? ls_iter)%nat && (f_new >=? f_prev)) then
        BrPair (Build_bpoint t_prev f_prev g_prev gtd_prev)
               (Build_bpoint t f_new g_new gtd_new) ls_iter ls_func_evals
      else if fabs gtd_new <=? - c2 * gtd then
        BrDone t f_new g_new ls_iter ls_func_evals
      else if gtd_new >=? f0 then
        BrPair (Build_bpoint t_prev f_prev g_prev gtd_prev)
               (Build_bpoint t f_new g_new gtd_new) ls_iter ls_func_evals
      else
        let min_step := t + dec 1 (-2) * (t - t_prev) in
        let max_step := t * fofZ 10 in
        let tmp := t in
        let t := cubic_interpolate t_prev f_prev gtd_prev t f_new gtd_new
                                   (Some (min_step, max_step)) in
        let t_prev := tmp in
        let f_prev := f_new in
        let g_prev := g_new in
        let gtd_prev := gtd_new in
        let '(f_new, g_new) := obj_func x t d in
        let gtd_new := dot g_new d in
        bracket_loop left' (S ls_iter) (S ls_func_evals)
                     t f_new g_new gtd_new t_prev f_prev g_prev gtd_prev
  end.

(** The state of the zoom phase: the bracket, the position of its low end
    ([false] for index 0) and the progress flag. *)
Record zoom_state : Type := {
  z_b0 : bpoint;
  z_b1 : bpoint;
  z_low1 : bool;
  z_insuf : bool;
  z_evals : nat
}.

Definition z_low (z : zoom_state) : bpoint :=
  if z_low1 z then z_b1 z else z_b0 z.
Definition z_high (z : zoom_state) : bpoint :=
  if z_low1 z then z_b0 z else z_b1 z.
Definition set_low (z : zoom_state) (p : bpoint) : zoom_state :=
  if z_low1 z
  then Build_zoom_state (z_b0 z) p (z_low1 z) (z_insuf z) (z_evals z)
  else Build_zoom_state p (z_b1 z) (z_low1 z) (z_insuf z) (z_evals z).
Definition set_high (z : zoom_state) (p : bpoint) : zoom_state :=
  if z_low1 z
  then Build_zoom_state p (z_b1 z) (z_low1 z) (z_insuf z) (z_evals z)
  else Build_zoom_state (z_b0 z) p (z_low1 z) (z_insuf z) (z_evals z).

(** The second [while] loop, entered with [done = False]; [left] is
    [max_ls - ls_iter]. *)
Fixpoint zoom_loop (left : nat) (d_norm : F) (z : zoom_state) : zoom_state :=
  match left with
  | O => z
  | S left' =>
      let t0 := b_t (z_b0 z) in
      let t1 := b_t (z_b1 z) in
      if fabs (t1 - t0) * d_norm <? ls_tolerance_change then z
      else
        let t := cubic_interpolate t0 (b_f (z_b0 z)) (b_gtd (z_b0 z))
                                   t1 (b_f (z_b1 z)) (b_gtd (z_b1 z)) None in
        let hi := pymax t0 t1 in
        let lo := pymin t0 t1 in
        let eps := dec 1 (-1) * (hi - lo) in
        let '(t, insuf) :=
          if pymin (hi - t) (t - lo) <? eps then
            if z_insuf z || (t >=? hi) || (t <=? lo) then
              (if fabs (t - hi) <? fabs (t - lo) then hi - eps else lo + eps,
               false)
            else (t, true)
          else (t, false) in
        let '(f_new, g_new) := obj_func x t d in
        let gtd_new := dot g_new d in
        let p := Build_bpoint t f_new g_new gtd_new in
        let z := Build_zoom_state (z_b0 z) (z_b1 z) (z_low1 z) insuf
                                  (S (z_evals z)) in
        if (f_new >? f + c1 * t * gtd) || (f_new >=? b_f (z_low z)) then
          let z := set_high z p in
          let low1 := negb (b_f (z_b0 z) <=? b_f (z_b1 z)) in
          zoom_loop left' d_norm
            (Build_zoom_state (z_b0 z) (z_b1 z) low1 (z_insuf z) (z_evals z))
        else if fabs gtd_new <=? - c2 * gtd then
          set_low z p
        else
          let z :=
            if gtd_new * (b_t (z_high z) - b_t (z_low z)) >=? f0
            then set_high z (z_low z) else z in
          zoom_loop left' d_norm (set_low z p)
  end.

(** [_strong_wolfe(obj_func, x, t, d, f, g, gtd)]: [(f_new, g_new, t,
    ls_func_evals)].  A one-point bracket whose value does not compare
    equal to itself is indexed out of range at the end. *)
Definition strong_wolfe (t : F) : result (F * vec * F * nat) :=
  let d_norm := abs_max d in
  let '(f_new, g_new) := obj_func x t d in
  let gtd_new := dot g_new d in
  match bracket_loop max_ls 0 1 t f_new g_new gtd_new f0 f g gtd with
  | BrDone t f_new g_new _ evals =>
      if f_new <=? f_new then Ok (f_new, g_new, t, evals)
      else Raise IndexError
  | BrMaxLs t f_new g_new evals =>
      if f <=? f_new then Ok (f, g, f0, evals)
      else Ok (f_new, g_new, t, evals)
  | BrPair p0 p1 ls_iter evals =>
      let low1 := negb (b_f p0 <=? b_f p1) in
      let z := zoom_loop (max_ls - ls_iter) d_norm
                         (Build_zoom_state p0 p1 low1 false evals) in
      let p := z_low z in
      Ok (b_f p, b_g p, b_t p, z_evals z)
  end.

End StrongWolfe.

(* ================================================================= *)
(** ** The optimizer: configuration, persisted state, local variables *)

(** The options of the single parameter group. *)
Record config : Type := {
  lr : F;
  max_iter : nat;
  tolerance_grad : F;
  tolerance_change : F;
  tr_radius : F;
  memory_size : Z;
  mu : F;
  nu : F;
  alpha_S : F;
  newton_maxit : nat;
  cg_iter : nat;
  line_search_fn : option string;
  trust_solver : string
}.

(** The dictionary [self.state[self._params[0]]]; [None] is an absent key,
    which is what [state.get] returns for it. *)
Record opt_state : Type := {
  st_restart : option Z;
  st_d : option vec;
  st_alpha : option F;
  st_old_s : option (list vec);
  st_old_y : option (list vec);
  st_prev_flat_grad : option vec;
  st_trust_radius : option F;
  st_v : option vec;
  st_s : option vec;
  st_y : option vec;
  st_T : option F;
  st_rho : option F
}.

(** The dictionary of a freshly constructed optimizer. *)
Definition empty_state : opt_state :=
  Build_opt_state None None None None None None None None None None None None.

(** What [step] does that an observer can see, in order: calls of
    [_strong_wolfe] with their arguments [t, d, f, g, gtd], calls of
    [_add_grad] and of the closure made by [step] itself, calls of
    [update_SY] and of [update_radius]. *)
Inductive event : Type :=
| LineSearch (t : F) (d : vec) (f : F) (g : vec) (gtd : F)
| AddGrad (step_size : F) (update : vec)
| Closure (loss : F)
| UpdateSY (s y : vec) (cond_rest : F)
| UpdateRadius (r : F).

(** The variables of [step] that live across iterations of the outer loop,
    with [state['restart']], the flat parameters and the trace. *)
Record locals : Type := {
  restart : Z;
  params : vec;
  loss : F;
  flat_grad : vec;
  delta_w : option vec;
  v : option vec;
  alpha : option F;
  old_s : option (list vec);
  old_y : option (list vec);
  prev_flat_grad : option vec;
  trust_radius : F;
  s : option vec;
  y : option vec;
  T : option F;
  rho : option F;
  n_iter : nat;
  trace : list event
}.

Definition set_restart (x : Z) (l : locals) : locals :=
  Build_locals x (params l) (loss l) (flat_grad l) (delta_w l) (v l) (alpha l)
    (old_s l) (old_y l) (prev_flat_grad l) (trust_radius l) (s l) (y l) (T l)
    (rho l) (n_iter l) (trace l).
Definition set_point (p : vec) (f : F) (g : vec) (l : locals) : locals :=
  Build_locals (restart l) p f g (delta_w l) (v l) (alpha l)
    (old_s l) (old_y l) (prev_flat_grad l) (trust_radius l) (s l) (y l) (T l)
    (rho l) (n_iter l) (trace l).
Definition set_delta_w (x : option vec) (l : locals) : locals :=
  Build_locals (restart l) (params l) (loss l) (flat_grad l) x (v l) (alpha l)
    (old_s l) (old_y l) (prev_flat_grad l) (trust_radius l) (s l) (y l) (T l)
    (rho l) (n_iter l) (trace l).
Definition set_v (x : option vec) (l : locals) : locals :=
  Build_locals (restart l) (params l) (loss l) (flat_grad l) (delta_w l) x
    (alpha l) (old_s l) (old_y l) (prev_flat_grad l) (trust_radius l) (s l)
    (y l) (T l) (rho l) (n_iter l) (trace l).
Definition set_alpha (x : option F) (l : locals) : locals :=
  Build_locals (restart l) (params l) (loss l) (flat_grad l) (delta_w l) (v l)
    x (old_s l) (old_y l) (prev_flat_grad l) (trust_radius l) (s l) (y l)
    (T l) (rho l) (n_iter l) (trace l).
Definition set_memory (xs ys : option (list vec)) (l : locals) : locals :=
  Build_locals (restart l) (params l) (loss l) (flat_grad l) (delta_w l) (v l)
    (alpha l) xs ys (prev_flat_grad l) (trust_radius l) (s l) (y l) (T l)
    (rho l) (n_iter l) (trace l).
Definition set_prev_flat_grad (x : option vec) (l : locals) : locals :=
  Build_locals (restart l) (params l) (loss l) (flat_grad l) (delta_w l) (v l)
    (alpha l) (old_s l) (old_y l) x (trust_radius l) (s l) (y l) (T l)
    (rho l) (n_iter l) (trace l).
Definition set_radius (r : F) (rh t : option F) (l : locals) : locals :=
  Build_locals (restart l) (params l) (loss l) (flat_grad l) (delta_w l) (v l)
    (alpha l) (old_s l) (old_y l) (prev_flat_grad l) r (s l) (y l) t rh
    (n_iter l) (trace l).
Definition set_s (x : option vec) (l : locals) : locals :=
  Build_locals (restart l) (params l) (loss l) (flat_grad l) (delta_w l) (v l)
    (alpha l) (old_s l) (old_y l) (prev_flat_grad l) (trust_radius l) x (y l)
    (T l) (rho l) (n_iter l) (trace l).
Definition set_y (x : option vec) (l : locals) : locals :=
  Build_locals (restart l) (params l) (loss l) (flat_grad l) (delta_w l) (v l)
    (alpha l) (old_s l) (old_y l) (prev_flat_grad l) (trust_radius l) (s l) x
    (T l) (rho l) (n_iter l) (trace l).
Definition set_n_iter (x : nat) (l : locals) : locals :=
  Build_locals (restart l) (params l) (loss l) (flat_grad l) (delta_w l) (v l)
    (alpha l) (old_s l) (old_y l) (prev_flat_grad l) (trust_radius l) (s l)
    (y l) (T l) (rho l) x (trace l).
(** Append an event to the trace. *)
Definition emit (e : event) (l : locals) : locals :=
  Build_locals (restart l) (params l) (loss l) (flat_grad l) (delta_w l) (v l)
    (alpha l) (old_s l) (old_y l) (prev_flat_grad l) (trust_radius l) (s l)
    (y l) (T l) (rho l) (n_iter l) (trace l ++ [e]).

(** Control flow inside one pass of the outer loop: go on ([Go]), leave
    the loop with [break] ([Stop]), or raise. *)
Inductive flow (A : Type) : Type :=
| Go (a : A)
| Stop (l : locals)
| Fail (e : error).
Arguments Go {A} a.
Arguments Stop {A} l.
Arguments Fail {A} e.

Definition fbind {A B} (m : flow A) (k : A -> flow B) : flow B :=
  match m with
  | Go a => k a
  | Stop l => Stop l
  | Fail e => Fail e
  end.

(** Using a variable that [state.get] left at [None]. *)
Definition need {A} (o : option A) : flow A :=
  match o with
  | Some a => Go a
  | None => Fail TypeError
  end.

Definition lift {A} (r : result A) : flow A :=
  match r with
  | Ok a => Go a
  | Raise e => Fail e
  end.

End Numeric.

Arguments Ok {A} a.
Arguments Raise {A} e.
Arguments Go {F A} a.
Arguments Stop {F A} l.
Arguments Fail {F A} e.

Notation "'let*' x ':=' m 'in' k" := (fbind m (fun x => k))
  (at level 10, x pattern, m at level 100, k at level 200).

(* ================================================================= *)
(** ** The optimizer: [step] *)

Section Optimizer.

Context {F : Type} {SF : Scalar F}.
Local Open Scope sc_scope.

(** The library routines, the closure (a loss and a flat gradient for the
    current parameters) and the options of the optimizer. *)
Variable la : Linalg (F:=F).
Variable closure : vec (F:=F) -> F * vec (F:=F).
Variable cfg : config (F:=F).

(** [_directional_evaluate(closure, x, t, d)]: the parameters are moved by
    [t * d], the closure is evaluated and the parameters are set back to
    [x]; [x] is the clone of the parameters taken just before. *)
Definition directional_evaluate (x : vec) (t : F) (d : vec) : F * vec :=
  closure (vadd x (vscale t d)).

(** The quadratic form [w^T (L P) w + gamma w^T w] that [step] computes for
    [dHd] and for [cond_rest]; [None] is the restart model, where [L] is a
    tensor of rank one. *)
Definition quad_form (hess : option (matrix * matrix)) (gamma : F) (w : vec)
    : F :=
  match hess with
  | Some (L, P) => dot (vecmat w L) (matvec P w) + gamma * dot w w
  | None => gamma * dot w w
  end.

(** Step 14, the three [if] statements that select the solver. *)
Definition solve_dispatch (M L P : matrix) (lamb : vec) (gamma : F)
    (psi : matrix) (flat_grad : vec) (trust_radius : F)
    (delta_w : option vec) : result (option vec) :=
  let delta_w :=
    if String.eqb (trust_solver cfg) "Cauchy_Point_Calculation"
    then Some (trust_solver_cauchy flat_grad L P trust_radius)
    else delta_w in
  let delta_w :=
    if String.eqb (trust_solver cfg) "Steihaug_cg"
    then Some (trust_solver_steihaug (cg_iter cfg) flat_grad L P trust_radius)
    else delta_w in
  if String.eqb (trust_solver cfg) "OBS"
  then bind (trust_solver_OBS la (newton_maxit cfg) M (transpose P)
                              (vadds lamb gamma) trust_radius gamma
                              flat_grad psi)
            (fun p => Ok (Some p))
  else Ok delta_w.

(** Steps 3 to 14: the direction of this iteration, with the factors
    [(L, P)] of the model and [gamma]. *)
Definition direction (l : locals)
    : flow (locals * option (matrix * matrix) * F) :=
  if (restart l =? 1)%Z then
    let l := set_restart 0 l in
    let dim_hess := length (flat_grad l) in
    let l := set_delta_w (Some (vneg (flat_grad l))) l in
    let l := set_memory (Some []) (Some []) l in
    let l := set_v (Some (zeros dim_hess)) l in
    let l := set_s (Some (zeros dim_hess)) l in
    let l := set_y (Some (zeros dim_hess)) l in
    let l := set_radius (trust_radius l) (Some f0) (Some f0) l in
    Go (l, None, f1)
  else
    let* olds := need (old_s l) in
    let* oldy := need (old_y l) in
    match olds, oldy with
    | [], _ | _, [] =>
        Fail (RuntimeError "stack expects a non-empty TensorList")
    | _ :: _, _ :: _ =>
        let S := transpose olds in
        let Y := transpose oldy in
        let s_last := last olds [] in
        let y_last := last oldy [] in
        let g_1 := dot s_last y_last / dot y_last y_last in
        let g_2 := dot s_last s_last / dot s_last y_last in
        let gamma := pymax (dec 1 (-1)) (pymax g_1 g_2) in
        let '(M, psi) := calculate_M S Y gamma in
        let eigs := map cabs (fst (linalg_eig la M)) in
        if pymin_list (hd f0 eigs) (tl eigs) <? dec 1 (-16) then
          Stop (set_restart 1 l)
        else
          let M_inverse := solve_mat la M (eye (length M)) in
          let '(P, lamb) := calculate_hess la psi M_inverse in
          let L := row_scale lamb P in
          let P := transpose P in
          let* dw := lift (solve_dispatch M L P lamb gamma psi (flat_grad l)
                                          (trust_radius l) (delta_w l)) in
          Go (set_delta_w dw l, Some (L, P), gamma)
    end.

(** The three tests made on what the line search returns. *)
Definition ls_rejected (loss_t : F) (flat_grad_t : vec) (alpha_t : F) : bool :=
  ((dec 1 (-12) >? alpha_t) || (alpha_t >? fofZ 1000000))
  || (let check_grad := norm flat_grad_t in
      (check_grad <? dec 1 (-12)) || (check_grad >? fofZ 1000000))
  || ((loss_t >? fofZ 1000000) || fisnan loss_t).

(** Steps 33 to 43, after the step has been taken: the curvature pair is
    offered to the memory and the trust radius is updated. *)
Definition finish (l : locals) (dw : vec) (a cond_rest dHd prev_loss : F)
    : flow locals :=
  let* sv := need (s l) in
  let sv := vscale a sv in
  let l := set_s (Some sv) l in
  let* pfg := need (prev_flat_grad l) in
  let yv := vsub (flat_grad l) pfg in
  let l := set_y (Some yv) l in
  let cond_rest := a * cond_rest in
  let* olds := need (old_s l) in
  let* oldy := need (old_y l) in
  let l := emit (UpdateSY sv yv cond_rest) l in
  let* (olds, oldy) :=
    lift (update_SY (memory_size cfg) sv yv olds oldy cond_rest) in
  let l := set_memory (Some olds) (Some oldy) l in
  if (length olds =? 0)%nat then Stop (set_restart 1 l)
  else
    let ared := prev_loss - loss l in
    if fabs ared <? tolerance_change cfg then Stop (set_restart 1 l)
    else
      let pred := loss l + dot (flat_grad l) dw + dec 5 (-1) * dHd in
      let r := ared / pred in
      let* Tv := need (T l) in
      let* rhov := need (rho l) in
      let l := emit (UpdateRadius r) l in
      let '(tr, rhov, Tv) := update_radius r (trust_radius l) sv Tv rhov in
      let l := set_radius tr (Some rhov) (Some Tv) l in
      if (n_iter l =? max_iter cfg)%nat then Stop l else Go l.

(** The gradient step with the line search (steps 27 to 32). *)
Definition advance_line_search (name : string) (l : locals) (dw : vec)
    (a gtd cond_rest dHd prev_loss : F) : flow locals :=
  if negb (String.eqb name "strong_wolfe") then
    Fail (RuntimeError "only 'strong_wolfe' is supported")
  else
    let x_init := params l in
    let l := emit (LineSearch a dw (loss l) (flat_grad l) gtd) l in
    let* (loss_t, flat_grad_t, alpha_t, _) :=
      lift (strong_wolfe directional_evaluate x_init dw (loss l)
                         (flat_grad l) gtd a) in
    if ls_rejected loss_t flat_grad_t alpha_t then Stop (set_restart 1 l)
    else
      let opt_cond := abs_max flat_grad_t <=? tolerance_grad cfg in
      let l := set_alpha (Some alpha_t) l in
      let l := emit (AddGrad alpha_t dw) l in
      let l := set_point (vadd (params l) (vscale alpha_t dw))
                         loss_t flat_grad_t l in
      if opt_cond then Stop (set_restart 1 l)
      else finish l dw alpha_t cond_rest dHd prev_loss.

(** The gradient step with the fixed step length (step 28). *)
Definition advance_fixed (l : locals) (dw : vec)
    (a cond_rest dHd prev_loss : F) : flow locals :=
  let l := emit (AddGrad a dw) l in
  let l := set_point (vadd (params l) (vscale a dw))
                     (loss l) (flat_grad l) l in
  if negb (n_iter l =? max_iter cfg)%nat then
    let '(loss', flat_grad') := closure (params l) in
    let l := emit (Closure loss') l in
    let l := set_point (params l) loss' flat_grad' l in
    if abs_max flat_grad' <=? tolerance_grad cfg then Stop (set_restart 1 l)
    else finish l dw a cond_rest dHd prev_loss
  else finish l dw a cond_rest dHd prev_loss.

(** The direction after the momentum of steps 16 to 19: [(v, delta_w)]. *)
Definition blend (flat_grad : vec) (trust_radius : F) (vv sv dw : vec)
    : vec * vec :=
  let vv := vadd (vsub (vscale (mu cfg) vv)
                       (vscale (nu cfg * alpha_S cfg) flat_grad))
                 (vscale (f1 - nu cfg) sv) in
  let vv := vscale (pymin f1 (trust_radius / norm vv)) vv in
  let dw := vadd (vscale (f1 - nu cfg) dw) (vscale (mu cfg) vv) in
  let dw := vscale (pymin f1 (trust_radius / norm dw)) dw in
  (vv, dw).

(** One pass through the body of [while n_iter < max_iter]. *)
Definition iteration (l : locals) : flow locals :=
  let l := set_n_iter (S (n_iter l)) l in
  let* (l, hess, gamma) := direction l in
  let* vv := need (v l) in
  let* sv := need (s l) in
  let* dw := need (delta_w l) in
  let '(vv, dw) := blend (flat_grad l) (trust_radius l) vv sv dw in
  let l := set_delta_w (Some dw) (set_v (Some vv) l) in
  let dg := fabs (dot dw (flat_grad l)) in
  let d_norm := fabs (norm dw) in
  let g_norm := fabs (norm (flat_grad l)) in
  if pymin dg (dg / d_norm) <? g_norm * dec 5 (-10) then
    Stop (set_restart 1 l)
  else
    let dHd := quad_form hess gamma dw in
    let gtd := dot (flat_grad l) dw in
    let dw := if gtd >? f0 then vneg dw else dw in
    let l := set_delta_w (Some dw) l in
    let l := set_s (Some dw) l in
    let cond_rest := quad_form hess gamma dw in
    let a :=
      if (restart l =? 1)%Z
      then pymin f1 (f1 / vsum (vabs (flat_grad l))) * lr cfg
      else lr cfg in
    let l := set_alpha (Some a) l in
    let l := set_prev_flat_grad (Some (flat_grad l)) l in
    let prev_loss := loss l in
    match line_search_fn cfg with
    | Some name => advance_line_search name l dw a gtd cond_rest dHd prev_loss
    | None => advance_fixed l dw a cond_rest dHd prev_loss
    end.

(** The outer loop; [left] bounds the passes that remain and starts at
    [max_iter]. *)
Fixpoint outer_loop (left : nat) (l : locals) : result locals :=
  match left with
  | O => Ok l
  | S left' =>
      if (n_iter l <? max_iter cfg)%nat then
        match iteration l with
        | Go l' => outer_loop left' l'
        | Stop l' => Ok l'
        | Fail e => Raise e
        end
      else Ok l
  end.

(** What [step] returns, and what it leaves behind. *)
Record step_result : Type := {
  returned : F;
  state_after : opt_state (F:=F);
  params_after : vec (F:=F);
  last_loss : F;
  events : list (event (F:=F))
}.

(** [state.setdefault('restart', 1)]. *)
Definition setdefault_restart (st : opt_state (F:=F))
    : opt_state (F:=F) :=
  Build_opt_state
    (Some (match st_restart st with Some r => r | None => 1%Z end))
    (st_d st) (st_alpha st) (st_old_s st) (st_old_y st)
    (st_prev_flat_grad st) (st_trust_radius st) (st_v st) (st_s st)
    (st_y st) (st_T st) (st_rho st).

(** The local variables when the outer loop is entered. *)
Definition load (st : opt_state (F:=F)) (p : vec) (loss0 : F) (g : vec)
    : locals :=
  Build_locals
    (match st_restart st with Some r => r | None => 1%Z end)
    p loss0 g (st_d st) (st_v st) (st_alpha st) (st_old_s st) (st_old_y st)
    (st_prev_flat_grad st)
    (match st_trust_radius st with Some r => r | None => tr_radius cfg end)
    (st_s st) (st_y st) (st_T st) (st_rho st) 0 [].

(** The assignments to [state] that end [step]. *)
Definition store (l : locals (F:=F)) : opt_state :=
  Build_opt_state (Some (restart l)) (delta_w l) (alpha l) (old_s l)
    (old_y l) (Some (flat_grad l)) (Some (trust_radius l)) (v l) (s l) (y l)
    (T l) (rho l).

(** [step(closure)] on the optimizer state [st] and the flat parameters
    [p]. *)
Definition step (st : opt_state (F:=F)) (p : vec) : result step_result :=
  let st := setdefault_restart st in
  let '(orig_loss, flat_grad0) := closure p in
  let loss0 := orig_loss in
  let opt_cond := abs_max flat_grad0 <=? tolerance_grad cfg in
  if opt_cond then Ok (Build_step_result orig_loss st p loss0 [])
  else
    bind (outer_loop (max_iter cfg) (load st p loss0 flat_grad0)) (fun l =>
    Ok (Build_step_result orig_loss (store l) (params l) (loss l) (trace l))).

End Optimizer.

(* ================================================================= *)
(** ** The parameter tensors *)

Section Parameters.

Context {F : Type} {SF : Scalar F}.
Local Open Scope sc_scope.

(** A parameter tensor of one dimension: its entries and its [grad]
    attribute.  The methods below reach a tensor of higher rank through
    its flat view ([view(-1)], [view_as]) only, except for the broadcasting
    rule of [copy_], which is the one of a single dimension here.  A sparse
    gradient is given by the entries of its dense form. *)
Record param : Type := {
  data : vec (F:=F);
  grad : option (vec (F:=F))
}.

(** The part of [self] that the methods use. *)
Record tensors : Type := {
  _params : list param;
  _numel_cache : option nat
}.

(** The ways in which a method ends: [assert] raises the third. *)
Inductive outcome (A : Type) : Type :=
| Returns (a : A)
| Raises (e : error)
| AssertionError.

(** [_numel()]: the value, and [self] with the cache filled. *)
Definition _numel (self : tensors) : tensors * nat :=
  match _numel_cache self with
  | None =>
      let n := fold_left (fun total p => (total + length (data p))%nat)
                         (_params self) 0%nat in
      ({| _params := _params self; _numel_cache := Some n |}, n)
  | Some n => (self, n)
  end.

(** [_gather_flat_grad()]; [torch.cat] refuses an empty list. *)
Definition _gather_flat_grad (self : tensors) : result vec :=
  let views := map (fun p => match grad p with
                             | None => zeros (length (data p))
                             | Some g => g
                             end) (_params self) in
  match views with
  | [] => Raise (RuntimeError "torch.cat(): expected a non-empty list of Tensors")
  | _ => Ok (concat views)
  end.

(** The loop of [_add_grad] over the parameters that are left, from
    [offset]: the parameters as the loop leaves them, with the final offset
    or the error of [view_as].  The messages of the library, which spell
    out the sizes, are abridged here and in [copy_]. *)
Fixpoint add_grad_loop (step_size : F) (update : vec) (offset : nat)
    (params : list param) : list param * result nat :=
  match params with
  | [] => ([], Ok offset)
  | p :: rest =>
      let numel := length (data p) in
      let piece := firstn numel (skipn offset update) in
      if (length piece =? numel)%nat then
        let p' := {| data := vadd (data p) (vscale step_size piece);
                     grad := grad p |} in
        let '(rest', r) :=
          add_grad_loop step_size update (offset + numel) rest in
        (p' :: rest', r)
      else (p :: rest, Raise (RuntimeError "shape is invalid for input size"))
  end.

(** [_add_grad(step_size, update)]. *)
Definition _add_grad (step_size : F) (update : vec) (self : tensors)
    : tensors * outcome unit :=
  let '(params, r) := add_grad_loop step_size update 0 (_params self) in
  let self := {| _params := params; _numel_cache := _numel_cache self |} in
  match r with
  | Ok offset =>
      let '(self, n) := _numel self in
      (self, if (offset =? n)%nat then Returns tt else AssertionError unit)
  | Raise e => (self, Raises unit e)
  end.

(** [_clone_param()]. *)
Definition _clone_param (self : tensors) : list vec :=
  map data (_params self).

(** [p.copy_(pdata)] in one dimension: the sizes agree, or the source has
    one entry, which is broadcast. *)
Definition copy_ (p : param) (pdata : vec) : result param :=
  if (length pdata =? length (data p))%nat
  then Ok {| data := pdata; grad := grad p |}
  else match pdata with
       | [x] => Ok {| data := repeat x (length (data p)); grad := grad p |}
       | _ => Raise (RuntimeError "the size of tensor a must match the size of tensor b")
       end.

(** The loop of [_set_param] over [zip(self._params, params_data)]. *)
Fixpoint set_param_loop (params : list param) (params_data : list vec)
    : list param * result unit :=
  match params, params_data with
  | p :: rest, pdata :: rest_data =>
      match copy_ p pdata with
      | Ok p' =>
          let '(rest', r) := set_param_loop rest rest_data in
          (p' :: rest', r)
      | Raise e => (p :: rest, Raise e)
      end
  | _, _ => (params, Ok tt)
  end.

(** [_set_param(params_data)]. *)
Definition _set_param (params_data : list vec) (self : tensors)
    : tensors * result unit :=
  let '(params, r) := set_param_loop (_params self) params_data in
  ({| _params := params; _numel_cache := _numel_cache self |}, r).

(** The closure is code of the caller that works on the parameter
    tensors: it returns the loss and leaves the tensors, with their
    gradients, as it likes. *)
Variable closure : list param -> F * list param.

(** [_directional_evaluate(closure, x, t, d)]. *)
Definition _directional_evaluate (x : list vec) (t : F) (d : vec)
    (self : tensors) : tensors * outcome (F * vec) :=
  let '(self, r) := _add_grad t d self in
  match r with
  | Returns _ =>
      let '(loss, params) := closure (_params self) in
      let self := {| _params := params; _numel_cache := _numel_cache self |} in
      match _gather_flat_grad self with
      | Ok flat_grad =>
          let '(self, r) := _set_param x self in
          (self,
           match r with
           | Ok _ => Returns (loss, flat_grad)
           | Raise e => Raises _ e
           end)
      | Raise e => (self, Raises _ e)
      end
  | Raises _ e => (self, Raises _ e)
  | AssertionError _ => (self, AssertionError _)
  end.

End Parameters.

Arguments Returns {A} a.
Arguments Raises {A} e.
Arguments AssertionError {A}.

(* ================================================================= *)
(** ** Vocabulary of the statements *)

Section Vocabulary.

Context {F : Type} {SF : Scalar F}.
Local Open Scope sc_scope.

(** A sequence of calls of [update_SY], each with its [s], [y] and
    [cond_rest], on the lists left by the call before. *)
Fixpoint offer_all (memory_size : Z) (offers : list (vec * vec * F))
    (old_s old_y : list (vec (F:=F))) : result (list vec * list vec) :=
  match offers with
  | [] => Ok (old_s, old_y)
  | (s, y, cond_rest) :: rest =>
      bind (update_SY memory_size s y old_s old_y cond_rest)
           (fun '(old_s, old_y) => offer_all memory_size rest old_s old_y)
  end.

(** The lists have the same length, at most [memory_size]. *)
Definition store_ok (memory_size : Z) (old_s old_y : list (vec (F:=F)))
    : Prop :=
  length old_s = length old_y /\ (Z.of_nat (length old_s) <= memory_size)%Z.

(** The calls of [_strong_wolfe] in a trace. *)
Definition is_line_search (e : event (F:=F)) : bool :=
  match e with
  | LineSearch _ _ _ _ _ => true
  | _ => false
  end.
Definition line_searches (tr : list (event (F:=F))) : list event :=
  filter is_line_search tr.

(** What [step] passes to a line search: the step length [lr], and the
    directional derivative [gtd] of a direction [d0] of which the
    direction passed is the negation when [gtd] is positive. *)
Definition ls_shape (cfg : config (F:=F)) (e : event (F:=F)) : Prop :=
  match e with
  | LineSearch t d f g gtd =>
      t = lr cfg
      /\ exists d0, gtd = dot g d0
                    /\ d = (if gtd >? f0 then vneg d0 else d0)
  | _ => True
  end.

(** The direction [delta_w] of a pass as the momentum of steps 16 to 19
    leaves it, before the descent check of steps 24 to 26, with the local
    variables at that point; [None] when the pass does not get that far. *)
Definition blended (la : Linalg (F:=F)) (cfg : config (F:=F))
    (l : locals (F:=F)) : option (locals * vec) :=
  match direction la cfg (set_n_iter (S (n_iter l)) l) with
  | Go (l1, _, _) =>
      match v l1, s l1, delta_w l1 with
      | Some vv, Some sv, Some dw =>
          Some (l1, snd (blend cfg (flat_grad l1) (trust_radius l1) vv sv dw))
      | _, _, _ => None
      end
  | _ => None
  end.

(** The local variables with which the passes of the outer loop begin, in
    order. *)
Fixpoint passes (la : Linalg (F:=F)) (closure : vec (F:=F) -> F * vec (F:=F))
    (cfg : config (F:=F)) (left : nat) (l : locals (F:=F)) : list locals :=
  match left with
  | O => []
  | S left' =>
      if (n_iter l <? max_iter cfg)%nat then
        l :: match iteration la closure cfg l with
             | Go l' => passes la closure cfg left' l'
             | _ => []
             end
      else []
  end.

(** The line search as the claim has it called for a direction [d0]: with
    the derivative [gtd] along [d0], and with [d0] negated when [gtd] is
    positive. *)
Definition search_call (cfg : config (F:=F)) (l1 : locals (F:=F))
    (d0 : vec) : event :=
  let gtd := dot (flat_grad l1) d0 in
  LineSearch (lr cfg) (if gtd >? f0 then vneg d0 else d0) (loss l1)
             (flat_grad l1) gtd.

(** The tests of [step] on the step length, the gradient and the loss that
    the line search returns, spelled out. *)
Definition ls_out_of_range (loss_t : F) (flat_grad_t : vec) (alpha_t : F)
    : bool :=
  (alpha_t <? dec 1 (-12)) || (alpha_t >? fofZ 1000000)
  || (norm flat_grad_t <? dec 1 (-12)) || (norm flat_grad_t >? fofZ 1000000)
  || (loss_t >? fofZ 1000000) || fisnan loss_t.

(** The directions [d] with which the body of the CG loop is run, in
    order. *)
Fixpoint steihaug_directions (iters : nat) (hess_1 hess_2 : matrix (F:=F))
    (trust_radius delta : F) (z r d : vec (F:=F)) : list vec :=
  match iters with
  | O => []
  | S iters' =>
      d :: match steihaug_body hess_1 hess_2 trust_radius delta z r d with
           | CgReturn _ => []
           | CgNext z r d =>
               steihaug_directions iters' hess_1 hess_2 trust_radius delta
                                   z r d
           end
  end.

(** The same for a call of [trust_solver_steihaug]. *)
Definition cg_directions (cg_iter : nat) (flat_grad : vec (F:=F))
    (hess_1 hess_2 : matrix (F:=F)) (trust_radius : F) : list vec :=
  let g_norm := norm flat_grad in
  let delta := pymin (dec 5 (-1)) (fsqrt g_norm) * g_norm in
  steihaug_directions cg_iter hess_1 hess_2 trust_radius delta
    (zeros (length flat_grad)) flat_grad (vneg flat_grad).

(** The Cauchy solver as step 14 calls it: after [L = lamb * P] and
    [P = transpose(P)], with [L] and [P] as the two factors. *)
Definition cauchy_as_called (P : matrix (F:=F)) (lamb flat_grad : vec)
    (trust_radius : F) : vec :=
  trust_solver_cauchy flat_grad (row_scale lamb P) (transpose P) trust_radius.

(** The curvature [g^T B g] of the SR1 model [B = gamma I + P diag(lamb)
    P^T] along [g]. *)
Definition sr1_curvature (gamma : F) (P : matrix (F:=F)) (lamb g : vec) : F :=
  gamma * dot g g + dot (vecmat g (row_scale lamb P)) (matvec (transpose P) g).

(** The Cauchy point in the words of the specification: [tau] is decided
    by the curvature of [B], its [gamma I] part included. *)
Definition cauchy_point_claimed (gamma : F) (P : matrix (F:=F))
    (lamb g : vec) (trust_radius : F) : vec :=
  let gBg := sr1_curvature gamma P lamb g in
  let tau :=
    if gBg <=? f0 then f1
    else
      let n := norm g in
      pymin (n * n * n / (trust_radius * gBg)) f1 in
  vscale (- tau * trust_radius / norm g) g.

(** The direction update of conjugate gradients in the words of the
    specification: [- r_new + beta d_old]. *)
Definition cg_direction_rule (r_new r_old d_old : vec (F:=F)) : vec :=
  vadd (vneg r_new) (vscale (dot r_new r_new / dot r_old r_old) d_old).

(** The test of [update_SY] on one offer [(s, y, cond_rest)]. *)
Definition accepted (o : vec (F:=F) * vec (F:=F) * F) : bool :=
  let '(s, y, cond_rest) := o in dot y s + cond_rest >? dec 1 (-10).

(** The last [n] entries of a list. *)
Definition lastn {A} (n : nat) (l : list A) : list A :=
  skipn (length l - n) l.

(** A bracket point of the line search is the starting point, at step
    length zero with the loss [f] and the gradient [g] of the caller, or a
    point where the objective has been evaluated. *)
Definition sampled (obj_func : vec (F:=F) -> F -> vec (F:=F) -> F * vec (F:=F))
    (x d : vec (F:=F)) (f : F) (g : vec (F:=F)) (p : bpoint (F:=F)) : Prop :=
  (b_t p = f0 /\ b_f p = f /\ b_g p = g)
  \/ (b_f p, b_g p) = obj_func x (b_t p) d.

(** The parameters after the calls of [_add_grad] in a trace. *)
Definition replay (evs : list (event (F:=F))) (p : vec (F:=F)) : vec :=
  fold_left (fun p e => match e with
                        | AddGrad step_size update =>
                            vadd p (vscale step_size update)
                        | _ => p
                        end) evs p.

(** How the local variables [l'] come out of [l]: the trace has grown by
    some events, and the parameters are those of [l] moved by the calls of
    [_add_grad] among them. *)
Definition moved (l l' : locals (F:=F)) : Prop :=
  exists evs, trace l' = trace l ++ evs /\ params l' = replay evs (params l).

(** The local loss and gradient are those of the closure at the local
    parameters. *)
Definition consistent (closure : vec (F:=F) -> F * vec (F:=F))
    (l : locals (F:=F)) : Prop :=
  (loss l, flat_grad l) = closure (params l).

(** The number of entries of each parameter tensor. *)
Definition sizes (params : list (param (F:=F))) : list nat :=
  map (fun p => length (data p)) params.

(** The cache of [_numel] is empty or holds the number of entries of the
    parameters as they are. *)
Definition cache_ok (self : tensors (F:=F)) : Prop :=
  match _numel_cache self with
  | None => True
  | Some n => n = list_sum (sizes (_params self))
  end.

(** The entries of all parameters, in order. *)
Definition flat (params : list (param (F:=F))) : vec :=
  concat (map data params).

(** The vector [a] that [trust_solver_OBS] hands to [phi]: the gradient in
    the basis [P], and the norm of what is left of it. *)
Definition obs_a (P : matrix) (flat_grad : vec (F:=F)) : vec :=
  let g_ll := matvec (transpose P) flat_grad in
  let llg_perbll :=
    fsqrt (fabs (dot flat_grad flat_grad - dot g_ll g_ll)) in
  g_ll ++ [if llg_perbll * llg_perbll <? obs_tol then f0 else llg_perbll].

(** No entry of [a] is above the tolerance of the solver. *)
Definition all_small (a : vec (F:=F)) : Prop :=
  Forall (fun x => (fabs x >? obs_tol) = false) a.

(** The model of the OBS solver, shifted: [(B + sigma I) p] for
    [B = gamma I + P diag(lamb_gamma - gamma) P^T] and [tau = gamma + sigma],
    with [P] as the solver receives it, the eigenvectors as columns. *)
Definition shifted_model (P : matrix) (lamb_gamma : vec (F:=F))
    (gamma tau : F) (p : vec) : vec :=
  vadd (vscale tau p)
       (matvec P (vmul (vadds lamb_gamma (- gamma))
                       (matvec (transpose P) p))).

(** [P] has [k] columns, and they are orthonormal: [P^T (P x) = x]. *)
Definition orthonormal_columns (k : nat) (P : matrix (F:=F)) : Prop :=
  Forall (fun r => length r = k) P
  /\ forall x : vec, length x = k -> matvec (transpose P) (matvec P x) = x.

(** The eigenvalues as [trust_solver_OBS] uses them, its [lam_all]: the
    entries of [lamb_gamma], then [gamma], each set to zero when it is
    within the tolerance. *)
Definition obs_lam (lamb_gamma : vec (F:=F)) (gamma : F) : vec :=
  map (fun x => x * (if fabs x >? obs_tol then f1 else f0))
      (lamb_gamma ++ [gamma]).

(** Where [trust_solver_OBS] starts the Newton iteration. *)
Definition obs_start (trust_radius : F) (a lam_all : vec (F:=F)) : F :=
  let lam_min := tensor_min lam_all in
  if lam_min >? f0 then f0
  else
    let shifted := vsub (vdivs (vabs a) trust_radius) lam_all in
    let sigma_hat := pymax_list (hd f0 shifted) (tl shifted) in
    if sigma_hat >? - lam_min then sigma_hat else - lam_min.

(** A positive semidefinite model of which the tolerances of the solver
    lose nothing of the gradient: [P] has as many orthonormal columns as
    [lamb_gamma] has entries, [P] and [psi] have a row for each entry of the
    gradient, no eigenvalue is negative, every entry of [a] is zero or above
    the tolerance, and the last entry of [a] is zero only when the gradient
    lies in the span of the columns. *)
Definition obs_model (P : matrix) (lamb_gamma : vec (F:=F)) (gamma : F)
    (g : vec) (psi : matrix (F:=F)) : Prop :=
  orthonormal_columns (length lamb_gamma) P
  /\ length g = length P
  /\ length psi = length g
  /\ forallb (fun x => f0 <=? x) (lamb_gamma ++ [gamma]) = true
  /\ Forall (fun x => x = f0 \/ (fabs x >? obs_tol) = true) (obs_a P g)
  /\ (last (obs_a P g) f0 = f0 ->
      dot g g - dot (matvec (transpose P) g) (matvec (transpose P) g) = f0).

(** The entry [m[i, j]]. *)
Definition entry (m : matrix (F:=F)) (i j : nat) : F :=
  nth j (nth i m []) f0.

(** A matrix with [k] rows of [k] entries. *)
Definition square (k : nat) (m : matrix (F:=F)) : Prop :=
  length m = k /\ Forall (fun r => length r = k) m.

(** The lists of the memory, where both are present, have the same
    length, at most [memory_size]. *)
Definition memory_ok (memory_size : Z)
    (old_s old_y : option (list (vec (F:=F)))) : Prop :=
  forall a b, old_s = Some a -> old_y = Some b -> store_ok memory_size a b.

(** No unit vector [e_i] is told apart from its projection [P P^T e_i]
    by the tolerance of the solver. *)
Definition spans_all (P : matrix (F:=F)) : Prop :=
  forall i u, off_range P (length P) i = Ok u -> (norm u >? obs_tol) = false.

End Vocabulary.

(* ================================================================= *)
(** ** Concrete inputs, in binary64 *)

Definition rvec : Type := vec (F:=R).
Definition rmatrix : Type := matrix (F:=R).
Definition fvec : Type := vec (F:=float).
Definition fmatrix : Type := matrix (F:=float).

(** The library routines on the matrices of a history of length one: the
    eigenvalue of a 1x1 matrix is its entry, with eigenvector [1]; a 1x1
    system is solved by one division; the reduced QR factorisation of a
    single column [c] is [c / |c|] and [|c|]. *)
Definition linalg_1 : Linalg (F:=float) :=
  Build_Linalg
    (fun m : fmatrix => (map (fun r => (hd 0%float r, 0%float)) m, [[1%float]]))
    (fun (a : fmatrix) (b : fvec) =>
       map2 (fun r x => (x / hd 1 r)%float) a b)
    (fun m : fmatrix =>
       let c := map (hd 0%float) m in
       let n := norm c in
       (map (fun x => [(x / n)%float]) c, [[n]])).

(** The closure of [f(x) = x . x]. *)
Definition quadratic (p : fvec) : float * fvec := (dot p p, vscale 2%float p).

(** A closure whose loss is minus infinity below 3, with a finite
    gradient. *)
Definition cliff (p : fvec) : float * fvec :=
  if (hd 0 p <? 3)%float then (neg_infinity, [0.5%float])
  else (3%float, [1%float]).

(** The default options, except for [tolerance_grad], [tr_radius], [nu],
    [max_iter] and the solver. *)
Definition options (iters : nat) (nu_ : float) (solver : string)
    : config (F:=float) :=
  Build_config 1%float iters (dec 1 (-15)) (dec 1 (-15)) 10%float 3
               0.75%float nu_ 0%float 5 1000 (Some "strong_wolfe"%string)
               solver.

(** A model of the OBS solver with one curvature pair in two dimensions:
    [P] and [psi] are the first unit vector, [gamma = 1], and [M] is such
    that [B = gamma I + psi M^-1 psi^T] has the eigenvalues [2e-10] (along
    [P]) and [1]. *)
Definition obs_M : fmatrix := [[(fofZ (-5000000000) / fofZ 4999999999)%sc]].
Definition obs_P : fmatrix := [[1%float]; [0%float]].
Definition obs_lamb_gamma : fvec := [dec 2 (-10)].
Definition obs_grad : fvec := [dec 9 (-11); dec 5 (-2)].
Definition obs_radius : float := dec 1 (-1).

(** A gradient for the model above with both components above the
    tolerance. *)
Definition cutoff_grad : fvec := [dec 1 (-9); 0.609375%float].

(** A second model of the same shape: [gamma = 2e-10], and [M] such that
    the eigenvalue along [P] is [1]; a gradient whose part outside [P] has
    a squared norm below the tolerance. *)
Definition rest_M : fmatrix := [[(f1 / (f1 - dec 2 (-10)))%sc]].
Definition rest_gamma : float := dec 2 (-10).
Definition rest_grad : fvec := [dec 5 (-2); dec 5 (-6)].

(** Three curvature pairs offered to a memory of size two. *)
Definition three_offers : list (fvec * fvec * float) :=
  [([1%float], [1%float], 0%float);
   ([2%float], [1%float], 0%float);
   ([3%float], [1%float], 0%float)].

(** The local variables of [step] on a fresh state at the point [3] of
    [cliff]. *)
Definition cliff_locals : locals (F:=float) :=
  load (options 1 0.75%float "OBS") (setdefault_restart empty_state)
       [3%float] 3%float [1%float].

(** Options with a line search that is not supported, and the tolerance
    on the gradient at zero. *)
Definition options_armijo : config (F:=float) :=
  Build_config 1%float 20 0%float (dec 1 (-15)) 10%float 3 0.75%float
               0.75%float 0%float 5 1000 (Some "armijo"%string) "OBS"%string.

(** The local variables of [step] on a fresh state at the point [1] of
    [quadratic], with two passes allowed. *)
Definition quadratic_locals : locals (F:=float) :=
  load (options 2 0.75%float "OBS") (setdefault_restart empty_state)
       [1%float] 1%float [2%float].

(** Two parameter tensors, of two entries and of one, without gradients
    and before the first call of [_numel]. *)
Definition two_tensors : tensors (F:=float) :=
  {| _params := [ {| data := [1; 2]%float; grad := None |};
                  {| data := [3]%float; grad := None |} ];
     _numel_cache := None |}.

(** A closure whose loss is one and whose gradient is twice the entries. *)
Definition doubling (params : list (param (F:=float)))
    : float * list (param (F:=float)) :=
  (1%float,
   map (fun p => {| data := data p;
                    grad := Some (vscale 2%float (data p)) |}) params).

(* ================================================================= *)
(** ** Exact arithmetic: the tolerance band, concrete inputs *)

(** Zero, or above the tolerance of the OBS solver in absolute value. *)
Definition off_band (x : R) : Prop := x = 0%R \/ (obs_tol < Rabs x)%R.

(** Zero, or above the tolerance. *)
Definition kept (x : R) : Prop := x = 0%R \/ (obs_tol < x)%R.

(** The value of an accumulator of [phi]: the Python integer [0] until the
    first addition. *)
Definition acc_val (o : option R) : R :=
  match o with Some v => v | None => 0%R end.

Local Open Scope R_scope.

(** The library routines of [linalg_1], in exact arithmetic. *)
Definition linalg_R1 : Linalg (F:=R) :=
  Build_Linalg
    (fun m : rmatrix => (map (fun r => (hd 0 r, 0)) m, [[1]]))
    (fun (a : rmatrix) (b : rvec) => map2 (fun r x => x / hd 1 r) a b)
    (fun m : rmatrix =>
       let c := map (hd 0) m in
       let n := norm c in
       (map (fun x => [x / n]) c, [[n]])).

(** The first unit vector of the plane, as a matrix of one column. *)
Definition plane_e1 : rmatrix := [[1]; [0]].

(** The factors of [diag(1, 7)]. *)
Definition stiff_1 : rmatrix := [[1; 0]; [0; 7]].
Definition stiff_2 : rmatrix := [[1; 0]; [0; 1]].

Local Close Scope R_scope.

(* ================================================================= *)
(** * Properties *)

(** ** The curvature memory *)

Section Memory.

Context {F : Type} {SF : Scalar F}.
Local Open Scope sc_scope.

Lemma update_SY_rejects (memory_size : Z) (s y : vec) old_s old_y
    (cond_rest : F) :
  (dot y s + cond_rest >? dec 1 (-10)) = false ->
  update_SY memory_size s y old_s old_y cond_rest = Ok (old_s, old_y).
Proof. intros H. unfold update_SY. now rewrite H. Qed.

Lemma update_SY_evicts (memory_size : Z) (s y : vec) old_s old_y
    (cond_rest : F) :
  (dot y s + cond_rest >? dec 1 (-10)) = true ->
  (0 < memory_size)%Z ->
  length old_s = length old_y ->
  Z.of_nat (length old_s) = memory_size ->
  update_SY memory_size s y old_s old_y cond_rest
  = Ok (tl old_s ++ [s], tl old_y ++ [y]).
Proof.
  intros Hacc Hpos Hlen Hfull. unfold update_SY. rewrite Hacc.
  apply Z.eqb_eq in Hfull. rewrite Hfull.
  apply Z.eqb_eq in Hfull.
  destruct old_s as [|s0 old_s]; [simpl in Hfull; lia|].
  destruct old_y as [|y0 old_y]; [discriminate|].
  reflexivity.
Qed.

Lemma update_SY_appends (memory_size : Z) (s y : vec) old_s old_y
    (cond_rest : F) :
  (dot y s + cond_rest >? dec 1 (-10)) = true ->
  Z.of_nat (length old_s) <> memory_size ->
  update_SY memory_size s y old_s old_y cond_rest
  = Ok (old_s ++ [s], old_y ++ [y]).
Proof.
  intros Hacc Hne. unfold update_SY. rewrite Hacc.
  apply Z.eqb_neq in Hne. now rewrite Hne.
Qed.

Lemma update_SY_keeps_store_ok (memory_size : Z) (s y : vec) old_s old_y
    (cond_rest : F) :
  (0 < memory_size)%Z ->
  store_ok memory_size old_s old_y ->
  exists old_s' old_y',
    update_SY memory_size s y old_s old_y cond_rest = Ok (old_s', old_y')
    /\ store_ok memory_size old_s' old_y'.
Proof.
  intros Hpos [Hlen Hle].
  destruct (dot y s + cond_rest >? dec 1 (-10)) eqn:Hacc.
  - destruct (Z.eq_dec (Z.of_nat (length old_s)) memory_size) as [Hfull|Hne].
    + exists (tl old_s ++ [s]), (tl old_y ++ [y]). split.
      * now apply update_SY_evicts.
      * destruct old_s as [|s0 old_s]; [simpl in Hfull; lia|].
        destruct old_y as [|y0 old_y]; [discriminate|].
        simpl in *. unfold store_ok. rewrite !length_app. simpl. lia.
    + exists (old_s ++ [s]), (old_y ++ [y]). split.
      * now apply update_SY_appends.
      * unfold store_ok. rewrite !length_app. simpl. lia.
  - exists old_s, old_y. split.
    + now apply update_SY_rejects.
    + now split.
Qed.

Lemma offer_all_keeps_store_ok (memory_size : Z) offers :
  (0 < memory_size)%Z ->
  forall old_s old_y,
  store_ok memory_size old_s old_y ->
  exists old_s' old_y',
    offer_all memory_size offers old_s old_y = Ok (old_s', old_y')
    /\ store_ok memory_size old_s' old_y'.
Proof.
  intros Hpos. induction offers as [|[[s y] c] rest IH]; intros old_s old_y Hok.
  - exists old_s, old_y. now split.
  - destruct (update_SY_keeps_store_ok s y c Hpos Hok)
      as (old_s1 & old_y1 & Hstep & Hok1).
    simpl. rewrite Hstep. simpl. now apply IH.
Qed.

(** C3.  Memory of positive size [memory_size], lists of equal length at
    most [memory_size] (the empty lists of a restart among them).  A call of
    [update_SY] whose test [y.s + cond_rest > 1e-10] fails returns with both
    lists as they were; an accepting call on lists of length [memory_size]
    drops the entry at index 0 of both and appends the new pair at the end;
    and every sequence of calls runs to its end, without an exception, on
    lists that have the same length, at most [memory_size]. *)
Theorem update_SY_fifo_bounded (memory_size : Z)
    (offers : list (vec * vec * F)) (old_s old_y : list vec) :
  (0 < memory_size)%Z ->
  store_ok memory_size old_s old_y ->
  (forall s y cond_rest,
     (dot y s + cond_rest >? dec 1 (-10)) = false ->
     update_SY memory_size s y old_s old_y cond_rest = Ok (old_s, old_y))
  /\ (forall s y cond_rest,
        (dot y s + cond_rest >? dec 1 (-10)) = true ->
        Z.of_nat (length old_s) = memory_size ->
        update_SY memory_size s y old_s old_y cond_rest
        = Ok (tl old_s ++ [s], tl old_y ++ [y]))
  /\ (exists old_s' old_y',
        offer_all memory_size offers old_s old_y = Ok (old_s', old_y')
        /\ length old_s' = length old_y'
        /\ (Z.of_nat (length old_s') <= memory_size)%Z).
Proof.
  intros Hpos Hok. split; [|split].
  - intros. now apply update_SY_rejects.
  - intros. apply update_SY_evicts; auto. apply Hok.
  - destruct (offer_all_keeps_store_ok offers Hpos Hok)
      as (old_s' & old_y' & Hrun & Hlen & Hle).
    now exists old_s', old_y'.
Qed.

End Memory.

(* ================================================================= *)
(** ** One call of [step] *)

Section StepProperties.

Context {F : Type} {SF : Scalar F}.
Local Open Scope sc_scope.

Variable la : Linalg (F:=F).
Variable closure : vec (F:=F) -> F * vec (F:=F).
Variable cfg : config (F:=F).

(** Whatever the outer loop does, [step] returns [orig_loss]. *)
Lemma step_returned (st : opt_state) (p : vec) (r : step_result) :
  step la closure cfg st p = Ok r -> returned r = fst (closure p).
Proof.
  unfold step. destruct (closure p) as [orig_loss flat_grad0]. simpl.
  destruct (abs_max flat_grad0 <=? tolerance_grad cfg).
  - intros H. injection H as <-. reflexivity.
  - destruct (outer_loop la closure cfg (max_iter cfg) _) as [l|e]; simpl.
    + intros H. injection H as <-. reflexivity.
    + discriminate.
Qed.

(** The early return of [step]: only [setdefault] has touched the state. *)
Lemma step_early_return (st : opt_state) (p : vec) :
  (abs_max (snd (closure p)) <=? tolerance_grad cfg) = true ->
  step la closure cfg st p
  = Ok (Build_step_result (fst (closure p)) (setdefault_restart st) p
                          (fst (closure p)) []).
Proof.
  unfold step. destruct (closure p) as [orig_loss flat_grad0]. simpl.
  now intros ->.
Qed.

Lemma setdefault_restart_present (st : opt_state (F:=F)) :
  st_restart st <> None -> setdefault_restart st = st.
Proof.
  destruct st as [r d a os oy pg tr v s y T rho]. simpl.
  destruct r as [r|]; [reflexivity|]. intros H. now destruct H.
Qed.

(** The three [if] statements after the line search test what
    [ls_out_of_range] spells out. *)
Lemma ls_rejected_spelled (loss_t : F) (flat_grad_t : vec) (alpha_t : F) :
  ls_rejected loss_t flat_grad_t alpha_t
  = ls_out_of_range loss_t flat_grad_t alpha_t.
Proof.
  unfold ls_rejected, ls_out_of_range.
  destruct (alpha_t <? dec 1 (-12)), (alpha_t >? fofZ 1000000),
    (norm flat_grad_t <? dec 1 (-12)), (norm flat_grad_t >? fofZ 1000000),
    (loss_t >? fofZ 1000000), (fisnan loss_t); reflexivity.
Qed.

(** *** The calls of the line search *)

Local Opaque strong_wolfe solve_dispatch calculate_M calculate_hess solve_mat
  update_SY update_radius blend quad_form abs_max norm dot pymin pymax
  pymin_list vsum vscale vadd vsub vneg transpose eye dec ls_rejected
  String.eqb last hd tl cabs linalg_eig row_scale.

Ltac step_match :=
  match goal with
  | |- context [match ?x with _ => _ end] =>
      lazymatch x with
      | context [match _ with _ => _ end] => fail
      | _ => destruct x eqn:?
      end
  end.

Ltac flow_inv :=
  repeat match goal with
  | H : Go _ = Go _ |- _ => inversion H; subst; clear H
  | H : Stop _ = Stop _ |- _ => inversion H; subst; clear H
  | H : Go _ = Stop _ |- _ => discriminate H
  | H : Stop _ = Go _ |- _ => discriminate H
  | H : Fail _ = _ |- _ => discriminate H
  | H : _ \/ _ |- _ => destruct H
  end.

Ltac flow_cases := repeat (step_match; simpl); intros; flow_inv; simpl.

Lemma line_searches_app (tr tr' : list (event (F:=F))) :
  line_searches (tr ++ tr') = line_searches tr ++ line_searches tr'.
Proof. apply filter_app. Qed.

(** [finish] only appends events to the trace. *)
Lemma finish_trace l dw a c dHd pl l' :
  finish cfg l dw a c dHd pl = Go l' \/ finish cfg l dw a c dHd pl = Stop l' ->
  exists evs, trace l' = trace l ++ evs.
Proof.
  unfold finish, fbind, need, lift. flow_cases.
  all: rewrite <- ?app_assoc; eexists; reflexivity.
Qed.

Lemma finish_line_searches l dw a c dHd pl l' :
  finish cfg l dw a c dHd pl = Go l' \/ finish cfg l dw a c dHd pl = Stop l' ->
  line_searches (trace l') = line_searches (trace l).
Proof.
  unfold finish, fbind, need, lift. flow_cases.
  all: rewrite ?line_searches_app; simpl; rewrite ?app_nil_r; reflexivity.
Qed.

Lemma advance_fixed_line_searches l dw a c dHd pl l' :
  advance_fixed closure cfg l dw a c dHd pl = Go l'
  \/ advance_fixed closure cfg l dw a c dHd pl = Stop l' ->
  line_searches (trace l') = line_searches (trace l).
Proof.
  unfold advance_fixed.
  repeat (step_match; simpl); intros H;
    try (apply finish_line_searches in H; rewrite H; simpl);
    flow_inv; simpl;
    rewrite ?line_searches_app; simpl; rewrite ?app_nil_r; reflexivity.
Qed.

Lemma advance_line_search_line_searches name l dw a gtd c dHd pl l' :
  advance_line_search closure cfg name l dw a gtd c dHd pl = Go l'
  \/ advance_line_search closure cfg name l dw a gtd c dHd pl = Stop l' ->
  line_searches (trace l')
  = line_searches (trace l) ++ [LineSearch a dw (loss l) (flat_grad l) gtd].
Proof.
  unfold advance_line_search, fbind, lift.
  repeat (step_match; simpl); intros H;
    try (apply finish_line_searches in H; rewrite H; simpl);
    flow_inv; simpl;
    rewrite ?line_searches_app; simpl; rewrite ?app_nil_r; reflexivity.
Qed.

(** [direction] leaves the trace, the loss and the gradient alone, and
    when it goes on, [state['restart']] is not [1] any more. *)
Lemma direction_Go l l1 hess gamma :
  direction la cfg l = Go (l1, hess, gamma) ->
  trace l1 = trace l /\ flat_grad l1 = flat_grad l /\ loss l1 = loss l
  /\ restart l1 <> 1%Z.
Proof.
  unfold direction, fbind, need, lift. flow_cases.
  - repeat split; auto. discriminate.
  - repeat split; auto. now apply Z.eqb_neq.
Qed.

Lemma direction_Stop l l1 :
  direction la cfg l = Stop l1 -> trace l1 = trace l.
Proof.
  unfold direction, fbind, need, lift. flow_cases. reflexivity.
Qed.

(** One pass of the outer loop calls the line search at most once, with
    the step length [lr] and the directional derivative of the direction
    before its negation. *)
Lemma iteration_line_searches l l' :
  iteration la closure cfg l = Go l' \/ iteration la closure cfg l = Stop l' ->
  line_searches (trace l') = line_searches (trace l)
  \/ exists d0,
       line_searches (trace l')
       = line_searches (trace l)
         ++ [LineSearch (lr cfg)
                        (if dot (flat_grad l) d0 >? f0 then vneg d0 else d0)
                        (loss l) (flat_grad l) (dot (flat_grad l) d0)].
Proof.
  unfold iteration, fbind.
  destruct (direction la cfg _) as [[[l1 hess] gamma]|l1|e] eqn:Hdir.
  - apply direction_Go in Hdir. simpl in Hdir.
    destruct Hdir as (Htr & Hg & Hl & Hr).
    apply Z.eqb_neq in Hr.
    unfold need.
    destruct (v l1) as [vv|]; [|intros; flow_inv].
    destruct (s l1) as [sv|]; [|intros; flow_inv].
    destruct (delta_w l1) as [dw|]; [|intros; flow_inv].
    destruct (blend cfg _ _ _ _ _) as [vv' dw'].
    step_match; simpl.
    + intros; flow_inv; simpl; left; now rewrite Htr.
    + rewrite Hr. destruct (line_search_fn cfg) as [name|]; intros H.
      * apply advance_line_search_line_searches in H. simpl in H.
        right. exists dw'. rewrite H, Htr, Hg, Hl. reflexivity.
      * apply advance_fixed_line_searches in H. simpl in H.
        left. now rewrite H, Htr.
  - intros; flow_inv. left. apply direction_Stop in Hdir.
    simpl in Hdir. now rewrite Hdir.
  - intros; flow_inv.
Qed.

Lemma outer_loop_line_searches left l l' :
  outer_loop la closure cfg left l = Ok l' ->
  Forall (ls_shape cfg) (line_searches (trace l)) ->
  Forall (ls_shape cfg) (line_searches (trace l')).
Proof.
  revert l. induction left as [|left IH]; intros l; simpl.
  - intros H. now injection H as <-.
  - destruct (n_iter l <? max_iter cfg)%nat.
    + destruct (iteration la closure cfg l) as [l1|l1|e] eqn:Hit.
      * intros Hrun Hall. apply (IH _ Hrun).
        destruct (@iteration_line_searches l l1 (or_introl Hit))
          as [->|[d0 ->]]; auto.
        apply Forall_app. split; [assumption|].
        constructor; [|constructor]. split; [reflexivity|].
        exists d0. split; reflexivity.
      * intros Hrun Hall. injection Hrun as <-.
        destruct (@iteration_line_searches l l1 (or_intror Hit))
          as [->|[d0 ->]]; auto.
        apply Forall_app. split; [assumption|].
        constructor; [|constructor]. split; [reflexivity|].
        exists d0. split; reflexivity.
      * discriminate.
    + intros H. now injection H as <-.
Qed.

Lemma step_line_searches st p r :
  step la closure cfg st p = Ok r ->
  Forall (ls_shape cfg) (line_searches (events r)).
Proof.
  unfold step. destruct (closure p) as [orig_loss flat_grad0].
  destruct (abs_max flat_grad0 <=? tolerance_grad cfg).
  - intros H. injection H as <-. constructor.
  - destruct (outer_loop la closure cfg (max_iter cfg) _) as [l|e] eqn:Hrun;
      simpl; [|discriminate].
    intros H. injection H as <-. simpl.
    apply (@outer_loop_line_searches _ _ _ Hrun). constructor.
Qed.

(** One pass of the outer loop calls the line search at most once, and
    then for its blended direction. *)
Lemma iteration_search_call l l' :
  iteration la closure cfg l = Go l' \/ iteration la closure cfg l = Stop l' ->
  line_searches (trace l') = line_searches (trace l)
  \/ exists l1 d0,
       blended la cfg l = Some (l1, d0)
       /\ line_searches (trace l')
          = line_searches (trace l) ++ [search_call cfg l1 d0].
Proof.
  unfold iteration, blended, search_call, fbind.
  destruct (direction la cfg _) as [[[l1 hess] gamma]|l1|e] eqn:Hdir.
  - pose proof (@direction_Go _ _ _ _ Hdir) as Hgo.
    simpl in Hgo. destruct Hgo as (Htr & Hg & Hl & Hr).
    apply Z.eqb_neq in Hr.
    unfold need.
    destruct (v l1) as [vv|]; [|intros; flow_inv].
    destruct (s l1) as [sv|]; [|intros; flow_inv].
    destruct (delta_w l1) as [dw|]; [|intros; flow_inv].
    destruct (blend cfg _ _ _ _ _) as [vv' dw'].
    step_match; simpl.
    + intros; flow_inv; simpl; left; now rewrite Htr.
    + rewrite Hr. destruct (line_search_fn cfg) as [name|]; intros H.
      * apply advance_line_search_line_searches in H. simpl in H.
        right. exists l1, dw'. split; [reflexivity|].
        rewrite H, Htr. reflexivity.
      * apply advance_fixed_line_searches in H. simpl in H.
        left. now rewrite H, Htr.
  - intros; flow_inv. left. apply direction_Stop in Hdir.
    simpl in Hdir. now rewrite Hdir.
  - intros; flow_inv.
Qed.

Lemma outer_loop_search_calls left l l' e :
  outer_loop la closure cfg left l = Ok l' ->
  In e (line_searches (trace l')) ->
  In e (line_searches (trace l))
  \/ exists l0 l1 d0,
       In l0 (passes la closure cfg left l)
       /\ blended la cfg l0 = Some (l1, d0)
       /\ e = search_call cfg l1 d0.
Proof.
  revert l. induction left as [|left IH]; intros l; simpl.
  - intros H. injection H as <-. now left.
  - destruct (n_iter l <? max_iter cfg)%nat.
    + destruct (iteration la closure cfg l) as [l1|l1|err] eqn:Hit.
      * intros Hrun Hin. destruct (IH _ Hrun Hin) as [Hold|Hnew].
        -- destruct (@iteration_search_call l l1 (or_introl Hit))
             as [Heq|(l2 & d0 & Hb & Heq)]; rewrite Heq in Hold.
           ++ now left.
           ++ apply in_app_or in Hold as [Hold|[<-|[]]]; [now left|].
              right. exists l, l2, d0. repeat split; [now left|exact Hb].
        -- destruct Hnew as (l0 & l2 & d0 & Hl0 & Hb & He).
           right. exists l0, l2, d0. repeat split; [now right|exact Hb|exact He].
      * intros Hrun Hin. injection Hrun as <-.
        destruct (@iteration_search_call l l1 (or_intror Hit))
          as [Heq|(l2 & d0 & Hb & Heq)]; rewrite Heq in Hin.
        -- now left.
        -- apply in_app_or in Hin as [Hin|[<-|[]]]; [now left|].
           right. exists l, l2, d0. repeat split; [now left|exact Hb].
      * discriminate.
    + intros H. injection H as <-. now left.
Qed.

(** C10.  Every call of [_strong_wolfe] that [step] makes belongs to a
    pass [l] of its outer loop and is made for the direction [d0] that the
    momentum of steps 16 to 19 leaves in that pass, before the descent
    check of steps 24 to 26: the gradient [g] passed is the gradient of
    that pass, the argument [gtd] is [g . d0], the derivative along [d0]
    itself, and the direction passed is [d0] when [gtd] is not positive and
    [- d0] when it is.  So when the check negates the direction, the search
    still gets the positive [g . d0] computed before the negation, and not
    the derivative [- (g . d0)] along the direction it is given. *)
Theorem line_search_gtd_before_negation (st : opt_state) (p : vec)
    (r : step_result) (t : F) (d : vec) (f : F) (g : vec) (gtd : F) :
  step la closure cfg st p = Ok r ->
  In (LineSearch t d f g gtd) (events r) ->
  exists l l1 d0,
    In l (passes la closure cfg (max_iter cfg)
                 (load cfg (setdefault_restart st) p (fst (closure p))
                       (snd (closure p))))
    /\ blended la cfg l = Some (l1, d0)
    /\ g = flat_grad l1
    /\ gtd = dot g d0
    /\ d = (if gtd >? f0 then vneg d0 else d0)
    /\ ((gtd >? f0) = true -> d = vneg d0 /\ (dot g d0 >? f0) = true).
Proof.
  unfold step. destruct (closure p) as [orig_loss flat_grad0]. simpl.
  destruct (abs_max flat_grad0 <=? tolerance_grad cfg).
  - intros H. injection H as <-. intros [].
  - destruct (outer_loop la closure cfg (max_iter cfg) _) as [l|e] eqn:Hrun;
      simpl; [|discriminate].
    intros H. injection H as <-. simpl. intros Hin.
    assert (Hls : In (LineSearch t d f g gtd) (line_searches (trace l))).
    { apply filter_In. split; [assumption|reflexivity]. }
    destruct (@outer_loop_search_calls _ _ _ _ Hrun Hls)
      as [[]|(l0 & l1 & d0 & Hl0 & Hb & He)].
    exists l0, l1, d0. split; [exact Hl0|]. split; [exact Hb|].
    unfold search_call in He. injection He as -> -> -> -> ->.
    split; [reflexivity|]. split; [reflexivity|]. split; [reflexivity|].
    intros Hpos. split; [now rewrite Hpos|exact Hpos].
Qed.

(** Every line search of [step] starts from the step length [lr], on a
    restart iteration as on any other. *)
Lemma line_search_initial_step (st : opt_state) (p : vec)
    (r : step_result) (t : F) (d : vec) (f : F) (g : vec) (gtd : F) :
  step la closure cfg st p = Ok r ->
  In (LineSearch t d f g gtd) (events r) ->
  t = lr cfg.
Proof.
  intros Hstep Hin.
  pose proof (@step_line_searches _ _ _ Hstep) as Hall.
  rewrite Forall_forall in Hall.
  assert (Hls : In (LineSearch t d f g gtd) (line_searches (events r))).
  { apply filter_In. split; [assumption|reflexivity]. }
  now destruct (Hall _ Hls) as (Ht & _).
Qed.

(** *** What [step] does with the result of the line search *)

Lemma app_longer {A} (xs ys : list A) (y : A) : xs <> (xs ++ [y]) ++ ys.
Proof.
  intros H. apply (f_equal (@length A)) in H.
  rewrite !length_app in H. simpl in H. lia.
Qed.

(** C8, as the code has it.  When [_strong_wolfe] returns [(loss_t,
    flat_grad_t, alpha_t)], [step] rejects the iteration (it sets
    [state['restart']] to [1] and leaves the loop at once, with nothing
    done after the call of the line search) exactly when [alpha_t < 1e-12],
    or [alpha_t > 1e6], or the norm of [flat_grad_t] is below [1e-12] or
    above [1e6], or [loss_t > 1e6], or [loss_t] is NaN.  The variables of a
    rejected iteration show it: the parameters, the loss, both lists of the
    memory and the trust radius with [T] and [rho] are those from before
    the line search, and the trace ends with the call of the line search,
    so that neither [update_SY] nor [update_radius] has been called. *)
Theorem line_search_rejection (l : locals) (dw : vec)
    (a gtd cond_rest dHd prev_loss loss_t : F) (flat_grad_t : vec)
    (alpha_t : F) (evals : nat) :
  strong_wolfe (directional_evaluate closure) (params l) dw (loss l)
               (flat_grad l) gtd a
  = Ok (loss_t, flat_grad_t, alpha_t, evals) ->
  let rejected :=
    set_restart 1 (emit (LineSearch a dw (loss l) (flat_grad l) gtd) l) in
  (advance_line_search closure cfg "strong_wolfe" l dw a gtd cond_rest dHd
                       prev_loss = Stop rejected
   <-> ls_out_of_range loss_t flat_grad_t alpha_t = true)
  /\ restart rejected = 1%Z
  /\ params rejected = params l
  /\ loss rejected = loss l
  /\ old_s rejected = old_s l
  /\ old_y rejected = old_y l
  /\ trust_radius rejected = trust_radius l
  /\ T rejected = T l
  /\ rho rejected = rho l
  /\ trace rejected = trace l ++ [LineSearch a dw (loss l) (flat_grad l) gtd].
Proof.
  intros Hsw rejected. split; [|repeat split].
  unfold advance_line_search. rewrite String.eqb_refl. simpl.
  unfold fbind, lift. simpl. rewrite Hsw. simpl.
  rewrite ls_rejected_spelled.
  destruct (ls_out_of_range loss_t flat_grad_t alpha_t).
  - split; reflexivity.
  - split; [|discriminate]. intros H. exfalso.
    destruct (abs_max flat_grad_t <=? tolerance_grad cfg).
    + apply (f_equal (fun o : flow (F:=F) locals =>
                        match o with Stop x => trace x | _ => [] end)) in H.
      simpl in H. symmetry in H. revert H. rewrite <- (app_nil_r (_ ++ [AddGrad _ _])).
      apply app_longer.
    + destruct (finish_trace _ _ _ _ _ _ (or_intror H)) as [evs Hevs].
      simpl in Hevs. revert Hevs. apply app_longer.
Qed.

(** *** The value returned and the early return *)

(** C2, as the code has it.  Whenever [step] returns, it returns
    [orig_loss], the loss that the closure gave at entry, whatever the
    outer loop has evaluated since. *)
Theorem step_returns_entry_loss (st : opt_state) (p : vec)
    (r : step_result) :
  step la closure cfg st p = Ok r -> returned r = fst (closure p).
Proof. apply step_returned. Qed.

(** C9, as the code has it.  When the largest absolute entry of the
    gradient at entry is at most [tolerance_grad], [step] returns the loss
    at entry and has called nothing; the parameters are the same and so is
    every entry of the state, except that a state without the key
    [restart] has got it, with value [1]. *)
Theorem step_converged_at_entry (st : opt_state) (p : vec) :
  (abs_max (snd (closure p)) <=? tolerance_grad cfg) = true ->
  exists r,
    step la closure cfg st p = Ok r
    /\ returned r = fst (closure p)
    /\ params_after r = p
    /\ events r = []
    /\ st_restart (state_after r)
       = Some (match st_restart st with Some x => x | None => 1%Z end)
    /\ st_d (state_after r) = st_d st
    /\ st_alpha (state_after r) = st_alpha st
    /\ st_old_s (state_after r) = st_old_s st
    /\ st_old_y (state_after r) = st_old_y st
    /\ st_prev_flat_grad (state_after r) = st_prev_flat_grad st
    /\ st_trust_radius (state_after r) = st_trust_radius st
    /\ st_v (state_after r) = st_v st
    /\ st_s (state_after r) = st_s st
    /\ st_y (state_after r) = st_y st
    /\ st_T (state_after r) = st_T st
    /\ st_rho (state_after r) = st_rho st
    /\ (st_restart st <> None -> state_after r = st).
Proof.
  intros Hopt. eexists. split; [now apply step_early_return|].
  simpl. repeat (split; [reflexivity|]).
  apply setdefault_restart_present.
Qed.

(** *** The selection of the solver *)

(** C6, what the code does.  With a solver name that is none of the three,
    step 14 raises nothing and assigns nothing: [solve_dispatch] hands back
    the direction it was given, and an iteration that is not a restart
    goes on from [direction] with the [delta_w] it was entered with. *)
Theorem unknown_solver_name_not_reported :
  String.eqb (trust_solver cfg) "Cauchy_Point_Calculation" = false ->
  String.eqb (trust_solver cfg) "Steihaug_cg" = false ->
  String.eqb (trust_solver cfg) "OBS" = false ->
  (forall M L P lamb gamma psi flat_grad trust_radius delta_w,
     solve_dispatch la cfg M L P lamb gamma psi flat_grad trust_radius
                    delta_w = Ok delta_w)
  /\ (forall l l1 hess gamma,
        restart l <> 1%Z ->
        direction la cfg l = Go (l1, hess, gamma) ->
        delta_w l1 = delta_w l).
Proof.
  intros Hc Hs Ho.
  assert (Hd : forall M L P lamb gamma psi flat_grad trust_radius delta_w,
             solve_dispatch la cfg M L P lamb gamma psi flat_grad
                            trust_radius delta_w = Ok delta_w).
  { intros. Local Transparent solve_dispatch. unfold solve_dispatch.
    Local Opaque solve_dispatch. now rewrite Hc, Hs, Ho. }
  split; [exact Hd|].
  intros l l1 hess gamma Hr. apply Z.eqb_neq in Hr.
  unfold direction, fbind, need, lift. rewrite Hr.
  repeat (step_match; simpl); intros; flow_inv; simpl;
    try match goal with
        | H : solve_dispatch _ _ _ _ _ _ _ _ _ _ _ = _ |- _ =>
            rewrite Hd in H; try discriminate H; injection H as <-
        end; reflexivity.
Qed.

Local Transparent strong_wolfe solve_dispatch calculate_M calculate_hess
  solve_mat update_SY update_radius blend quad_form abs_max norm dot pymin
  pymax pymin_list vsum vscale vadd vsub vneg transpose eye dec ls_rejected
  String.eqb last hd tl cabs linalg_eig row_scale.

End StepProperties.

(* ================================================================= *)
(** ** The solvers in exact arithmetic *)

Section RealSolvers.

Local Open Scope R_scope.

Lemma fold_Rplus_shift (u : list R) (a : R) :
  fold_left Rplus u a = a + fold_left Rplus u 0.
Proof.
  revert a. induction u as [|x u IH]; intros a; simpl.
  - lra.
  - rewrite (IH (a + x)), (IH (0 + x)). lra.
Qed.

Lemma dot_nil_l (v : rvec) : dot [] v = 0.
Proof. reflexivity. Qed.

Lemma dot_nil_r (u : rvec) : dot u [] = 0.
Proof. destruct u; reflexivity. Qed.

Lemma dot_cons (x y : R) (u v : rvec) :
  dot (x :: u) (y :: v) = x * y + dot u v.
Proof.
  unfold dot, vsum, vmul. simpl.
  rewrite fold_Rplus_shift. unfold f0. simpl. lra.
Qed.

Lemma dot_self_nonneg (u : rvec) : 0 <= dot u u.
Proof.
  induction u as [|x u IH].
  - rewrite dot_nil_l. lra.
  - rewrite dot_cons. nra.
Qed.

Lemma dot_comm (u v : rvec) : dot u v = dot v u.
Proof.
  revert v. induction u as [|x u IH]; intros [|y v];
    rewrite ?dot_nil_l, ?dot_nil_r, ?dot_cons; try reflexivity.
  rewrite IH. lra.
Qed.

Lemma vscale_cons (c x : R) (u : rvec) :
  vscale c (x :: u) = c * x :: vscale c u.
Proof. reflexivity. Qed.

Lemma vadd_cons (x y : R) (u v : rvec) :
  vadd (x :: u) (y :: v) = x + y :: vadd u v.
Proof. reflexivity. Qed.

Lemma dot_vscale (c : R) (u : rvec) :
  dot (vscale c u) (vscale c u) = c * c * dot u u.
Proof.
  induction u as [|x u IH].
  - change (vscale c []) with (@nil R). rewrite dot_nil_l. lra.
  - rewrite vscale_cons, !dot_cons, IH. lra.
Qed.

Lemma norm_vscale (c : R) (u : rvec) :
  norm (vscale c u) = Rabs c * norm u.
Proof.
  unfold norm. rewrite dot_vscale. simpl.
  rewrite sqrt_mult_alt by nra.
  rewrite <- sqrt_Rsqr_abs. reflexivity.
Qed.

(** The squared norm along a line, for vectors of the same length. *)
Lemma dot_line (z d : rvec) (t : R) :
  length z = length d ->
  dot (vadd z (vscale t d)) (vadd z (vscale t d))
  = dot z z + 2 * t * dot d z + t * t * dot d d.
Proof.
  revert d. induction z as [|x z IH]; intros [|y d] Hlen; try discriminate.
  - change (vadd [] (vscale t [])) with (@nil R). rewrite !dot_nil_l. lra.
  - injection Hlen as Hlen.
    rewrite vscale_cons, vadd_cons, !dot_cons, (IH _ Hlen). lra.
Qed.

Lemma length_vadd (u v : rvec) :
  length u = length v -> length (vadd u v) = length u.
Proof.
  revert v. induction u as [|x u IH]; intros [|y v] H; try discriminate.
  - reflexivity.
  - injection H as H. rewrite vadd_cons. simpl. now rewrite IH.
Qed.

Lemma Rltb_true (x y : R) : Rltb x y = true <-> x < y.
Proof. unfold Rltb. destruct (Rlt_dec x y); split; auto; discriminate. Qed.
Lemma Rltb_false (x y : R) : Rltb x y = false <-> y <= x.
Proof. unfold Rltb. destruct (Rlt_dec x y); split; try discriminate; auto; lra. Qed.
Lemma Rleb_true (x y : R) : Rleb x y = true <-> x <= y.
Proof. unfold Rleb. destruct (Rle_dec x y); split; auto; discriminate. Qed.
Lemma Rleb_false (x y : R) : Rleb x y = false <-> y < x.
Proof. unfold Rleb. destruct (Rle_dec x y); split; try discriminate; auto; lra. Qed.

Lemma pymin_one_bounds (a : R) : 0 < a -> 0 < pymin a f1 <= 1.
Proof.
  intros Ha. unfold pymin, f1. simpl.
  destruct (Rltb 1 a) eqn:H.
  - lra.
  - apply Rltb_false in H. lra.
Qed.

Lemma norm_pos (u : rvec) : 0 < dot u u -> 0 < norm u.
Proof. intros H. unfold norm. simpl. now apply sqrt_lt_R0. Qed.

Lemma cauchy_within_radius (g : rvec) (h1 h2 : rmatrix) (Delta : R) :
  0 < dot g g -> 0 < Delta ->
  norm (trust_solver_cauchy g h1 h2 Delta) <= Delta.
Proof.
  intros Hg HD. pose proof (@norm_pos g Hg) as Hn.
  unfold trust_solver_cauchy.
  set (c := dot (vecmat g h1) (matvec h2 g)).
  set (tau := if fleb c f0 then f1 else _).
  assert (Ht : 0 < tau <= 1).
  { subst tau.
    change (0 < (if Rleb c 0 then 1
                 else pymin (norm g * norm g * norm g / (c * Delta)) f1) <= 1).
    destruct (Rleb c 0) eqn:Hc.
    - lra.
    - apply Rleb_false in Hc. apply pymin_one_bounds.
      apply Rdiv_lt_0_compat; [|nra].
      apply Rmult_lt_0_compat; [nra|assumption]. }
  rewrite norm_vscale.
  change (Rabs (- tau * Delta / norm g) * norm g <= Delta).
  replace (- tau * Delta / norm g) with (- (tau * Delta / norm g)) by (field; lra).
  rewrite Rabs_Ropp, Rabs_pos_eq.
  - replace (tau * Delta / norm g * norm g) with (tau * Delta) by (field; lra).
    nra.
  - apply Rlt_le, Rdiv_lt_0_compat; nra.
Qed.

Lemma length_vscale (c : R) (u : rvec) : length (vscale c u) = length u.
Proof. apply length_map. Qed.
Lemma length_vneg (u : rvec) : length (vneg u) = length u.
Proof. apply length_map. Qed.
Lemma length_vadds (u : rvec) (c : R) : length (vadds u c) = length u.
Proof. apply length_map. Qed.
Lemma length_matvec (m : rmatrix) (u : rvec) : length (matvec m u) = length m.
Proof. apply length_map. Qed.

Lemma norm_lt_sq (u : rvec) (Delta : R) :
  0 < Delta -> (norm u < Delta <-> dot u u < Delta * Delta).
Proof.
  intros HD. unfold norm. change (fsqrt (dot u u)) with (R_sqrt.sqrt (dot u u)).
  pose proof (dot_self_nonneg u) as Hu.
  rewrite <- (sqrt_square Delta) at 1 by lra.
  split; intros H.
  - apply sqrt_lt_0_alt in H. exact H.
  - apply sqrt_lt_1_alt. lra.
Qed.

(** Both early exits of the CG loop land on the boundary. *)
Lemma boundary_on_sphere (z d : rvec) (Delta : R) :
  length z = length d -> 0 < dot d d -> dot z z < Delta * Delta ->
  0 < Delta ->
  norm (vadd z (vscale (boundary_tau (dot d z) (dot d d) (dot z z) Delta) d))
  = Delta.
Proof.
  intros Hlen Hdd Hzz HD.
  unfold norm. rewrite dot_line by assumption.
  set (dz := dot d z). set (dd := dot d d) in *. set (zz := dot z z) in *.
  unfold boundary_tau.
  change (fsqrt ?x) with (R_sqrt.sqrt x).
  change (R_sqrt.sqrt
    (zz + 2 * ((- 2 * dz + R_sqrt.sqrt (- 2 * dz * (- 2 * dz)
                                 - 4 * dd * (zz - Delta * Delta)))
               / (2 * dd)) * dz
     + (- 2 * dz + R_sqrt.sqrt (- 2 * dz * (- 2 * dz)
                         - 4 * dd * (zz - Delta * Delta))) / (2 * dd)
       * ((- 2 * dz + R_sqrt.sqrt (- 2 * dz * (- 2 * dz)
                            - 4 * dd * (zz - Delta * Delta))) / (2 * dd))
       * dd) = Delta).
  set (D := - 2 * dz * (- 2 * dz) - 4 * dd * (zz - Delta * Delta)).
  assert (HD0 : 0 <= D) by (unfold D; nra).
  pose proof (sqrt_sqrt D HD0) as Hs. set (sD := R_sqrt.sqrt D) in *.
  replace (zz + 2 * ((- 2 * dz + sD) / (2 * dd)) * dz
           + (- 2 * dz + sD) / (2 * dd) * ((- 2 * dz + sD) / (2 * dd)) * dd)
    with (Delta * Delta + (sD * sD - D) / (4 * dd))
    by (unfold D; field; lra).
  rewrite Hs. replace (Delta * Delta + (D - D) / (4 * dd)) with (Delta * Delta)
    by (field; lra).
  apply sqrt_square. lra.
Qed.

Lemma steihaug_body_cases (h1 h2 : rmatrix) (Delta delta : R) (z r d : rvec) :
  0 < Delta ->
  length z = length d -> length r = length d -> length h1 = length d ->
  dot z z < Delta * Delta -> 0 < dot d d ->
  match steihaug_body h1 h2 Delta delta z r d with
  | CgReturn p => norm p <= Delta
  | CgNext z' r' d' =>
      length z' = length d' /\ length r' = length d'
      /\ length h1 = length d' /\ dot z' z' < Delta * Delta
  end.
Proof.
  intros HD Hz Hr Hh Hzz Hdd. unfold steihaug_body.
  destruct (fleb _ f0).
  { rewrite boundary_on_sphere by assumption. lra. }
  destruct (fleb Delta _) eqn:Hout.
  { rewrite boundary_on_sphere by assumption. lra. }
  change (fleb Delta ?x) with (Rleb Delta x) in Hout.
  apply Rleb_false in Hout.
  destruct (fltb _ delta).
  { lra. }
  rewrite length_vadds, length_vneg, !length_vadd, Hz;
    rewrite ?length_vscale, ?length_matvec; try congruence.
  repeat split; try congruence.
  now apply norm_lt_sq.
Qed.

Lemma steihaug_loop_within (h1 h2 : rmatrix) (Delta delta : R) (iters : nat) :
  0 < Delta ->
  forall z r d : rvec,
  length z = length d -> length r = length d -> length h1 = length d ->
  dot z z < Delta * Delta ->
  Forall (fun d : rvec => 0 < dot d d)
         (steihaug_directions iters h1 h2 Delta delta z r d) ->
  norm (steihaug_loop iters h1 h2 Delta delta z r d) <= Delta.
Proof.
  intros HD. induction iters as [|iters IH]; intros z r d Hz Hr Hh Hzz Hdirs.
  - cbn [steihaug_loop]. apply Rlt_le. now apply norm_lt_sq.
  - cbn [steihaug_loop steihaug_directions] in *.
    inversion Hdirs as [|d' ds Hdd Hrest]; subst.
    pose proof (@steihaug_body_cases h1 h2 Delta delta z r d HD Hz Hr Hh Hzz Hdd)
      as Hbody.
    destruct (steihaug_body h1 h2 Delta delta z r d) as [p|z' r' d'].
    + exact Hbody.
    + destruct Hbody as (Hz' & Hr' & Hh' & Hzz'). now apply IH.
Qed.

Lemma dot_zeros (n : nat) : dot (zeros (F:=R) n) (zeros n) = 0.
Proof.
  induction n as [|n IH]; [reflexivity|].
  change (zeros (S n)) with (0 :: zeros (F:=R) n). rewrite dot_cons, IH. lra.
Qed.

Lemma steihaug_within_radius (cg_iter : nat) (g : rvec) (h1 h2 : rmatrix)
    (Delta : R) :
  0 < dot g g -> 0 < Delta -> length h1 = length g ->
  Forall (fun d : rvec => 0 < dot d d) (cg_directions cg_iter g h1 h2 Delta) ->
  norm (trust_solver_steihaug cg_iter g h1 h2 Delta) <= Delta.
Proof.
  intros Hg HD Hh Hdirs. pose proof (@norm_pos g Hg) as Hn.
  unfold trust_solver_steihaug. destruct (fleb _ f0).
  - rewrite norm_vscale.
    change (Rabs (- Delta / norm g) * norm g <= Delta).
    replace (- Delta / norm g) with (- (Delta / norm g)) by (field; lra).
    rewrite Rabs_Ropp, Rabs_pos_eq.
    + replace (Delta / norm g * norm g) with Delta by (field; lra). lra.
    + apply Rlt_le, Rdiv_lt_0_compat; lra.
  - apply steihaug_loop_within; try assumption.
    + unfold zeros. now rewrite repeat_length, length_vneg.
    + now rewrite length_vneg.
    + now rewrite length_vneg.
    + rewrite dot_zeros. nra.
Qed.

Lemma norm_pos_dot (u : rvec) : 0 < norm u -> 0 < dot u u.
Proof.
  unfold norm. change (fsqrt (dot u u)) with (R_sqrt.sqrt (dot u u)).
  intros H. destruct (Rle_lt_dec (dot u u) 0) as [Hle|Hlt]; [|assumption].
  rewrite sqrt_neg_0 in H by assumption. lra.
Qed.

End RealSolvers.

(* ================================================================= *)
(** ** Runs in binary64 *)

Section Runs.

Local Open Scope float_scope.


(** The inputs of the exact runs of C1 below, in binary64: the Cauchy
    point and the Steihaug step on [diag(1, 7)] for the gradient [(3, 4)]
    and radius [0.25], and the three steps of the OBS solver. *)
Lemma plane_runs_binary64 :
  norm (trust_solver_cauchy [3; 4] [[1; 0]; [0; 7]] [[1; 0]; [0; 1]] 0.25)
  = 0.25
  /\ norm (trust_solver_steihaug 1000 [3; 4] [[1; 0]; [0; 7]]
                                 [[1; 0]; [0; 1]] 0.25) = 0.25
  /\ (exists p,
        trust_solver_OBS linalg_1 5 [[0.03125]] obs_P [64] 0.25 32 [3; 4]
                         obs_P = Ok p
        /\ (norm p <? 0.25) = true)
  /\ (exists p,
        trust_solver_OBS linalg_1 5 [[-0.03125]] obs_P [0] 0.25 32 [0; 4]
                         obs_P = Ok p
        /\ norm p = 0.125)
  /\ (exists p,
        trust_solver_OBS linalg_1 5 [[0.03125]] obs_P [64] 0.015625 32
                         [3; 0] obs_P = Ok p
        /\ norm p = 0.015625).
Proof.
  split; [vm_compute; reflexivity|]. split; [vm_compute; reflexivity|].
  split; [|split]; eexists; split; vm_compute; reflexivity.
Qed.

(** The Steihaug solver on a positive semidefinite model where the CG
    direction of the second pass is the zero vector: the boundary step
    divides zero by zero, and the result is not a number. *)
Lemma steihaug_vanishing_direction :
  cg_directions 2 [0.5; -0.5] [[1; 1]; [1; 3]] [[1; 0]; [0; 1]] 10
  = [[-0.5; 0.5]; [0; 0]]
  /\ trust_solver_steihaug 2 [0.5; -0.5] [[1; 1]; [1; 3]] [[1; 0]; [0; 1]] 10
     = [nan; nan].
Proof. split; vm_compute; reflexivity. Qed.

(** C2, against the claim as stated.  One pass of the outer loop on
    [f(x) = x^2] from [x = 1]: the line search evaluates the closure at
    [0.5] and its loss [0.25] is accepted, the parameters move there, and
    [step] returns [1], the loss at entry. *)
Lemma step_returns_stale_loss :
  exists r,
    step linalg_1 quadratic (options 1 0.75 "OBS") empty_state [1] = Ok r
    /\ events r = [LineSearch 1 [-0.5] 1 [2] (-1); AddGrad 1 [-0.5];
                   UpdateSY [-0.5] [-1] 0.25; UpdateRadius (-6)]
    /\ params_after r = [0.5]
    /\ last_loss r = 0.25
    /\ returned r = 1
    /\ returned r <> last_loss r.
Proof.
  eexists. split; [vm_compute; reflexivity|].
  repeat (split; [reflexivity|]). simpl.
  intros H. apply (f_equal (fun x => x <? 1)) in H.
  vm_compute in H. discriminate.
Qed.

(** A memory of size two that is offered three pairs, from empty. *)
Lemma update_SY_fifo_bounded_witness :
  exists old_s old_y,
    offer_all 2 three_offers [] [] = Ok (old_s, old_y)
    /\ length old_s = length old_y
    /\ (Z.of_nat (length old_s) <= 2)%Z.
Proof.
  apply (@update_SY_fifo_bounded float _ 2 three_offers [] []).
  - reflexivity.
  - split; [reflexivity|]. simpl. lia.
Defined.

(** The run of the witness: the first pair has been dropped. *)
Lemma offer_all_three :
  offer_all 2 three_offers [] [] = Ok ([[2]; [3]], [[1]; [1]]).
Proof. vm_compute. reflexivity. Qed.

(** C4, the code at the failing input.  With [gamma = 1], [P = [[1]]] and
    the gradient [1], radius [8]: for [lamb = 1] the call of step 14 gives
    [tau = 1/8] (curvature [1]) where [B = 2] gives [tau = 1/16]; for
    [lamb = -1/2] it finds no positive curvature and goes to the boundary,
    where [B = 1/2] gives [tau = 1/4]. *)
Theorem cauchy_curvature_without_gamma :
  cauchy_as_called [[1]] [1] [1] 8 = [-1]
  /\ cauchy_point_claimed 1 [[1]] [1] [1] 8 = [-0.5]
  /\ cauchy_as_called [[1]] [-0.5] [1] 8 = [-8]
  /\ cauchy_point_claimed 1 [[1]] [-0.5] [1] 8 = [-2].
Proof. repeat split; vm_compute; reflexivity. Qed.

(** C5, the code at the failing input.  The first pass of the CG loop on
    [B = diag(1, 7)] from the gradient [(1, 1)]: the residual becomes
    [(0.75, -0.75)], [beta = 0.5625], and the new direction is the residual
    negated plus the number [beta * (d . d) = 1.125] in every entry, where
    the rule of conjugate gradients gives [- r + beta d]. *)
Theorem steihaug_direction_update :
  steihaug_body (row_scale [1; 7] [[1; 0]; [0; 1]])
                (transpose [[1; 0]; [0; 1]]) 10
                (pymin (dec 5 (-1)) (fsqrt (norm [1; 1])) * norm [1; 1])%sc
                [0; 0] [1; 1] [-1; -1]
  = CgNext [-0.25; -0.25] [0.75; -0.75] [0.375; 1.875]
  /\ cg_direction_rule [0.75; -0.75] [1; 1] [-1; -1] = [-1.3125; 0.1875].
Proof. split; vm_compute; reflexivity. Qed.

(** A solver name that is none of the three. *)
Lemma unknown_solver_name_not_reported_witness :
  solve_dispatch linalg_1 (options 2 0.25 "Newton") [[1]] [[1]] [[1]] [1] 1
                 [[1]] [1] 1 (Some [5])
  = Ok (Some [5]).
Proof.
  apply (proj1 (@unknown_solver_name_not_reported float _ linalg_1
                  (options 2 0.25 "Newton") eq_refl eq_refl eq_refl)).
Defined.

(** The failing input of the claim on solver names.  Two passes of the outer loop with
    the solver name ["Newton"]: nothing is raised, and the second line
    search runs along the direction of the first pass, blended with the
    momentum and negated. *)
Theorem unknown_solver_step_runs :
  exists r,
    step linalg_1 quadratic (options 2 0.25 "Newton") empty_state [1] = Ok r
    /\ line_searches (events r)
       = [LineSearch 1 [-1.5] 1 [2] (-3); LineSearch 1 [1.5] 0.25 [-1] 1.5].
Proof. eexists. split; vm_compute; reflexivity. Qed.

(** C7, the code at the failing input.  The first pass on a fresh state is
    a restart iteration, the gradient is [2], and the line search is
    started at [lr = 1]; the branch that would start it at
    [min(1, 1/|g|_1) * lr = 0.5] tests [state['restart']] after it has been
    set to [0]. *)
Theorem restart_initial_step :
  exists r,
    step linalg_1 quadratic (options 1 0.75 "OBS") empty_state [1] = Ok r
    /\ line_searches (events r) = [LineSearch 1 [-0.5] 1 [2] (-1)]
    /\ (pymin f1 (f1 / vsum (vabs [2])) * lr (options 1 0.75 "OBS"))%sc = 0.5.
Proof. eexists. split; [|split]; vm_compute; reflexivity. Qed.

(** C8, against the claim as stated.  The line search returns the loss
    minus infinity with the step length [1] and a gradient of norm [0.5]:
    the iteration is not rejected.  The step is taken, the pair is offered
    to the memory, [update_radius] is called, and [state['restart']] stays
    [0]. *)
Lemma minus_infinity_not_rejected :
  strong_wolfe (directional_evaluate cliff) [3] [-0.25] 3 [1] (-0.25) 1
  = Ok (neg_infinity, [0.5], 1, 1%nat)
  /\ exists r,
       step linalg_1 cliff (options 1 0.75 "OBS") empty_state [3] = Ok r
       /\ events r = [LineSearch 1 [-0.25] 3 [1] (-0.25); AddGrad 1 [-0.25];
                      UpdateSY [-0.25] [-0.5] 0.0625; UpdateRadius nan]
       /\ last_loss r = neg_infinity
       /\ st_restart (state_after r) = Some 0%Z
       /\ st_old_s (state_after r) = Some [[-0.25]].
Proof.
  split; [vm_compute; reflexivity|].
  eexists. split; [vm_compute; reflexivity|].
  repeat split; reflexivity.
Qed.

(** A line search that returns. *)
Lemma line_search_rejection_witness :
  advance_line_search cliff (options 1 0.75 "OBS") "strong_wolfe"
                      cliff_locals [-0.25] 1 (-0.25) 0.0625 0.0625 3
  = Stop (set_restart 1
            (emit (LineSearch 1 [-0.25] 3 [1] (-0.25)) cliff_locals))
  <-> ls_out_of_range neg_infinity [0.5] 1 = true.
Proof.
  apply (@line_search_rejection float _ cliff (options 1 0.75 "OBS")
           cliff_locals [-0.25] 1 (-0.25) 0.0625 0.0625 3 neg_infinity [0.5]
           1 1%nat).
  vm_compute. reflexivity.
Defined.

(** C9, against the claim as stated.  The first call of [step] at the
    minimum of [f(x) = x^2]: the state was empty and now holds the key
    [restart]. *)
Lemma first_call_creates_restart :
  (abs_max (snd (quadratic [0])) <=? tolerance_grad (options 1 0.75 "OBS"))%sc
  = true
  /\ exists r,
       step linalg_1 quadratic (options 1 0.75 "OBS") empty_state [0] = Ok r
       /\ st_restart (state_after r) = Some 1%Z
       /\ state_after r <> empty_state.
Proof.
  split; [reflexivity|].
  eexists. split; [vm_compute; reflexivity|].
  split; [reflexivity|]. discriminate.
Qed.

(** The same call, read off the theorem. *)
Lemma step_converged_at_entry_witness :
  exists r,
    step linalg_1 quadratic (options 1 0.75 "OBS") empty_state [0] = Ok r
    /\ returned r = fst (quadratic [0])
    /\ params_after r = [0]
    /\ events r = [].
Proof.
  assert (Hopt : (abs_max (snd (quadratic [0]))
                  <=? tolerance_grad (options 1 0.75 "OBS"))%sc = true)
    by reflexivity.
  destruct (@step_converged_at_entry float _ linalg_1 quadratic
              (options 1 0.75 "OBS") empty_state [0] Hopt)
    as (r & Hr & Hret & Hp & Hev & _).
  exists r. repeat split; assumption.
Defined.

(** A call of [step] that returns. *)
Lemma step_returns_entry_loss_witness :
  exists r,
    step linalg_1 quadratic (options 1 0.75 "OBS") empty_state [1] = Ok r
    /\ returned r = fst (quadratic [1]).
Proof.
  assert (H : exists r, step linalg_1 quadratic (options 1 0.75 "OBS")
                             empty_state [1] = Ok r)
    by (eexists; vm_compute; reflexivity).
  destruct H as [r Hr]. exists r. split; [exact Hr|].
  apply (@step_returns_entry_loss float _ linalg_1 quadratic
           (options 1 0.75 "OBS") empty_state [1] r Hr).
Defined.

(** C10 at work.  Two passes on [f(x) = x^2] from [x = 1] with [nu = 0.25]
    and the Cauchy solver: the first step overshoots to [-0.5], the
    momentum outweighs the Cauchy point in the second pass, the blended
    direction [d0] of that pass points uphill ([g . d0 > 0]) and is
    negated, and the line search is called with [-d0] and the positive
    [g . d0]. *)
Lemma line_search_gtd_before_negation_witness :
  exists (l l1 : locals (F:=float)) (d0 : fvec),
    In l (passes linalg_1 quadratic
                 (options 2 0.25 "Cauchy_Point_Calculation")
                 (max_iter (options 2 0.25 "Cauchy_Point_Calculation"))
                 (load (options 2 0.25 "Cauchy_Point_Calculation")
                       (setdefault_restart empty_state) [1]
                       (fst (quadratic [1])) (snd (quadratic [1]))))
    /\ blended linalg_1 (options 2 0.25 "Cauchy_Point_Calculation") l
       = Some (l1, d0)
    /\ [-1] = flat_grad l1
    /\ 0x1.555555555554p-7 = dot [-1] d0
    /\ [0x1.555555555554p-7]
       = (if (0x1.555555555554p-7 >? f0)%sc then vneg d0 else d0)
    /\ ((0x1.555555555554p-7 >? f0)%sc = true ->
        [0x1.555555555554p-7] = vneg d0 /\ (dot [-1] d0 >? f0)%sc = true).
Proof.
  eapply (@line_search_gtd_before_negation float _ linalg_1 quadratic
            (options 2 0.25 "Cauchy_Point_Calculation") empty_state [1]
            _ 1 [0x1.555555555554p-7] 0.25 [-1] 0x1.555555555554p-7).
  - vm_compute. reflexivity.
  - vm_compute. do 4 right. left. reflexivity.
Defined.

End Runs.

(* ================================================================= *)
(** ** The curvature memory is a queue *)

Section MemoryQueue.

Context {F : Type} {SF : Scalar F}.
Local Open Scope sc_scope.

Lemma lastn_short {A} (n : nat) (l : list A) :
  (length l <= n)%nat -> lastn n l = l.
Proof.
  intros H. unfold lastn. replace (length l - n)%nat with 0%nat by lia.
  reflexivity.
Qed.

Lemma length_lastn {A} (n : nat) (l : list A) :
  length (lastn n l) = Nat.min n (length l).
Proof. unfold lastn. rewrite length_skipn. lia. Qed.

Lemma skipn_S_tl {A} (k : nat) (l : list A) : skipn (S k) l = tl (skipn k l).
Proof.
  revert l. induction k as [|k IH]; intros [|a l]; simpl; auto.
  rewrite <- IH. reflexivity.
Qed.

Lemma lastn_snoc_full {A} (n : nat) (l : list A) (x : A) :
  (0 < n)%nat -> (n <= length l)%nat ->
  tl (lastn n l) ++ [x] = lastn n (l ++ [x]).
Proof.
  intros Hn Hl. unfold lastn. rewrite length_app. simpl.
  replace (length l + 1 - n)%nat with (S (length l - n)) by lia.
  rewrite skipn_app.
  replace (S (length l - n) - length l)%nat with 0%nat by lia. simpl.
  f_equal. symmetry. apply skipn_S_tl.
Qed.

Lemma lastn_snoc_short {A} (n : nat) (l : list A) (x : A) :
  (length l < n)%nat -> lastn n l ++ [x] = lastn n (l ++ [x]).
Proof.
  intros H. rewrite (@lastn_short A n l) by lia.
  rewrite lastn_short; [reflexivity|]. rewrite length_app. simpl. lia.
Qed.

Lemma offer_all_history (m : nat) (offers : list (vec * vec * F)) :
  (0 < m)%nat ->
  forall hs hy : list (vec (F:=F)),
  length hs = length hy ->
  offer_all (Z.of_nat m) offers (lastn m hs) (lastn m hy)
  = Ok (lastn m (hs ++ map (fun o => fst (fst o)) (filter accepted offers)),
        lastn m (hy ++ map (fun o => snd (fst o)) (filter accepted offers))).
Proof.
  intros Hm. induction offers as [|[[s y] c] rest IH]; intros hs hy Hlen.
  - simpl. now rewrite !app_nil_r.
  - cbn [offer_all filter].
    change (accepted (s, y, c)) with (dot y s + c >? dec 1 (-10)).
    destruct (dot y s + c >? dec 1 (-10)) eqn:Hacc.
    + destruct (Nat.le_gt_cases m (length hs)) as [Hfull|Hshort].
      * rewrite update_SY_evicts; try lia; try assumption.
        -- simpl. rewrite !lastn_snoc_full by lia.
           rewrite IH by (rewrite !length_app; simpl; lia).
           simpl. now rewrite <- !app_assoc.
        -- rewrite !length_lastn. lia.
        -- rewrite length_lastn. lia.
      * rewrite update_SY_appends; try assumption.
        -- simpl. rewrite !lastn_snoc_short by lia.
           rewrite IH by (rewrite !length_app; simpl; lia).
           simpl. now rewrite <- !app_assoc.
        -- rewrite length_lastn. lia.
    + rewrite update_SY_rejects by assumption. simpl. now apply IH.
Qed.

(** X1.  A memory of positive size [m], offered any sequence of pairs from
    empty, ends up holding the last [m] of the pairs that passed the test
    [y.s + cond_rest > 1e-10], in the order in which they were offered,
    with the steps in [old_s] and the gradient changes in [old_y]. *)
Theorem update_SY_keeps_latest (m : nat) (offers : list (vec * vec * F)) :
  (0 < m)%nat ->
  offer_all (Z.of_nat m) offers [] []
  = Ok (lastn m (map (fun o => fst (fst o)) (filter accepted offers)),
        lastn m (map (fun o => snd (fst o)) (filter accepted offers))).
Proof.
  intros Hm. apply (@offer_all_history m offers Hm [] []). reflexivity.
Qed.
End MemoryQueue.

(** Three offers to a memory of size two. *)
Lemma update_SY_keeps_latest_witness :
  offer_all (Z.of_nat 2) three_offers [] []
  = Ok (lastn 2 (map (fun o => fst (fst o)) (filter accepted three_offers)),
        lastn 2 (map (fun o => snd (fst o)) (filter accepted three_offers))).
Proof. apply (@update_SY_keeps_latest float _ 2 three_offers). lia. Defined.

(* ================================================================= *)
(** ** The line search *)

Section LineSearchProperties.

Context {F : Type} {SF : Scalar F}.
Local Open Scope sc_scope.

Variable obj_func : vec (F:=F) -> F -> vec (F:=F) -> F * vec (F:=F).
Variables (x d : vec (F:=F)) (f : F) (g : vec (F:=F)) (gtd : F).

Local Opaque cubic_interpolate dot abs_max pymin pymax dec max_ls.

Lemma bracket_loop_counts (left : nat) :
  forall ls_iter evals t f_new g_new gtd_new t_prev f_prev g_prev gtd_prev,
  match bracket_loop obj_func x d f gtd left ls_iter evals t f_new g_new
                     gtd_new t_prev f_prev g_prev gtd_prev with
  | BrPair _ _ i e => (ls_iter <= i < ls_iter + left /\ e + ls_iter = evals + i)%nat
  | BrDone _ _ _ i e => (ls_iter <= i < ls_iter + left /\ e + ls_iter = evals + i)%nat
  | BrMaxLs _ _ _ e => (e = evals + left)%nat
  end.
Proof.
  induction left as [|left IH]; intros; simpl.
  - lia.
  - repeat match goal with
           | |- context [if ?c then _ else _] => destruct c
           end; try lia.
    destruct (obj_func x _ d) as [f' g'].
    specialize (IH (S ls_iter) (S evals)
                   (cubic_interpolate t_prev f_prev gtd_prev t f_new gtd_new
                      (Some (t + dec 1 (-2) * (t - t_prev), t * fofZ 10)))
                   f' g' (dot g' d) t f_new g_new gtd_new).
    destruct (bracket_loop _ _ _ _ _ _ _ _ _ _ _ _ _ _ _ _); lia.
Qed.

Lemma zoom_loop_counts (left : nat) (d_norm : F) :
  forall z,
  (z_evals z <= z_evals (zoom_loop obj_func x d f gtd left d_norm z)
   <= z_evals z + left)%nat.
Proof.
  induction left as [|left IH]; intros z; simpl.
  - lia.
  - destruct (_ <? ls_tolerance_change); [lia|].
    match goal with
    | |- context [let '(t, insuf) := ?e in _] => destruct e as [t insuf]
    end.
    destruct (obj_func x t d) as [f' g'].
    repeat match goal with
           | |- context [if ?c then _ else _] => destruct c
           end;
      try match goal with
          | |- context [zoom_loop _ _ _ _ _ _ _ ?z'] =>
              specialize (IH z'); revert IH
          end;
      unfold set_low, set_high;
      repeat match goal with
             | |- context [if ?c then _ else _] => destruct c
             end; simpl; intros; lia.
Qed.

(** X2.  A line search that returns has evaluated the objective at least
    once and at most [max_ls + 1 = 26] times, and reports that number. *)
Theorem strong_wolfe_evaluations (t : F) f' g' t' evals :
  strong_wolfe obj_func x d f g gtd t = Ok (f', g', t', evals) ->
  (1 <= evals <= max_ls + 1)%nat.
Proof.
  unfold strong_wolfe. destruct (obj_func x t d) as [f_new g_new].
  pose proof (bracket_loop_counts max_ls 0 1 t f_new g_new (dot g_new d)
                f0 f g gtd) as Hb.
  destruct (bracket_loop _ _ _ _ _ _ _ _ _ _ _ _ _ _ _ _)
    as [p0 p1 i e|t1 f1' g1 i e|t1 f1' g1 e].
  - intros H. injection H as _ _ _ <-.
    pose proof (zoom_loop_counts (max_ls - i) (abs_max d)
                  (Build_zoom_state p0 p1 (negb (b_f p0 <=? b_f p1)) false e))
      as Hz.
    cbn [z_evals] in Hz. lia.
  - destruct (f1' <=? f1'); [|discriminate].
    intros H. injection H as _ _ _ <-. lia.
  - destruct (f <=? f1'); intros H; injection H as _ _ _ <-; lia.
Qed.

Lemma bracket_loop_sampled (left : nat) :
  forall ls_iter evals t f_new g_new gtd_new t_prev f_prev g_prev gtd_prev,
  sampled obj_func x d f g (Build_bpoint t_prev f_prev g_prev gtd_prev) ->
  (f_new, g_new) = obj_func x t d ->
  match bracket_loop obj_func x d f gtd left ls_iter evals t f_new g_new
                     gtd_new t_prev f_prev g_prev gtd_prev with
  | BrPair p0 p1 _ _ => sampled obj_func x d f g p0 /\ sampled obj_func x d f g p1
  | BrDone t' f' g' _ _ => (f', g') = obj_func x t' d
  | BrMaxLs t' f' g' _ => (f', g') = obj_func x t' d
  end.
Proof.
  induction left as [|left IH]; intros until gtd_prev; intros Hprev Hnew;
    simpl.
  - assumption.
  - assert (Hcur : sampled obj_func x d f g (Build_bpoint t f_new g_new gtd_new))
      by (right; exact Hnew).
    repeat match goal with
           | |- context [if ?c then _ else _] => destruct c
           end; auto.
    match goal with
    | |- context [obj_func x (cubic_interpolate ?a ?b ?c ?e ?h ?i ?j) d] =>
        destruct (obj_func x (cubic_interpolate a b c e h i j) d)
          as [f' g'] eqn:Hobj
    end.
    apply IH; [exact Hcur|]. now rewrite Hobj.
Qed.

Lemma zoom_loop_sampled (left : nat) (d_norm : F) :
  forall z,
  sampled obj_func x d f g (z_b0 z) -> sampled obj_func x d f g (z_b1 z) ->
  sampled obj_func x d f g (z_b0 (zoom_loop obj_func x d f gtd left d_norm z))
  /\ sampled obj_func x d f g (z_b1 (zoom_loop obj_func x d f gtd left d_norm z)).
Proof.
  induction left as [|left IH]; intros z H0 H1; simpl.
  - now split.
  - destruct (_ <? ls_tolerance_change); [now split|].
    match goal with
    | |- context [let '(t, insuf) := ?e in _] => destruct e as [t insuf]
    end.
    destruct (obj_func x t d) as [f' g'] eqn:Hobj.
    assert (Hp : sampled obj_func x d f g (Build_bpoint t f' g' (dot g' d)))
      by (right; simpl; now rewrite Hobj).
    destruct z as [b0 b1 low1 insuf0 ev]. simpl in H0, H1.
    unfold set_low, set_high, z_low, z_high; simpl.
    repeat match goal with
           | |- context [if ?c then _ else _] => destruct c; simpl
           end;
      try (apply IH; simpl; assumption);
      split; assumption.
Qed.

(** X3.  What a line search returns is what the objective gave at the
    step length it returns: the loss and the gradient are those of
    [obj_func(x, t, d)] for the returned [t], unless the returned step
    length is zero and they are the [f] and [g] the caller passed in. *)
Theorem strong_wolfe_returns_sample (t : F) f' g' t' evals :
  strong_wolfe obj_func x d f g gtd t = Ok (f', g', t', evals) ->
  (t' = f0 /\ f' = f /\ g' = g) \/ (f', g') = obj_func x t' d.
Proof.
  unfold strong_wolfe. destruct (obj_func x t d) as [f_new g_new] eqn:Hobj.
  assert (Hinit : sampled obj_func x d f g (Build_bpoint f0 f g gtd))
    by (left; repeat split).
  pose proof (@bracket_loop_sampled max_ls 0 1 t f_new g_new (dot g_new d)
                f0 f g gtd Hinit (eq_sym Hobj)) as Hb.
  destruct (bracket_loop _ _ _ _ _ _ _ _ _ _ _ _ _ _ _ _)
    as [p0 p1 i e|t1 f1' g1 i e|t1 f1' g1 e].
  - destruct Hb as [H0 H1]. intros H.
    match type of H with
    | context [zoom_loop _ _ _ _ _ ?l ?n ?z] =>
        destruct (@zoom_loop_sampled l n z H0 H1) as [Hz0 Hz1];
        destruct (zoom_loop obj_func x d f gtd l n z) as [b0 b1 low1 ins ev]
    end.
    unfold z_low in H. simpl in *.
    destruct low1; injection H as <- <- <- _; assumption.
  - destruct (f1' <=? f1'); [|discriminate].
    intros H. injection H as <- <- <- _. now right.
  - destruct (f <=? f1'); intros H; injection H as <- <- <- _.
    + left. repeat split.
    + now right.
Qed.
Local Transparent cubic_interpolate dot abs_max pymin pymax dec max_ls.

End LineSearchProperties.

(* ================================================================= *)
(** ** Invariants of the outer loop *)

Section LoopInvariants.

Context {F : Type} {SF : Scalar F}.
Local Open Scope sc_scope.

Variable la : Linalg (F:=F).
Variable closure : vec (F:=F) -> F * vec (F:=F).
Variable cfg : config (F:=F).

Local Opaque strong_wolfe solve_dispatch calculate_M calculate_hess solve_mat
  update_SY update_radius blend quad_form abs_max norm dot pymin pymax
  pymin_list vsum vscale vadd vsub vneg transpose eye dec ls_rejected
  String.eqb last hd tl cabs linalg_eig row_scale.

Ltac step_match :=
  match goal with
  | |- context [match ?x with _ => _ end] =>
      lazymatch x with
      | context [match _ with _ => _ end] => fail
      | _ => destruct x eqn:?
      end
  end.

Ltac flow_inv :=
  repeat match goal with
  | H : Go _ = Go _ |- _ => inversion H; subst; clear H
  | H : Stop _ = Stop _ |- _ => inversion H; subst; clear H
  | H : Go _ = Stop _ |- _ => discriminate H
  | H : Stop _ = Go _ |- _ => discriminate H
  | H : Fail _ = _ |- _ => discriminate H
  | H : _ \/ _ |- _ => destruct H
  end.

Ltac flow_cases := repeat (step_match; simpl); intros; flow_inv; simpl.

Lemma moved_refl l : moved l l.
Proof. exists []. split; [now rewrite app_nil_r|reflexivity]. Qed.

Lemma moved_trans l1 l2 l3 : moved l1 l2 -> moved l2 l3 -> moved l1 l3.
Proof.
  intros (e1 & Ht1 & Hp1) (e2 & Ht2 & Hp2). exists (e1 ++ e2). split.
  - now rewrite Ht2, Ht1, app_assoc.
  - rewrite Hp2, Hp1. unfold replay. now rewrite fold_left_app.
Qed.

Lemma finish_moved l dw a c dHd pl l' :
  finish cfg l dw a c dHd pl = Go l' \/ finish cfg l dw a c dHd pl = Stop l' ->
  moved l l' /\ loss l' = loss l /\ flat_grad l' = flat_grad l
  /\ params l' = params l.
Proof.
  unfold finish, fbind, need, lift, moved. flow_cases.
  all: repeat split; try reflexivity.
  all: rewrite <- ?app_assoc; eexists; split; reflexivity.
Qed.

Lemma finish_Go_restart l dw a c dHd pl l' :
  finish cfg l dw a c dHd pl = Go l' ->
  restart l' = restart l /\ n_iter l' = n_iter l
  /\ n_iter l' <> max_iter cfg.
Proof.
  unfold finish, fbind, need, lift. flow_cases.
  repeat split. now apply Nat.eqb_neq.
Qed.

Ltac solve_moved :=
  unfold moved in *;
  repeat match goal with
         | H : exists _, _ |- _ => destruct H as (? & ? & ?)
         end;
  unfold replay in *; simpl in *; rewrite <- ?app_assoc in *; simpl in *;
  eexists; split;
  [ first [eassumption | reflexivity | now rewrite app_nil_r]
  | rewrite ?fold_left_app; simpl; first [eassumption | reflexivity] ].

Lemma advance_fixed_moved l dw a c dHd pl l' :
  advance_fixed closure cfg l dw a c dHd pl = Go l'
  \/ advance_fixed closure cfg l dw a c dHd pl = Stop l' ->
  moved l l'.
Proof.
  unfold advance_fixed.
  repeat (step_match; simpl); intros H;
    try (apply finish_moved in H; destruct H as (H & _));
    flow_inv; solve_moved.
Qed.

Lemma advance_line_search_moved name l dw a gtd c dHd pl l' :
  advance_line_search closure cfg name l dw a gtd c dHd pl = Go l'
  \/ advance_line_search closure cfg name l dw a gtd c dHd pl = Stop l' ->
  moved l l'.
Proof.
  unfold advance_line_search, fbind, lift.
  repeat (step_match; simpl); intros H;
    try (apply finish_moved in H; destruct H as (H & _));
    flow_inv; solve_moved.
Qed.

Lemma direction_point l l1 hess gamma :
  direction la cfg l = Go (l1, hess, gamma) ->
  trace l1 = trace l /\ params l1 = params l /\ loss l1 = loss l
  /\ flat_grad l1 = flat_grad l /\ n_iter l1 = n_iter l.
Proof.
  unfold direction, fbind, need, lift. flow_cases; repeat split.
Qed.

Lemma direction_Stop_point l l1 :
  direction la cfg l = Stop l1 ->
  trace l1 = trace l /\ params l1 = params l /\ loss l1 = loss l
  /\ flat_grad l1 = flat_grad l.
Proof.
  unfold direction, fbind, need, lift. flow_cases; repeat split.
Qed.

Lemma iteration_moved l l' :
  iteration la closure cfg l = Go l' \/ iteration la closure cfg l = Stop l' ->
  moved l l'.
Proof.
  unfold iteration, fbind.
  destruct (direction la cfg _) as [[[l1 hess] gamma]|l1|e] eqn:Hdir.
  - apply direction_point in Hdir. simpl in Hdir.
    destruct Hdir as (Htr & Hp & _).
    unfold need.
    destruct (v l1) as [vv|]; [|intros; flow_inv].
    destruct (s l1) as [sv|]; [|intros; flow_inv].
    destruct (delta_w l1) as [dw|]; [|intros; flow_inv].
    destruct (blend cfg _ _ _ _ _) as [vv' dw'].
    step_match; simpl.
    + intros; flow_inv; simpl. exists []. simpl.
      split; [now rewrite app_nil_r|exact Hp].
    + destruct (line_search_fn cfg) as [name|]; intros H.
      * apply advance_line_search_moved in H.
        destruct H as (evs & Ht & Hpp). simpl in Ht, Hpp.
        exists evs. rewrite Ht, Hpp, Htr, Hp. now split.
      * apply advance_fixed_moved in H.
        destruct H as (evs & Ht & Hpp). simpl in Ht, Hpp.
        exists evs. rewrite Ht, Hpp, Htr, Hp. now split.
  - intros; flow_inv. apply direction_Stop_point in Hdir. simpl in Hdir.
    destruct Hdir as (Htr & Hp & _). exists []. simpl.
    split; [now rewrite app_nil_r|exact Hp].
  - intros; flow_inv.
Qed.

Lemma outer_loop_moved left l l' :
  outer_loop la closure cfg left l = Ok l' -> moved l l'.
Proof.
  revert l. induction left as [|left IH]; intros l; simpl.
  - intros H. injection H as <-. apply moved_refl.
  - destruct (n_iter l <? max_iter cfg)%nat.
    + destruct (iteration la closure cfg l) as [l1|l1|e] eqn:Hit.
      * intros Hrun. eapply moved_trans; [|apply (IH _ Hrun)].
        apply iteration_moved. now left.
      * intros Hrun. injection Hrun as <-.
        apply iteration_moved. now right.
      * discriminate.
    + intros H. injection H as <-. apply moved_refl.
Qed.

(** X4.  When [step] returns, the parameters are the ones it was entered
    with, moved by the calls of [_add_grad] in its trace, in order, and by
    nothing else. *)
Theorem step_parameters_replay st p r :
  step la closure cfg st p = Ok r -> params_after r = replay (events r) p.
Proof.
  unfold step. destruct (closure p) as [orig_loss flat_grad0].
  destruct (abs_max flat_grad0 <=? tolerance_grad cfg).
  - intros H. injection H as <-. reflexivity.
  - destruct (outer_loop la closure cfg (max_iter cfg) _) as [l|e] eqn:Hrun;
      simpl; [|discriminate].
    intros H. injection H as <-. simpl.
    apply outer_loop_moved in Hrun. destruct Hrun as (evs & Ht & Hp).
    simpl in Ht, Hp. now rewrite Ht, Hp.
Qed.

(** *** The loss and the gradient belong to the parameters *)

Hypothesis zero_below_tolerance : (f0 <? dec 1 (-12)) = true.

Local Transparent ls_rejected.

Lemma advance_line_search_consistent name l dw a gtd c dHd pl l' :
  advance_line_search closure cfg name l dw a gtd c dHd pl = Go l'
  \/ advance_line_search closure cfg name l dw a gtd c dHd pl = Stop l' ->
  consistent closure l -> consistent closure l'.
Proof.
  unfold advance_line_search, fbind, lift.
  destruct (negb _); [intros; flow_inv|]. simpl.
  destruct (strong_wolfe _ _ _ _ _ _ _) as [[[[loss_t g_t] alpha_t] n]|e]
    eqn:Hsw; [|intros; flow_inv].
  destruct (ls_rejected loss_t g_t alpha_t) eqn:Hrej.
  { intros; flow_inv. assumption. }
  assert (Hs : (loss_t, g_t)
               = closure (vadd (params l) (vscale alpha_t dw))).
  { apply strong_wolfe_returns_sample in Hsw.
    destruct Hsw as [(Ht & _)|Hs]; [|exact Hs].
    exfalso. subst alpha_t. unfold ls_rejected in Hrej.
    rewrite zero_below_tolerance in Hrej. discriminate. }
  intros H Hc. unfold consistent.
  destruct (abs_max g_t <=? tolerance_grad cfg).
  - flow_inv. exact Hs.
  - apply finish_moved in H. destruct H as (_ & Hl & Hg & Hp).
    rewrite Hl, Hg, Hp. exact Hs.
Qed.

Local Opaque ls_rejected.

Lemma iteration_consistent l l' :
  line_search_fn cfg <> None ->
  iteration la closure cfg l = Go l' \/ iteration la closure cfg l = Stop l' ->
  consistent closure l -> consistent closure l'.
Proof.
  intros Hls. unfold iteration, fbind.
  destruct (direction la cfg _) as [[[l1 hess] gamma]|l1|e] eqn:Hdir.
  - apply direction_point in Hdir. simpl in Hdir.
    destruct Hdir as (_ & Hp & Hl & Hg & _).
    unfold need.
    destruct (v l1) as [vv|]; [|intros; flow_inv].
    destruct (s l1) as [sv|]; [|intros; flow_inv].
    destruct (delta_w l1) as [dw|]; [|intros; flow_inv].
    destruct (blend cfg _ _ _ _ _) as [vv' dw'].
    step_match; simpl.
    + intros; flow_inv. unfold consistent in *. simpl.
      now rewrite Hp, Hl, Hg.
    + destruct (line_search_fn cfg) as [name|]; [|now destruct Hls].
      intros H Hc. apply advance_line_search_consistent in H; [exact H|].
      unfold consistent in *. simpl. now rewrite Hp, Hl, Hg.
  - intros; flow_inv. apply direction_Stop_point in Hdir. simpl in Hdir.
    destruct Hdir as (_ & Hp & Hl & Hg). unfold consistent in *.
    now rewrite Hp, Hl, Hg.
  - intros; flow_inv.
Qed.

Lemma outer_loop_consistent left l l' :
  line_search_fn cfg <> None ->
  outer_loop la closure cfg left l = Ok l' -> consistent closure l -> consistent closure l'.
Proof.
  intros Hls. revert l. induction left as [|left IH]; intros l; simpl.
  - intros H. now injection H as <-.
  - destruct (n_iter l <? max_iter cfg)%nat.
    + destruct (iteration la closure cfg l) as [l1|l1|e] eqn:Hit.
      * intros Hrun Hc. apply (IH _ Hrun).
        apply (@iteration_consistent l l1 Hls (or_introl Hit) Hc).
      * intros Hrun Hc. injection Hrun as <-.
        apply (@iteration_consistent l l1 Hls (or_intror Hit) Hc).
      * discriminate.
    + intros H. now injection H as <-.
Qed.

(** X5.  With a line search configured, when [step] returns, the loss it
    ends with is the loss of the closure at the parameters it leaves, and
    unless it returned at entry, the gradient it stores under
    [prev_flat_grad] is the gradient of the closure there.  (The
    hypothesis on the scalars says that zero is below [1e-12], so that a
    line search that returns the step length zero is rejected.) *)
Theorem step_loss_belongs_to_parameters st p r :
  line_search_fn cfg <> None ->
  step la closure cfg st p = Ok r ->
  last_loss r = fst (closure (params_after r))
  /\ ((abs_max (snd (closure p)) <=? tolerance_grad cfg) = false ->
      st_prev_flat_grad (state_after r)
      = Some (snd (closure (params_after r)))).
Proof.
  intros Hls. unfold step. destruct (closure p) as [orig_loss flat_grad0] eqn:Hcl.
  simpl. destruct (abs_max flat_grad0 <=? tolerance_grad cfg).
  - intros H. injection H as <-. simpl. rewrite Hcl. split; [reflexivity|].
    discriminate.
  - destruct (outer_loop la closure cfg (max_iter cfg) _) as [l|e] eqn:Hrun;
      simpl; [|discriminate].
    intros H. injection H as <-. simpl.
    apply outer_loop_consistent in Hrun; [|exact Hls|].
    + unfold consistent in Hrun. rewrite <- Hrun. split; reflexivity.
    + unfold consistent. simpl. now rewrite Hcl.
Qed.

(** *** How often the line search is called *)

Lemma outer_loop_line_search_count left l l' :
  outer_loop la closure cfg left l = Ok l' ->
  (length (line_searches (trace l'))
   <= length (line_searches (trace l)) + left)%nat.
Proof.
  revert l. induction left as [|left IH]; intros l; simpl.
  - intros H. injection H as <-. lia.
  - destruct (n_iter l <? max_iter cfg)%nat.
    + destruct (iteration la closure cfg l) as [l1|l1|e] eqn:Hit.
      * intros Hrun. specialize (IH _ Hrun).
        destruct (@iteration_line_searches _ _ la closure cfg l l1
                    (or_introl Hit)) as [H|[d0 H]];
          rewrite H in IH; rewrite ?length_app in IH; simpl in IH; lia.
      * intros Hrun. injection Hrun as <-.
        destruct (@iteration_line_searches _ _ la closure cfg l l1
                    (or_intror Hit)) as [H|[d0 H]];
          rewrite H; rewrite ?length_app; simpl; lia.
      * discriminate.
    + intros H. injection H as <-. lia.
Qed.

(** X6.  A call of [step] runs the line search at most [max_iter]
    times. *)
Theorem step_line_search_count st p r :
  step la closure cfg st p = Ok r ->
  (length (line_searches (events r)) <= max_iter cfg)%nat.
Proof.
  unfold step. destruct (closure p) as [orig_loss flat_grad0].
  destruct (abs_max flat_grad0 <=? tolerance_grad cfg).
  - intros H. injection H as <-. simpl. lia.
  - destruct (outer_loop la closure cfg (max_iter cfg) _) as [l|e] eqn:Hrun;
      simpl; [|discriminate].
    intros H. injection H as <-. simpl.
    apply outer_loop_line_search_count in Hrun. simpl in Hrun. lia.
Qed.

(** *** An unsupported line search *)

Lemma iteration_unsupported_line_search name l :
  line_search_fn cfg = Some name ->
  String.eqb name "strong_wolfe" = false ->
  match iteration la closure cfg l with
  | Go _ => False
  | Stop l' => trace l' = trace l /\ params l' = params l /\ loss l' = loss l
  | Fail _ => True
  end.
Proof.
  intros Hls Hname. unfold iteration, fbind.
  destruct (direction la cfg _) as [[[l1 hess] gamma]|l1|e] eqn:Hdir;
    [| |exact I].
  - apply direction_point in Hdir. simpl in Hdir.
    destruct Hdir as (Htr & Hp & Hl & _).
    unfold need.
    destruct (v l1) as [vv|]; [|exact I].
    destruct (s l1) as [sv|]; [|exact I].
    destruct (delta_w l1) as [dw|]; [|exact I].
    destruct (blend cfg _ _ _ _ _) as [vv' dw'].
    step_match; simpl.
    + now repeat split.
    + rewrite Hls. unfold advance_line_search. now rewrite Hname.
  - apply direction_Stop_point in Hdir. simpl in Hdir.
    destruct Hdir as (Htr & Hp & Hl & _). now repeat split.
Qed.

(** X7.  With a line search other than ['strong_wolfe'] configured, a
    call of [step] that returns has called nothing and moved nothing: it
    has returned at entry, or left the loop before the gradient step, and
    any pass that reaches the gradient step raises [RuntimeError]. *)
Theorem unsupported_line_search_never_moves name st p r :
  line_search_fn cfg = Some name ->
  String.eqb name "strong_wolfe" = false ->
  step la closure cfg st p = Ok r ->
  events r = [] /\ params_after r = p /\ last_loss r = fst (closure p).
Proof.
  intros Hls Hname. unfold step.
  destruct (closure p) as [orig_loss flat_grad0]. simpl.
  destruct (abs_max flat_grad0 <=? tolerance_grad cfg).
  - intros H. injection H as <-. repeat split.
  - destruct (max_iter cfg) as [|k] eqn:Hk; simpl.
    + intros H. injection H as <-. repeat split.
    + rewrite Hk. simpl.
      pose proof (@iteration_unsupported_line_search name
                    (load cfg (setdefault_restart st) p orig_loss flat_grad0)
                    Hls Hname) as Hit.
      destruct (iteration la closure cfg _) as [l1|l1|e];
        [destruct Hit| |discriminate].
      destruct Hit as (Htr & Hp & Hl). simpl in Htr, Hp, Hl.
      intros H. injection H as <-. simpl. now repeat split.
Qed.

(** *** A restart ends the call *)

Lemma advance_fixed_Go l dw a c dHd pl l' :
  advance_fixed closure cfg l dw a c dHd pl = Go l' ->
  restart l' = restart l /\ n_iter l' = n_iter l
  /\ n_iter l' <> max_iter cfg.
Proof.
  unfold advance_fixed.
  repeat (step_match; simpl); intros H;
    try (apply finish_Go_restart in H; simpl in H; exact H);
    flow_inv.
Qed.

Lemma advance_line_search_Go name l dw a gtd c dHd pl l' :
  advance_line_search closure cfg name l dw a gtd c dHd pl = Go l' ->
  restart l' = restart l /\ n_iter l' = n_iter l
  /\ n_iter l' <> max_iter cfg.
Proof.
  unfold advance_line_search, fbind, lift.
  repeat (step_match; simpl); intros H;
    try (apply finish_Go_restart in H; simpl in H; exact H);
    flow_inv.
Qed.

(** X8.  The outer loop goes on to another pass only without a pending
    restart and below [max_iter]: every assignment of [1] to
    [state['restart']] is followed by [break]. *)
Theorem iteration_goes_on_without_restart l l' :
  iteration la closure cfg l = Go l' ->
  restart l' <> 1%Z /\ n_iter l' = S (n_iter l)
  /\ n_iter l' <> max_iter cfg.
Proof.
  unfold iteration, fbind.
  destruct (direction la cfg _) as [[[l1 hess] gamma]|l1|e] eqn:Hdir;
    [|discriminate|discriminate].
  pose proof (@direction_Go _ _ la cfg _ _ _ _ Hdir) as (_ & _ & _ & Hr).
  apply direction_point in Hdir. simpl in Hdir.
  destruct Hdir as (_ & _ & _ & _ & Hn).
  unfold need.
  destruct (v l1) as [vv|]; [|discriminate].
  destruct (s l1) as [sv|]; [|discriminate].
  destruct (delta_w l1) as [dw|]; [|discriminate].
  destruct (blend cfg _ _ _ _ _) as [vv' dw'].
  step_match; simpl; [discriminate|].
  destruct (line_search_fn cfg) as [name|]; intros H.
  - apply advance_line_search_Go in H. simpl in H.
    destruct H as (H1 & H2 & H3).
    repeat split; [now rewrite H1|now rewrite H2, Hn|exact H3].
  - apply advance_fixed_Go in H. simpl in H.
    destruct H as (H1 & H2 & H3).
    repeat split; [now rewrite H1|now rewrite H2, Hn|exact H3].
Qed.
Hypothesis memory_size_positive : (0 < memory_size cfg)%Z.

Ltac solve_memory :=
  match goal with
  | Hm : memory_ok _ (Some ?a) (Some ?b),
    Hu : update_SY _ ?sv ?yv ?a ?b ?c = Ok (_, _) |- _ =>
      let H := fresh in
      destruct (@update_SY_keeps_store_ok _ _ (memory_size cfg) sv yv a b c
                  memory_size_positive (Hm a b eq_refl eq_refl))
        as (? & ? & H & ?);
      rewrite H in Hu; injection Hu as <- <-;
      intros ? ? [= <-] [= <-]; assumption
  end.

Lemma finish_memory l dw a c dHd pl l' :
  memory_ok (memory_size cfg) (old_s l) (old_y l) ->
  finish cfg l dw a c dHd pl = Go l' \/ finish cfg l dw a c dHd pl = Stop l' ->
  memory_ok (memory_size cfg) (old_s l') (old_y l').
Proof.
  intros Hm. unfold finish, fbind, need, lift. flow_cases.
  all: solve_memory.
Qed.

Lemma advance_fixed_memory l dw a c dHd pl l' :
  memory_ok (memory_size cfg) (old_s l) (old_y l) ->
  advance_fixed closure cfg l dw a c dHd pl = Go l'
  \/ advance_fixed closure cfg l dw a c dHd pl = Stop l' ->
  memory_ok (memory_size cfg) (old_s l') (old_y l').
Proof.
  intros Hm. unfold advance_fixed.
  repeat (step_match; simpl); intros H;
    try (apply finish_memory in H; [exact H|exact Hm]);
    flow_inv; exact Hm.
Qed.

Lemma advance_line_search_memory name l dw a gtd c dHd pl l' :
  memory_ok (memory_size cfg) (old_s l) (old_y l) ->
  advance_line_search closure cfg name l dw a gtd c dHd pl = Go l'
  \/ advance_line_search closure cfg name l dw a gtd c dHd pl = Stop l' ->
  memory_ok (memory_size cfg) (old_s l') (old_y l').
Proof.
  intros Hm. unfold advance_line_search, fbind, lift.
  repeat (step_match; simpl); intros H;
    try (apply finish_memory in H; [exact H|exact Hm]);
    flow_inv; exact Hm.
Qed.

Lemma memory_ok_empty :
  memory_ok (F:=F) (memory_size cfg) (Some []) (Some []).
Proof.
  intros a b [= <-] [= <-]. split; [reflexivity|simpl; lia].
Qed.

Lemma direction_memory l l1 hess gamma :
  memory_ok (memory_size cfg) (old_s l) (old_y l) ->
  direction la cfg l = Go (l1, hess, gamma) ->
  memory_ok (memory_size cfg) (old_s l1) (old_y l1).
Proof.
  intros Hm. unfold direction, fbind, need, lift. flow_cases;
    first [apply memory_ok_empty | exact Hm | idtac].
  all: intros x y Hx Hy; apply Hm; congruence.
Qed.

Lemma direction_Stop_memory l l1 :
  memory_ok (memory_size cfg) (old_s l) (old_y l) ->
  direction la cfg l = Stop l1 ->
  memory_ok (memory_size cfg) (old_s l1) (old_y l1).
Proof.
  intros Hm. unfold direction, fbind, need, lift. flow_cases;
    first [apply memory_ok_empty | exact Hm | idtac].
  all: intros x y Hx Hy; apply Hm; congruence.
Qed.

Lemma iteration_memory l l' :
  memory_ok (memory_size cfg) (old_s l) (old_y l) ->
  iteration la closure cfg l = Go l' \/ iteration la closure cfg l = Stop l' ->
  memory_ok (memory_size cfg) (old_s l') (old_y l').
Proof.
  intros Hm. unfold iteration, fbind.
  destruct (direction la cfg _) as [[[l1 hess] gamma]|l1|e] eqn:Hdir.
  - apply direction_memory in Hdir; [|exact Hm].
    unfold need.
    destruct (v l1) as [vv|]; [|intros; flow_inv].
    destruct (s l1) as [sv|]; [|intros; flow_inv].
    destruct (delta_w l1) as [dw|]; [|intros; flow_inv].
    destruct (blend cfg _ _ _ _ _) as [vv' dw'].
    step_match; simpl.
    + intros; flow_inv; exact Hdir.
    + destruct (line_search_fn cfg) as [name|]; intros H.
      * apply advance_line_search_memory in H; [exact H|exact Hdir].
      * apply advance_fixed_memory in H; [exact H|exact Hdir].
  - intros; flow_inv. apply direction_Stop_memory in Hdir; assumption.
  - intros; flow_inv.
Qed.

Lemma outer_loop_memory left l l' :
  memory_ok (memory_size cfg) (old_s l) (old_y l) ->
  outer_loop la closure cfg left l = Ok l' ->
  memory_ok (memory_size cfg) (old_s l') (old_y l').
Proof.
  revert l. induction left as [|left IH]; intros l Hm; simpl.
  - intros H. injection H as <-. exact Hm.
  - destruct (n_iter l <? max_iter cfg)%nat.
    + destruct (iteration la closure cfg l) as [l1|l1|e] eqn:Hit.
      * apply IH. apply (@iteration_memory l l1 Hm). now left.
      * intros Hrun. injection Hrun as <-.
        apply (@iteration_memory l l1 Hm). now right.
      * discriminate.
    + intros H. injection H as <-. exact Hm.
Qed.

(** X20.  [step] keeps the curvature memory within its bound: for a
    positive [memory_size], when the lists [old_s] and [old_y] of the state
    are absent or have the same length, at most [memory_size], at entry,
    so they have in the state that a returning call leaves. *)
Theorem step_keeps_memory_bounded st p r :
  memory_ok (memory_size cfg) (st_old_s st) (st_old_y st) ->
  step la closure cfg st p = Ok r ->
  memory_ok (memory_size cfg) (st_old_s (state_after r))
            (st_old_y (state_after r)).
Proof.
  intros Hm. unfold step. destruct (closure p) as [orig_loss flat_grad0].
  destruct (abs_max flat_grad0 <=? tolerance_grad cfg).
  - intros H. injection H as <-. exact Hm.
  - destruct (outer_loop la closure cfg (max_iter cfg) _) as [l|e] eqn:Hrun;
      simpl; [|discriminate].
    intros H. injection H as <-. simpl.
    apply outer_loop_memory in Hrun; [exact Hrun|exact Hm].
Qed.

Local Transparent strong_wolfe solve_dispatch calculate_M calculate_hess
  solve_mat update_SY update_radius blend quad_form abs_max norm dot pymin
  pymax pymin_list vsum vscale vadd vsub vneg transpose eye dec ls_rejected
  String.eqb last hd tl cabs linalg_eig row_scale.

End LoopInvariants.

(* ================================================================= *)
(** ** More runs in binary64 *)

Section MoreRuns.

Local Open Scope float_scope.

(** A line search on [f(x) = x . x] that extrapolates. *)
Lemma strong_wolfe_evaluations_witness :
  exists f' g' t' evals,
    strong_wolfe (directional_evaluate quadratic) [3; 4]
                 [-0x1p-11; -0x1p-10] 25 [6; 8] (-0x1.4p-7) 1
    = Ok (f', g', t', evals)
    /\ (1 <= evals <= max_ls + 1)%nat.
Proof.
  destruct (strong_wolfe (directional_evaluate quadratic) [3; 4]
                         [-0x1p-11; -0x1p-10] 25 [6; 8] (-0x1.4p-7) 1)
    as [[[[f' g'] t'] evals]|e] eqn:H.
  - exists f', g', t', evals. split; [reflexivity|].
    apply (strong_wolfe_evaluations _ _ _ _ _ _ _ H).
  - vm_compute in H. discriminate.
Defined.

(** The same line search: five evaluations. *)
Lemma strong_wolfe_extrapolates :
  exists f' g' t',
    strong_wolfe (directional_evaluate quadratic) [3; 4]
                 [-0x1p-11; -0x1p-10] 25 [6; 8] (-0x1.4p-7) 1
    = Ok (f', g', t', 5%nat).
Proof. do 3 eexists. vm_compute. reflexivity. Qed.

(** A line search that zooms. *)
Lemma strong_wolfe_returns_sample_witness :
  exists f' g' t' evals,
    strong_wolfe (directional_evaluate quadratic) [1] [-3] 1 [2] (-6) 1
    = Ok (f', g', t', evals)
    /\ ((t' = f0 /\ f' = 1 /\ g' = [2])
        \/ (f', g') = directional_evaluate quadratic [1] t' [-3]).
Proof.
  destruct (strong_wolfe (directional_evaluate quadratic) [1] [-3] 1 [2]
                         (-6) 1)
    as [[[[f' g'] t'] evals]|e] eqn:H.
  - exists f', g', t', evals. split; [reflexivity|].
    apply (strong_wolfe_returns_sample _ _ _ _ _ _ _ H).
  - vm_compute in H. discriminate.
Defined.

(** A call of [step] with one pass. *)
Lemma step_parameters_replay_witness :
  exists r,
    step linalg_1 quadratic (options 1 0.75 "OBS") empty_state [1] = Ok r
    /\ params_after r = replay (events r) [1].
Proof.
  destruct (step linalg_1 quadratic (options 1 0.75 "OBS") empty_state [1])
    as [r|e] eqn:H.
  - exists r. split; [reflexivity|].
    apply (step_parameters_replay _ _ _ _ _ H).
  - vm_compute in H. discriminate.
Defined.

Lemma step_loss_belongs_to_parameters_witness :
  exists r,
    step linalg_1 quadratic (options 2 0.25 "Cauchy_Point_Calculation")
         empty_state [1] = Ok r
    /\ last_loss r = fst (quadratic (params_after r)).
Proof.
  destruct (step linalg_1 quadratic
                 (options 2 0.25 "Cauchy_Point_Calculation") empty_state [1])
    as [r|e] eqn:H.
  - exists r. split; [reflexivity|].
    assert (Hz : @fltb float float_scalar f0 (dec 1 (-12)) = true)
      by (vm_compute; reflexivity).
    assert (Hls : line_search_fn (options 2 0.25 "Cauchy_Point_Calculation")
                  <> None) by discriminate.
    apply (proj1 (step_loss_belongs_to_parameters linalg_1 quadratic _ Hz
                    empty_state [1] Hls H)).
  - vm_compute in H. discriminate.
Defined.

Lemma step_line_search_count_witness :
  exists r,
    step linalg_1 quadratic (options 2 0.25 "Cauchy_Point_Calculation")
         empty_state [1] = Ok r
    /\ (length (line_searches (events r)) <= 2)%nat.
Proof.
  destruct (step linalg_1 quadratic
                 (options 2 0.25 "Cauchy_Point_Calculation") empty_state [1])
    as [r|e] eqn:H.
  - exists r. split; [reflexivity|].
    apply (step_line_search_count _ _ _ _ _ H).
  - vm_compute in H. discriminate.
Defined.

(** A call that leaves the loop at the test of steps 20 to 23, before the
    unsupported line search is reached. *)
Lemma unsupported_line_search_never_moves_witness :
  exists r,
    step linalg_1 quadratic options_armijo empty_state [0x1p-70] = Ok r
    /\ events r = [] /\ params_after r = [0x1p-70]
    /\ last_loss r = fst (quadratic [0x1p-70]).
Proof.
  destruct (step linalg_1 quadratic options_armijo empty_state [0x1p-70])
    as [r|e] eqn:H.
  - exists r. split; [reflexivity|].
    apply (@unsupported_line_search_never_moves float _ linalg_1 quadratic
             options_armijo "armijo" empty_state [0x1p-70] r eq_refl
             eq_refl H).
  - vm_compute in H. discriminate.
Defined.

(** A call that reaches it. *)
Lemma unsupported_line_search_raises :
  step linalg_1 quadratic options_armijo empty_state [1]
  = Raise (RuntimeError "only 'strong_wolfe' is supported").
Proof. vm_compute. reflexivity. Qed.

(** The first of two passes. *)
Lemma iteration_goes_on_without_restart_witness :
  exists l',
    iteration linalg_1 quadratic (options 2 0.75 "OBS") quadratic_locals
    = Go l'
    /\ restart l' <> 1%Z /\ n_iter l' = 1%nat.
Proof.
  destruct (iteration linalg_1 quadratic (options 2 0.75 "OBS")
                      quadratic_locals) as [l'|l'|e] eqn:H.
  - exists l'. split; [reflexivity|].
    destruct (iteration_goes_on_without_restart _ _ _ _ H) as (Hr & Hn & _).
    split; [exact Hr|exact Hn].
  - vm_compute in H. discriminate.
  - vm_compute in H. discriminate.
Defined.

Lemma step_keeps_memory_bounded_witness :
  exists r,
    step linalg_1 quadratic (options 2 0.25 "Cauchy_Point_Calculation")
         empty_state [1] = Ok r
    /\ memory_ok 3 (st_old_s (state_after r)) (st_old_y (state_after r)).
Proof.
  destruct (step linalg_1 quadratic
                 (options 2 0.25 "Cauchy_Point_Calculation") empty_state [1])
    as [r|e] eqn:H.
  - exists r. split; [reflexivity|].
    assert (Hm : (0 < memory_size
                      (options 2 0.25 "Cauchy_Point_Calculation"))%Z)
      by reflexivity.
    assert (H0 : memory_ok
                   (memory_size (options 2 0.25 "Cauchy_Point_Calculation"))
                   (st_old_s (empty_state (F:=float)))
                   (st_old_y (empty_state (F:=float))))
      by (intros a b Ha; discriminate Ha).
    apply (@step_keeps_memory_bounded float float_scalar linalg_1 quadratic
             _ Hm empty_state [1] r H0 H).
  - vm_compute in H. discriminate.
Defined.

End MoreRuns.

(* ================================================================= *)
(** ** The radius and the boundary step, in exact arithmetic *)

Section RealControl.
Local Open Scope R_scope.

Lemma dec_half : dec (F:=R) 5 (-1) = 1 / 2.
Proof. unfold dec. simpl. lra. Qed.

Lemma pymin_Rmin (a b : R) : pymin a b = Rmin a b.
Proof.
  unfold pymin. change (fltb b a) with (Rltb b a).
  destruct (Rltb b a) eqn:H.
  - apply Rltb_true in H. rewrite Rmin_right; lra.
  - apply Rltb_false in H. rewrite Rmin_left; lra.
Qed.

(** X9.  [update_radius] in exact arithmetic, for a positive radius and
    [T >= 0]: the new [T] is [T / 2 + 1], which is at least one, and the new
    [rho] is [(T / 2 * rho - r)] divided by it.  When the new [rho] is below
    one half the radius becomes the smaller of the radius and [|s|]; when it
    is at least one half the radius is doubled if [|s|] reaches it and is
    kept otherwise.  The radius stays positive as long as [s] is not zero. *)
Theorem update_radius_cases (r trust_radius : R) (s : rvec) (T rho : R) :
  0 < trust_radius -> 0 <= T ->
  let '(trust_radius', rho', T') := update_radius r trust_radius s T rho in
  T' = T / 2 + 1
  /\ 1 <= T'
  /\ rho' = (T / 2 * rho - r) / T'
  /\ (rho' < 1 / 2 -> trust_radius' = Rmin trust_radius (norm s))
  /\ (1 / 2 <= rho' ->
      (trust_radius <= norm s -> trust_radius' = 2 * trust_radius)
      /\ (norm s < trust_radius -> trust_radius' = trust_radius))
  /\ (0 < norm s -> 0 < trust_radius').
Proof.
  intros Htr HT. unfold update_radius.
  rewrite !dec_half. unfold f1, f2.
  cbn [fadd fsub fmul fdiv fltb fleb fofZ real_scalar].
  set (T' := 1 / 2 * T + 1).
  set (rho' := (1 / 2 * T * rho - r) / T').
  rewrite pymin_Rmin.
  assert (HT' : T' = T / 2 + 1) by (unfold T'; lra).
  split; [exact HT'|]. split; [lra|]. split; [unfold rho'; f_equal; lra|].
  destruct (Rltb rho' (1 / 2)) eqn:Hlt.
  - apply Rltb_true in Hlt.
    assert (Hge : Rleb (1 / 2) rho' = false) by (apply Rleb_false; lra).
    rewrite Hge. cbn [andb]. repeat split; try lra.
    intros Hs. apply Rmin_glb_lt; assumption.
  - apply Rltb_false in Hlt.
    assert (Hge : Rleb (1 / 2) rho' = true) by (apply Rleb_true; lra).
    rewrite Hge. cbn [andb].
    destruct (Rleb trust_radius (norm s)) eqn:Hs.
    + apply Rleb_true in Hs. repeat split; intros; try lra.
    + apply Rleb_false in Hs. repeat split; intros; try lra.
Qed.

(** X11.  On a model without positive curvature along the gradient
    ([g^T hess_1 hess_2 g <= 0]) the Steihaug solver returns, before its
    loop, the step of the Cauchy solver; for a gradient that is not zero
    and a positive radius it has norm [trust_radius] exactly, in exact
    arithmetic. *)
Theorem steihaug_is_cauchy_without_curvature (cg_iter : nat) (g : rvec)
    (hess_1 hess_2 : rmatrix) (trust_radius : R) :
  dot (vecmat g hess_1) (matvec hess_2 g) <= 0 ->
  trust_solver_steihaug cg_iter g hess_1 hess_2 trust_radius
  = trust_solver_cauchy g hess_1 hess_2 trust_radius
  /\ (0 < norm g -> 0 < trust_radius ->
      norm (trust_solver_cauchy g hess_1 hess_2 trust_radius)
      = trust_radius).
Proof.
  intros Hc. apply Rleb_true in Hc.
  unfold trust_solver_steihaug, trust_solver_cauchy, f0, f1.
  cbn [fadd fsub fmul fdiv fneg fltb fleb fofZ fsqrt real_scalar].
  rewrite Hc.
  replace (- (1) * trust_radius) with (- trust_radius) by lra.
  split; [reflexivity|].
  intros Hg HD. rewrite norm_vscale.
  replace (- trust_radius / norm g) with (- (trust_radius / norm g))
    by (field; lra).
  rewrite Rabs_Ropp, Rabs_pos_eq.
  - field. lra.
  - apply Rlt_le, Rdiv_lt_0_compat; lra.
Qed.

Lemma update_radius_cases_witness :
  let '(trust_radius', rho', T') :=
    update_radius (1 / 4) 1 ([3; 4] : rvec) 2 1 in
  T' = 2 / 2 + 1
  /\ 1 <= T'
  /\ rho' = (2 / 2 * 1 - 1 / 4) / T'
  /\ (rho' < 1 / 2 -> trust_radius' = Rmin 1 (norm ([3; 4] : rvec)))
  /\ (1 / 2 <= rho' ->
      (1 <= norm ([3; 4] : rvec) -> trust_radius' = 2 * 1)
      /\ (norm ([3; 4] : rvec) < 1 -> trust_radius' = 1))
  /\ (0 < norm ([3; 4] : rvec) -> 0 < trust_radius').
Proof. apply (@update_radius_cases (1 / 4) 1 [3; 4] 2 1); lra. Defined.

Lemma steihaug_is_cauchy_without_curvature_witness :
  trust_solver_steihaug 1 ([1] : rvec) [[1]] [[-1]] (1 / 2)
  = trust_solver_cauchy ([1] : rvec) [[1]] [[-1]] (1 / 2)
  /\ (0 < norm ([1] : rvec) -> 0 < 1 / 2 ->
      norm (trust_solver_cauchy ([1] : rvec) [[1]] [[-1]] (1 / 2)) = 1 / 2).
Proof.
  apply steihaug_is_cauchy_without_curvature.
  cbv [vecmat matvec transpose transpose_aux map hd tl length].
  rewrite !dot_cons, !dot_nil_l. lra.
Defined.

End RealControl.

(* ================================================================= *)
(** ** The parameter tensors and the flat vector *)

Section ParameterProperties.

Context {F : Type} {SF : Scalar F}.
Local Open Scope sc_scope.
Implicit Types (self : tensors (F:=F)) (params : list (param (F:=F))).

Lemma fold_numel params (n : nat) :
  fold_left (fun total p => (total + length (data p))%nat) params n
  = (n + list_sum (sizes params))%nat.
Proof.
  revert n. induction params as [|p ps IH]; intros n; simpl.
  - lia.
  - rewrite IH. unfold sizes. lia.
Qed.

Lemma numel_value self :
  cache_ok self ->
  snd (_numel self) = list_sum (sizes (_params self))
  /\ _params (fst (_numel self)) = _params self
  /\ cache_ok (fst (_numel self)).
Proof.
  unfold cache_ok, _numel. destruct (_numel_cache self) as [n|] eqn:Hc.
  - intros ->. simpl. rewrite Hc. auto.
  - intros _. simpl. rewrite fold_numel. auto.
Qed.

Lemma map2_app {A B C} (f : A -> B -> C) (a a' : list A) (b b' : list B) :
  length a = length b ->
  map2 f (a ++ a') (b ++ b') = map2 f a b ++ map2 f a' b'.
Proof.
  revert b. induction a as [|x a IH]; intros [|y b] H; simpl in *;
    try discriminate; [reflexivity|].
  f_equal. apply IH. lia.
Qed.

Lemma length_map2 {A B C} (f : A -> B -> C) (a : list A) (b : list B) :
  length a = length b -> length (map2 f a b) = length a.
Proof.
  revert b. induction a as [|x a IH]; intros [|y b] H; simpl in *;
    try discriminate; [reflexivity|].
  f_equal. apply IH. lia.
Qed.

Lemma skipn_skipn_add {A} (n m : nat) (l : list A) :
  skipn n (skipn m l) = skipn (m + n) l.
Proof.
  revert l. induction m as [|m IH]; intros l; simpl.
  - reflexivity.
  - destruct l; [now rewrite skipn_nil|]. apply IH.
Qed.

Lemma add_grad_loop_enough (step_size : F) (update : vec) params (offset : nat) :
  (offset + list_sum (sizes params) <= length update)%nat ->
  exists params',
    add_grad_loop step_size update offset params
    = (params', Ok (offset + list_sum (sizes params))%nat)
    /\ sizes params' = sizes params
    /\ map grad params' = map grad params
    /\ flat params'
       = vadd (flat params) (vscale step_size (skipn offset update)).
Proof.
  revert offset. induction params as [|p ps IH]; intros offset H.
  - exists []. simpl. split; [|auto]. f_equal. f_equal. lia.
  - simpl in H. simpl.
    set (piece := firstn (length (data p)) (skipn offset update)).
    assert (Hp : length piece = length (data p)).
    { unfold piece. rewrite length_firstn, length_skipn. lia. }
    rewrite Hp, Nat.eqb_refl.
    destruct (IH (offset + length (data p))%nat) as (ps' & -> & Hs & Hg & Hf);
      [lia|].
    eexists. split; [|split; [|split]].
    + f_equal. f_equal. lia.
    + simpl. f_equal; [|exact Hs].
      unfold vadd. rewrite length_map2; [reflexivity|].
      unfold vscale. rewrite length_map. now symmetry.
    + simpl. now f_equal.
    + unfold flat in *. simpl. rewrite Hf.
      rewrite <- (firstn_skipn (length (data p)) (skipn offset update)) at 1.
      fold piece. unfold vscale. rewrite map_app. unfold vadd.
      rewrite map2_app by (rewrite length_map; now symmetry).
      now rewrite skipn_skipn_add.
Qed.

Lemma add_grad_loop_short (step_size : F) (update : vec) params (offset : nat) :
  (length update < offset + list_sum (sizes params))%nat ->
  (offset <= length update)%nat ->
  exists params' msg,
    add_grad_loop step_size update offset params
    = (params', Raise (RuntimeError msg)).
Proof.
  revert offset. induction params as [|p ps IH]; intros offset H Ho.
  - simpl in H. lia.
  - simpl in H. simpl.
    destruct (Nat.eqb_spec
                (length (firstn (length (data p)) (skipn offset update)))
                (length (data p))) as [He|He].
    + rewrite length_firstn, length_skipn in He.
      destruct (IH (offset + length (data p))%nat) as (ps' & msg & ->);
        [lia|lia|].
      eauto.
    + eauto.
Qed.

Lemma add_grad_loop_result (step_size : F) (update : vec) params (offset : nat) :
  forall params' n,
    add_grad_loop step_size update offset params = (params', Ok n) ->
    n = (offset + list_sum (sizes params))%nat /\ sizes params' = sizes params.
Proof.
  revert offset. induction params as [|p ps IH]; intros offset params' n H.
  - simpl in H. injection H as <- <-. split; [simpl; lia|reflexivity].
  - simpl in H.
    destruct (Nat.eqb_spec
                (length (firstn (length (data p)) (skipn offset update)))
                (length (data p))) as [He|He]; [|discriminate].
    destruct (add_grad_loop step_size update (offset + length (data p)) ps)
      as [ps' r] eqn:Hl.
    injection H as <- ->. apply IH in Hl as [-> Hs]. split.
    + simpl. lia.
    + simpl. f_equal; [|exact Hs].
      unfold vadd. rewrite length_map2; [reflexivity|].
      unfold vscale. rewrite length_map. now symmetry.
Qed.

Lemma add_grad_enough (step_size : F) (update : vec) self :
  cache_ok self ->
  (list_sum (sizes (_params self)) <= length update)%nat ->
  let self' := fst (_add_grad step_size update self) in
  snd (_add_grad step_size update self) = Returns tt
  /\ flat (_params self') = vadd (flat (_params self)) (vscale step_size update)
  /\ sizes (_params self') = sizes (_params self)
  /\ map grad (_params self') = map grad (_params self)
  /\ cache_ok self'.
Proof.
  intros Hc Hlen. unfold _add_grad.
  destruct (@add_grad_loop_enough step_size update (_params self) 0)
    as (ps' & -> & Hs & Hg & Hf); [simpl; lia|].
  set (self1 := {| _params := ps'; _numel_cache := _numel_cache self |}).
  assert (Hc1 : cache_ok self1).
  { unfold cache_ok in *. simpl. destruct (_numel_cache self); [|exact I].
    now rewrite Hs. }
  destruct (@numel_value self1 Hc1) as (Hn & Hp & Hc2).
  destruct (_numel self1) as [self2 n]. simpl in *. subst n.
  rewrite Hs, Nat.eqb_refl. rewrite Hp. simpl. auto.
Qed.

(** X12.  With an update that has an entry for every entry of the
    parameters (it may be longer), [_add_grad] returns, and the parameters
    read as one flat vector have moved by [step_size * update]: the flat
    update that [step] is modelled with.  The sizes of the tensors and
    their gradients are as before, and the cache of [_numel] is right
    afterwards. *)
Theorem add_grad_moves_flat_parameters (step_size : F) (update : vec) self :
  cache_ok self ->
  (list_sum (sizes (_params self)) <= length update)%nat ->
  let self' := fst (_add_grad step_size update self) in
  snd (_add_grad step_size update self) = Returns tt
  /\ flat (_params self') = vadd (flat (_params self)) (vscale step_size update)
  /\ sizes (_params self') = sizes (_params self)
  /\ map grad (_params self') = map grad (_params self)
  /\ cache_ok self'.
Proof. apply add_grad_enough. Qed.

(** X13.  The [assert] that ends [_add_grad] never fails while the cache
    of [_numel] is right; and [_add_grad] raises, a [RuntimeError] of
    [view_as], exactly when the update has fewer entries than the
    parameters. *)
Theorem add_grad_short_update_raises (step_size : F) (update : vec) self :
  cache_ok self ->
  snd (_add_grad step_size update self) <> AssertionError
  /\ ((length update < list_sum (sizes (_params self)))%nat <->
      exists msg,
        snd (_add_grad step_size update self) = Raises (RuntimeError msg)).
Proof.
  intros Hc.
  destruct (Nat.lt_ge_cases (length update)
                            (list_sum (sizes (_params self)))) as [Hlt|Hge].
  - destruct (@add_grad_loop_short step_size update (_params self) 0)
      as (ps' & msg & Hl); [simpl; lia|lia|].
    unfold _add_grad. rewrite Hl. simpl. split; [discriminate|].
    split; eauto.
  - destruct (@add_grad_enough step_size update self Hc Hge)
      as (Hr & _).
    rewrite Hr. split; [discriminate|]. split; [lia|].
    intros [msg H]. discriminate.
Qed.

Lemma set_param_loop_sizes params (x : list (vec (F:=F))) :
  sizes params = map (@length F) x ->
  exists params',
    set_param_loop params x = (params', Ok tt)
    /\ map data params' = x
    /\ map grad params' = map grad params.
Proof.
  revert x. induction params as [|p ps IH]; intros [|v x] H; simpl in H;
    try discriminate.
  - exists []. auto.
  - injection H as Hv Hx. simpl. unfold copy_.
    rewrite Hv, Nat.eqb_refl.
    destruct (IH x Hx) as (ps' & -> & Hd & Hg).
    eexists. split; [reflexivity|]. simpl. split; f_equal; assumption.
Qed.

Lemma sizes_clone self : map (@length F) (_clone_param self) = sizes (_params self).
Proof. unfold _clone_param, sizes. now rewrite map_map. Qed.

(** X14.  [_set_param] with the result of [_clone_param] brings the
    entries of the parameters back, whatever has happened to them since,
    as long as the tensors have the sizes they had; the gradients and the
    cache are not touched. *)
Theorem set_param_restores_clone self self' :
  sizes (_params self') = sizes (_params self) ->
  let restored := fst (_set_param (_clone_param self) self') in
  snd (_set_param (_clone_param self) self') = Ok tt
  /\ _clone_param restored = _clone_param self
  /\ map grad (_params restored) = map grad (_params self')
  /\ _numel_cache restored = _numel_cache self'.
Proof.
  intros Hs. unfold _set_param.
  destruct (@set_param_loop_sizes (_params self') (_clone_param self))
    as (ps' & -> & Hd & Hg); [now rewrite sizes_clone|].
  simpl. auto.
Qed.

Lemma length_zeros (n : nat) : length (zeros (F:=F) n) = n.
Proof. apply repeat_length. Qed.

(** X15.  When every gradient that is present has the size of its
    parameter, [_gather_flat_grad] gives a vector with one entry for every
    entry of the parameters (zeros where a gradient is absent), for a list
    of parameters that is not empty. *)
Theorem gather_flat_grad_length self :
  _params self <> [] ->
  Forall (fun p => match grad p with
                   | Some g => length g = length (data p)
                   | None => True
                   end) (_params self) ->
  exists flat_grad,
    _gather_flat_grad self = Ok flat_grad
    /\ length flat_grad = list_sum (sizes (_params self)).
Proof.
  intros Hne Hall. unfold _gather_flat_grad.
  set (view := fun p : param (F:=F) => match grad p with
                        | None => zeros (length (data p))
                        | Some g => g
                        end).
  exists (concat (map view (_params self))). split.
  - destruct (_params self); [contradiction|reflexivity].
  - clear Hne. induction Hall as [|p ps Hp _ IH]; [reflexivity|].
    simpl. rewrite length_app, IH. f_equal.
    unfold view. destruct (grad p); [assumption|apply length_zeros].
Qed.

Section Evaluate.

Variable closure : list (param (F:=F)) -> F * list (param (F:=F)).

(** X16.  [_directional_evaluate] with values [x] of the sizes of the
    parameters and a direction that is long enough: for a closure that
    keeps the sizes, it returns the loss of the closure and the flat
    gradient the closure left, both taken at the moved parameters, and
    leaves the parameters at [x], with the gradients of the closure. *)
Theorem directional_evaluate_restores (x : list (vec (F:=F))) (t : F)
    (d : vec) self (loss : F) params :
  cache_ok self ->
  map (@length F) x = sizes (_params self) ->
  (list_sum (sizes (_params self)) <= length d)%nat ->
  closure (_params (fst (_add_grad t d self))) = (loss, params) ->
  sizes params = sizes (_params self) ->
  params <> [] ->
  exists flat_grad self',
    _directional_evaluate closure x t d self
    = (self', Returns (loss, flat_grad))
    /\ _gather_flat_grad {| _params := params; _numel_cache := None |}
       = Ok flat_grad
    /\ _clone_param self' = x
    /\ map grad (_params self') = map grad params
    /\ cache_ok self'.
Proof.
  intros Hc Hx Hlen Hcl Hs Hne.
  destruct (@add_grad_enough t d self Hc Hlen) as (Hr & _ & Hs1 & _ & Hc1).
  unfold _directional_evaluate.
  destruct (_add_grad t d self) as [self1 r]. simpl in *. subst r.
  rewrite Hcl.
  assert (Hg : exists flat_grad,
             forall c, _gather_flat_grad {| _params := params; _numel_cache := c |}
                       = Ok flat_grad).
  { unfold _gather_flat_grad. simpl.
    destruct params; [contradiction|]. simpl. eauto. }
  destruct Hg as [flat_grad Hg]. rewrite Hg.
  unfold _set_param. simpl.
  destruct (@set_param_loop_sizes params x) as (ps' & -> & Hd & Hgr);
    [congruence|].
  exists flat_grad. eexists. split; [reflexivity|]. simpl.
  split; [apply Hg|]. split; [exact Hd|]. split; [exact Hgr|].
  unfold cache_ok in *. simpl. destruct (_numel_cache self1); [|exact I].
  assert (Hs' : sizes ps' = map (@length F) x)
    by (rewrite <- Hd; unfold sizes; now rewrite map_map).
  congruence.
Qed.

End Evaluate.

End ParameterProperties.

Section ParameterRuns.

Lemma add_grad_moves_flat_parameters_witness :
  let self' := fst (_add_grad 0.5%float [1; 1; 1]%float two_tensors) in
  snd (_add_grad 0.5%float [1; 1; 1]%float two_tensors) = Returns tt
  /\ flat (_params self')
     = vadd (flat (_params two_tensors)) (vscale 0.5%float [1; 1; 1]%float)
  /\ sizes (_params self') = sizes (_params two_tensors)
  /\ map grad (_params self') = map grad (_params two_tensors)
  /\ cache_ok self'.
Proof.
  apply add_grad_moves_flat_parameters.
  - exact I.
  - simpl. lia.
Defined.

Lemma add_grad_short_update_raises_witness :
  snd (_add_grad 0.5%float [1; 1]%float two_tensors) <> AssertionError
  /\ ((length ([1; 1]%float : fvec)
       < list_sum (sizes (_params two_tensors)))%nat <->
      exists msg,
        snd (_add_grad 0.5%float [1; 1]%float two_tensors)
        = Raises (RuntimeError msg)).
Proof. apply add_grad_short_update_raises. exact I. Defined.

(** The update of [add_grad_short_update_raises_witness] fails at the
    second tensor, after the first has been moved. *)
Lemma add_grad_fails_half_way :
  _add_grad 0.5%float [1; 1]%float two_tensors
  = ({| _params := [ {| data := [1.5; 2.5]%float; grad := None |};
                     {| data := [3]%float; grad := None |} ];
        _numel_cache := None |},
     Raises (RuntimeError "shape is invalid for input size")).
Proof. vm_compute. reflexivity. Qed.

Lemma set_param_restores_clone_witness :
  let moved_ := fst (_add_grad 0.5%float [1; 1; 1]%float two_tensors) in
  let restored := fst (_set_param (_clone_param two_tensors) moved_) in
  snd (_set_param (_clone_param two_tensors) moved_) = Ok tt
  /\ _clone_param restored = _clone_param two_tensors
  /\ map grad (_params restored) = map grad (_params moved_)
  /\ _numel_cache restored = _numel_cache moved_.
Proof. apply set_param_restores_clone. reflexivity. Defined.

Lemma gather_flat_grad_length_witness :
  exists flat_grad,
    _gather_flat_grad two_tensors = Ok flat_grad
    /\ length flat_grad = list_sum (sizes (_params two_tensors)).
Proof.
  apply gather_flat_grad_length.
  - discriminate.
  - repeat constructor.
Defined.

Lemma directional_evaluate_restores_witness :
  exists flat_grad self',
    _directional_evaluate doubling [[1; 2]; [3]]%float 0.5%float
                          [1; 1; 1]%float two_tensors
    = (self', Returns (1%float, flat_grad))
    /\ _gather_flat_grad
         {| _params := [ {| data := [1.5; 2.5]%float;
                            grad := Some [3; 5]%float |};
                         {| data := [3.5]%float;
                            grad := Some [7]%float |} ];
            _numel_cache := None |}
       = Ok flat_grad
    /\ _clone_param self' = [[1; 2]; [3]]%float
    /\ map grad (_params self')
       = map grad [ {| data := [1.5; 2.5]%float; grad := Some [3; 5]%float |};
                    {| data := [3.5]%float; grad := Some [7]%float |} ]
    /\ cache_ok self'.
Proof.
  apply directional_evaluate_restores.
  - exact I.
  - reflexivity.
  - simpl. lia.
  - vm_compute. reflexivity.
  - reflexivity.
  - discriminate.
Defined.

End ParameterRuns.

(* ================================================================= *)
(** ** The secular equation without a gradient *)

Section SecularEquation.

Context {F : Type} {SF : Scalar F}.
Local Open Scope sc_scope.
Variable la : Linalg (F:=F).

Lemma secular_loop_skips (a t : vec (F:=F)) (llpll2 llpll_prim : option F) :
  all_small a ->
  secular_loop (combine a t) llpll2 llpll_prim = inr (llpll2, llpll_prim).
Proof.
  intros Ha. revert t. induction Ha as [|x a Hx _ IH]; intros [|y t];
    try reflexivity.
  simpl. rewrite Hx. simpl. apply IH.
Qed.

Lemma phi_raises (trust_radius sigma delta : F) (a lam : vec) :
  all_small a ->
  any_small a || any_small (vadds lam sigma) = true ->
  phi trust_radius sigma delta a lam = Raise TypeError.
Proof.
  intros Ha Hs. unfold phi. rewrite Hs, secular_loop_skips by assumption.
  reflexivity.
Qed.

(** X17.  When no entry of [a] is above the tolerance [1e-10] and some
    entry of [a] or of [lam + sigma] is below it, [phi] and [phi_phi_T] run
    their loop without adding anything and hand the Python integer [0] to
    [torch.sqrt] and [torch.abs]: both raise [TypeError]. *)
Theorem secular_equation_without_gradient_raises
    (trust_radius sigma delta : F) (a lam : vec) :
  all_small a ->
  any_small a || any_small (vadds lam sigma) = true ->
  phi trust_radius sigma delta a lam = Raise TypeError
  /\ phi_phi_T trust_radius sigma delta a lam = Raise TypeError.
Proof.
  intros Ha Hs. split; [now apply phi_raises|].
  unfold phi_phi_T. rewrite Hs, secular_loop_skips by assumption.
  reflexivity.
Qed.

(** X18.  [trust_solver_OBS] on a gradient that vanishes up to the
    tolerance, in the basis [P] and in what is left of it: the first call
    of [phi] raises [TypeError], and so does the solver, whatever the
    model. *)
Theorem trust_solver_OBS_without_gradient_raises (newton_maxit : nat)
    (M P : matrix) (lamb_gamma : vec) (trust_radius gamma : F)
    (flat_grad : vec) (psi : matrix) :
  all_small (obs_a P flat_grad) ->
  any_small (obs_a P flat_grad) = true ->
  trust_solver_OBS la newton_maxit M P lamb_gamma trust_radius gamma
                   flat_grad psi
  = Raise TypeError.
Proof.
  intros Ha Hs. unfold trust_solver_OBS.
  change (matvec (transpose P) flat_grad ++ _) with (obs_a P flat_grad).
  rewrite phi_raises; [reflexivity|assumption|].
  now rewrite Hs.
Qed.

End SecularEquation.

Section SecularRuns.

Lemma secular_equation_without_gradient_raises_witness :
  phi 1%float 0%float 1%float [0%float] [1%float] = Raise TypeError
  /\ phi_phi_T 1%float 0%float 1%float [0%float] [1%float] = Raise TypeError.
Proof.
  apply secular_equation_without_gradient_raises.
  - repeat constructor.
  - vm_compute. reflexivity.
Defined.

Lemma trust_solver_OBS_without_gradient_raises_witness :
  trust_solver_OBS linalg_1 5 obs_M obs_P obs_lamb_gamma obs_radius 1%float
                   [0%float; 0%float] [[1%float]; [0%float]]
  = Raise TypeError.
Proof.
  apply trust_solver_OBS_without_gradient_raises.
  - repeat constructor.
  - vm_compute. reflexivity.
Defined.

End SecularRuns.

(* ================================================================= *)
(** ** The matrix of the compact representation *)

Ltac solve_length := unfold rmatrix, rvec, matrix, vec in *; lia.

Section CompactRepresentation.
Local Open Scope R_scope.
Local Open Scope nat_scope.

Lemma nth_mapi_aux {A B} (f : nat -> A -> B) (l : list A) (s i : nat)
    (d : A) (d' : B) :
  i < length l -> nth i (mapi_aux f s l) d' = f (s + i) (nth i l d).
Proof.
  revert s i. induction l as [|a l IH]; intros s i H; simpl in H; [lia|].
  destruct i as [|i]; simpl.
  - now rewrite Nat.add_0_r.
  - rewrite IH by lia. f_equal. lia.
Qed.

Lemma nth_mapi {A B} (f : nat -> A -> B) (l : list A) (i : nat)
    (d : A) (d' : B) :
  i < length l -> nth i (mapi f l) d' = f i (nth i l d).
Proof. intros H. unfold mapi. now rewrite (nth_mapi_aux f l 0 d d' H). Qed.

Lemma length_mapi_aux {A B} (f : nat -> A -> B) (l : list A) (s : nat) :
  length (mapi_aux f s l) = length l.
Proof. revert s. induction l; intros s; simpl; [reflexivity|now rewrite IHl]. Qed.

Lemma length_mapi {A B} (f : nat -> A -> B) (l : list A) :
  length (mapi f l) = length l.
Proof. apply length_mapi_aux. Qed.

Lemma nth_transpose_aux (n : nat) (m : rmatrix) (i : nat) :
  i < n ->
  nth i (transpose_aux n m) [] = map (fun r => nth i r 0%R) m.
Proof.
  revert m i. induction n as [|n IH]; intros m i H; [lia|].
  destruct i as [|i]; simpl.
  - apply map_ext. now intros [|x r].
  - rewrite IH by lia. rewrite map_map. apply map_ext. now intros [|x r]; destruct i.
Qed.

Lemma length_transpose_aux (n : nat) (m : rmatrix) :
  length (transpose_aux n m) = n.
Proof. revert m. induction n; intros m; simpl; [reflexivity|now rewrite IHn]. Qed.

Lemma length_transpose (m : rmatrix) :
  length (transpose m) = length (hd [] m).
Proof. apply length_transpose_aux. Qed.

Lemma nth_transpose (m : rmatrix) (i : nat) :
  i < length (hd [] m) ->
  nth i (transpose m) [] = map (fun r => nth i r 0%R) m.
Proof. apply nth_transpose_aux. Qed.

Lemma entry_transpose (m : rmatrix) (i j : nat) :
  i < length (hd [] m) -> entry (transpose m) i j = entry m j i.
Proof.
  intros H. unfold entry. rewrite nth_transpose by assumption.
  assert (E : f0 = nth i (@nil R) 0%R) by (destruct i; reflexivity).
  rewrite E at 1. now rewrite (map_nth (fun r => nth i r 0%R)).
Qed.

Lemma entry_mm (a b : rmatrix) (i j : nat) :
  i < length a -> j < length (hd [] b) ->
  entry (mm a b) i j = dot (nth j (transpose b) []) (nth i a []).
Proof.
  intros Hi Hj. unfold entry, mm.
  rewrite (nth_indep _ [] (vecmat [] b)) by now rewrite length_map.
  rewrite (map_nth (fun r => vecmat r b)).
  unfold vecmat, matvec.
  rewrite (nth_indep _ f0 (dot [] (nth i a [])))
    by now rewrite length_map, length_transpose.
  now rewrite (map_nth (fun r => dot r (nth i a []))).
Qed.

Lemma shape_mm (a b : rmatrix) :
  length (mm a b) = length a
  /\ Forall (fun r => length r = length (hd [] b)) (mm a b).
Proof.
  unfold mm. split; [apply length_map|].
  apply Forall_forall. intros r Hr. apply in_map_iff in Hr as (x & <- & _).
  unfold vecmat, matvec. now rewrite length_map, length_transpose.
Qed.

Lemma square_row (k : nat) (m : rmatrix) (i : nat) :
  square k m -> i < k -> length (nth i m []) = k.
Proof.
  intros [Hl Hr] Hi. rewrite Forall_forall in Hr. apply Hr, nth_In. lia.
Qed.

Lemma square_hd (k : nat) (m : rmatrix) :
  square k m -> length (hd [] m) = k.
Proof.
  intros [Hl Hr]. destruct m as [|r m]; [simpl in *; now subst|].
  now inversion Hr.
Qed.

Lemma Forall_mapi_aux {A B} (f : nat -> A -> B) (P : B -> Prop) (l : list A)
    (s : nat) :
  (forall i a, P (f i a)) -> Forall P (mapi_aux f s l).
Proof.
  intros H. revert s. induction l; intros s; simpl; constructor; auto.
Qed.

Lemma square_tril (k : nat) (m : rmatrix) :
  square k m -> square k (tril_strict m).
Proof.
  intros [Hl Hr]. unfold tril_strict. split; [now rewrite length_mapi|].
  rewrite Forall_forall in *. intros r Hin.
  apply (In_nth _ _ []) in Hin as (i & Hi & <-).
  rewrite length_mapi in Hi.
  rewrite (nth_mapi _ m [] [] Hi), length_mapi. apply Hr, nth_In, Hi.
Qed.

Lemma entry_tril (k : nat) (m : rmatrix) (i j : nat) :
  square k m -> i < k -> j < k ->
  entry (tril_strict m) i j = if (j <? i)%nat then entry m i j else 0%R.
Proof.
  intros Hm Hi Hj. pose proof (square_row Hm Hi) as Hrow.
  destruct Hm as [Hl Hr]. unfold entry, tril_strict.
  rewrite (@nth_mapi _ _ _ m i [] []) by solve_length.
  now rewrite (@nth_mapi _ _ _ (nth i m []) j 0%R f0) by solve_length.
Qed.

Lemma length_map2_min {A B C} (f : A -> B -> C) (a : list A) (b : list B) :
  length (map2 f a b) = Nat.min (length a) (length b).
Proof.
  revert b. induction a as [|x a IH]; intros [|y b]; simpl; auto.
Qed.

Lemma nth_map2 {A B C} (f : A -> B -> C) (a : list A) (b : list B) (i : nat)
    (da : A) (db : B) (dc : C) :
  i < length a -> i < length b ->
  nth i (map2 f a b) dc = f (nth i a da) (nth i b db).
Proof.
  revert b i. induction a as [|x a IH]; intros [|y b] i Ha Hb; simpl in *;
    try lia.
  destruct i; [reflexivity|]. apply IH; lia.
Qed.

Lemma square_madd (k : nat) (a b : rmatrix) :
  square k a -> square k b -> square k (madd a b).
Proof.
  intros [Hla Hra] [Hlb Hrb]. unfold madd. split.
  - rewrite length_map2_min. solve_length.
  - rewrite Forall_forall in *. intros r Hin.
    apply (In_nth _ _ []) in Hin as (i & Hi & <-).
    rewrite length_map2_min in Hi.
    rewrite (@nth_map2 _ _ _ vadd a b i [] [] []) by solve_length.
    unfold vadd. rewrite length_map2_min.
    assert (Ha : length (nth i a []) = k) by (apply Hra, nth_In; solve_length).
    assert (Hb : length (nth i b []) = k) by (apply Hrb, nth_In; solve_length).
    solve_length.
Qed.

Lemma entry_madd (k : nat) (a b : rmatrix) (i j : nat) :
  square k a -> square k b -> i < k -> j < k ->
  entry (madd a b) i j = (entry a i j + entry b i j)%R.
Proof.
  intros Ha Hb Hi Hj.
  pose proof (square_row Ha Hi) as Hra. pose proof (square_row Hb Hi) as Hrb.
  destruct Ha as [Hla _], Hb as [Hlb _]. unfold entry, madd.
  rewrite (@nth_map2 _ _ _ vadd a b i [] [] []) by solve_length.
  unfold vadd.
  now rewrite (@nth_map2 _ _ _ fadd _ _ j f0 f0 f0) by solve_length.
Qed.

Lemma square_mscale (k : nat) (c : R) (a : rmatrix) :
  square k a -> square k (mscale c a).
Proof.
  intros [Hl Hr]. unfold mscale. split; [now rewrite length_map|].
  rewrite Forall_forall in *. intros r Hin.
  apply in_map_iff in Hin as (x & <- & Hx).
  unfold vscale. rewrite length_map. now apply Hr.
Qed.

Lemma entry_mscale (k : nat) (c : R) (a : rmatrix) (i j : nat) :
  square k a -> i < k -> j < k ->
  entry (mscale c a) i j = (c * entry a i j)%R.
Proof.
  intros Ha Hi Hj. pose proof (square_row Ha Hi) as Hra.
  destruct Ha as [Hla _]. unfold entry, mscale.
  rewrite (nth_indep _ [] (vscale c [])) by (rewrite length_map; solve_length).
  rewrite (map_nth (vscale c)). unfold vscale.
  rewrite (nth_indep _ f0 (fmul c f0)) by (rewrite length_map; solve_length).
  now rewrite (map_nth (fmul c)).
Qed.

Lemma square_transpose (k : nat) (m : rmatrix) :
  square k m -> square k (transpose m).
Proof.
  intros Hm. pose proof (square_hd Hm) as Hh. destruct Hm as [Hl Hr].
  split; [now rewrite length_transpose|].
  rewrite Forall_forall. intros r Hin.
  apply (In_nth _ _ []) in Hin as (i & Hi & <-).
  rewrite length_transpose in Hi.
  now rewrite nth_transpose, length_map.
Qed.

Lemma square_add_diag (k : nat) (m : rmatrix) (d : rvec) :
  square k m -> square k (add_diag m d).
Proof.
  intros [Hl Hr]. unfold add_diag. split; [now rewrite length_mapi|].
  rewrite Forall_forall in *. intros r Hin.
  apply (In_nth _ _ []) in Hin as (i & Hi & <-).
  rewrite length_mapi in Hi.
  rewrite (nth_mapi _ m [] [] Hi), length_mapi. apply Hr, nth_In, Hi.
Qed.

Lemma entry_add_diag (k : nat) (m : rmatrix) (d : rvec) (i j : nat) :
  square k m -> i < k -> j < k ->
  entry (add_diag m d) i j
  = if (j =? i)%nat then (entry m i j + nth i d 0)%R else entry m i j.
Proof.
  intros Hm Hi Hj. pose proof (square_row Hm Hi) as Hrow.
  destruct Hm as [Hl Hr]. unfold entry, add_diag.
  rewrite (@nth_mapi _ _ _ m i [] []) by solve_length.
  now rewrite (@nth_mapi _ _ _ (nth i m []) j 0%R f0) by solve_length.
Qed.

(** X19.  For [S] and [Y] with [k] columns, the matrix [M] of
    [calculate_M] has [k] rows of [k] entries and is symmetric, in exact
    arithmetic. *)
Theorem calculate_M_symmetric (S Y : rmatrix) (gamma : R) (k : nat) :
  length (hd [] S) = k ->
  length (hd [] Y) = k ->
  let M := fst (calculate_M S Y gamma) in
  length M = k
  /\ Forall (fun r => length r = k) M
  /\ forall i j, i < k -> j < k -> entry M i j = entry M j i.
Proof.
  intros HS HY. unfold calculate_M. cbn [fst].
  set (SY := mm (transpose S) Y). set (SS := mm (transpose S) S).
  assert (HSY : square k SY).
  { destruct (shape_mm (transpose S) Y) as [Hl Hr]. split.
    - fold SY in Hl. now rewrite Hl, length_transpose.
    - fold SY in Hr. now rewrite HY in Hr. }
  assert (HSS : square k SS).
  { destruct (shape_mm (transpose S) S) as [Hl Hr]. split.
    - fold SS in Hl. now rewrite Hl, length_transpose.
    - fold SS in Hr. now rewrite HS in Hr. }
  pose proof (square_tril HSY) as HL.
  pose proof (square_transpose HL) as HLt.
  pose proof (square_madd HL HLt) as HLL.
  pose proof (square_mscale gamma HSS) as HgSS.
  pose proof (square_madd HLL HgSS) as HM.
  pose proof (square_add_diag (diag SY) HM) as HMd.
  split; [apply HMd|]. split; [apply HMd|].
  assert (Hsym : forall i j, i < k -> j < k -> entry SS i j = entry SS j i).
  { intros i j Hi Hj. unfold SS.
    rewrite !entry_mm by (rewrite ?length_transpose; solve_length).
    apply dot_comm. }
  intros i j Hi Hj.
  rewrite !(entry_add_diag _ HM) by assumption.
  rewrite !(entry_madd HLL HgSS) by assumption.
  rewrite !(entry_madd HL HLt) by assumption.
  rewrite !(entry_mscale _ HSS) by assumption.
  rewrite !entry_transpose by (now rewrite (square_hd HL)).
  rewrite !(entry_tril HSY) by assumption.
  rewrite (Hsym i j) by assumption.
  destruct (Nat.eqb_spec j i) as [->|Hne].
  - rewrite Nat.eqb_refl. reflexivity.
  - destruct (Nat.eqb_spec i j) as [->|_]; [contradiction|].
    destruct (Nat.ltb_spec j i), (Nat.ltb_spec i j); try lia; lra.
Qed.

Lemma calculate_M_symmetric_witness :
  let M := fst (calculate_M ([[1; 2]; [3; 4]; [5; 6]]%R : rmatrix)
                            [[1; 0]; [0; 1]; [1; 1]]%R (1 / 2)%R) in
  length M = 2
  /\ Forall (fun r => length r = 2) M
  /\ forall i j, i < 2 -> j < 2 -> entry M i j = entry M j i.
Proof. apply calculate_M_symmetric; reflexivity. Defined.

End CompactRepresentation.

(* ================================================================= *)
(** ** The trust-region bound, in exact arithmetic *)

Section TrustRegionBound.
Local Open Scope R_scope.

Lemma dot_vadd_l (u v w : rvec) :
  length u = length v -> dot (vadd u v) w = dot u w + dot v w.
Proof.
  revert v w. induction u as [|x u IH]; intros [|y v] w H; try discriminate.
  - change (vadd [] []) with (@nil R). rewrite !dot_nil_l. lra.
  - injection H as H. destruct w as [|z w].
    + rewrite !dot_nil_r. lra.
    + rewrite vadd_cons, !dot_cons, IH by assumption. lra.
Qed.

Lemma dot_vscale_l (c : R) (u w : rvec) : dot (vscale c u) w = c * dot u w.
Proof.
  revert w. induction u as [|x u IH]; intros [|z w];
    rewrite ?vscale_cons, ?dot_nil_r, ?dot_cons;
    try (change (vscale c []) with (@nil R); rewrite ?dot_nil_l); try lra.
  rewrite IH. lra.
Qed.

Lemma vneg_vscale (u : rvec) : vneg u = vscale (-1) u.
Proof.
  unfold vneg, vscale. apply map_ext. intros x. simpl. lra.
Qed.

Lemma dot_vneg_l (u w : rvec) : dot (vneg u) w = - dot u w.
Proof. rewrite vneg_vscale, dot_vscale_l. lra. Qed.

Lemma vsub_vadd (u v : rvec) : vsub u v = vadd u (vneg v).
Proof.
  revert v. induction u as [|x u IH]; intros [|y v]; try reflexivity.
  change (x - y :: vsub u v = x + - y :: vadd u (vneg v)).
  rewrite IH. f_equal.
Qed.

Lemma dot_vsub_l (u v w : rvec) :
  length u = length v -> dot (vsub u v) w = dot u w - dot v w.
Proof.
  intros H. rewrite vsub_vadd, dot_vadd_l, dot_vneg_l.
  - lra.
  - now rewrite length_vneg.
Qed.

Lemma matvec_vscale (m : rmatrix) (c : R) (x : rvec) :
  matvec m (vscale c x) = vscale c (matvec m x).
Proof.
  unfold matvec. unfold vscale at 2. rewrite map_map. apply map_ext.
  intros r. rewrite (dot_comm r), dot_vscale_l, (dot_comm x). reflexivity.
Qed.

Lemma map2_map_map {A B C D} (f : B -> C -> D) (g : A -> B) (h : A -> C)
    (l : list A) :
  map2 f (map g l) (map h l) = map (fun a => f (g a) (h a)) l.
Proof. induction l; simpl; [reflexivity|now f_equal]. Qed.

Lemma matvec_vadd (m : rmatrix) (x y : rvec) :
  length x = length y ->
  matvec m (vadd x y) = vadd (matvec m x) (matvec m y).
Proof.
  intros H. unfold matvec, vadd at 2. rewrite map2_map_map. apply map_ext.
  intros r. rewrite (dot_comm r), dot_vadd_l, !(dot_comm r) by assumption.
  reflexivity.
Qed.

Lemma matvec_vneg (m : rmatrix) (x : rvec) :
  matvec m (vneg x) = vneg (matvec m x).
Proof. now rewrite !vneg_vscale, matvec_vscale. Qed.

Lemma dot_zeros_l (k : nat) (x : rvec) : dot (zeros k) x = 0.
Proof.
  revert x. induction k as [|k IH]; intros [|y x]; rewrite ?dot_nil_r;
    try reflexivity.
  change (zeros (S k)) with (0 :: zeros (F:=R) k). rewrite dot_cons, IH. lra.
Qed.

Lemma transpose_aux_nil (k : nat) :
  transpose_aux k (@nil rvec) = repeat [] k.
Proof. induction k as [|k IH]; simpl; [reflexivity|f_equal; exact IH]. Qed.

Lemma transpose_aux_cons (k : nat) (r : rvec) (P : rmatrix) :
  length r = k ->
  transpose_aux k (r :: P) = map2 cons r (transpose_aux k P).
Proof.
  revert r P. induction k as [|k IH]; intros [|x r] P H; try discriminate;
    [reflexivity|].
  injection H as H. simpl. f_equal. apply IH. exact H.
Qed.

Lemma matvec_map2_cons (r : rvec) (T : rmatrix) (c0 : R) (c : rvec) :
  matvec (map2 cons r T) (c0 :: c) = vadd (vscale c0 r) (matvec T c).
Proof.
  revert T. induction r as [|x r IH]; intros [|col T]; try reflexivity.
  simpl map2. unfold matvec in *. simpl map. rewrite IH.
  rewrite vscale_cons, vadd_cons, dot_cons. f_equal. lra.
Qed.

(** [c . (P x) = (P^T c) . x]. *)
Lemma adjoint (k : nat) (P : rmatrix) :
  Forall (fun r : rvec => length r = k) P ->
  forall c x : rvec, length c = length P -> length x = k ->
  dot c (matvec P x) = dot (matvec (transpose_aux k P) c) x.
Proof.
  induction 1 as [|r P Hr HP IH]; intros c x Hc Hx.
  - destruct c; [|discriminate]. rewrite transpose_aux_nil, dot_nil_l.
    assert (E : matvec (repeat (@nil R) k) [] = zeros k).
    { unfold matvec, zeros. clear. induction k; simpl; [reflexivity|].
      now f_equal. }
    rewrite E, dot_zeros_l. reflexivity.
  - destruct c as [|c0 c]; [discriminate|]. injection Hc as Hc.
    rewrite transpose_aux_cons by assumption.
    rewrite matvec_map2_cons, dot_vadd_l, dot_vscale_l.
    + change (matvec (r :: P) x) with (dot r x :: matvec P x).
      rewrite dot_cons, (IH c x Hc Hx). reflexivity.
    + rewrite length_vscale, length_matvec, length_transpose_aux.
      exact Hr.
Qed.

Lemma sq_vadd (A B : rvec) :
  length A = length B ->
  dot (vadd A B) (vadd A B) = dot A A + 2 * dot A B + dot B B.
Proof.
  intros H. rewrite dot_vadd_l by assumption.
  rewrite !(dot_comm _ (vadd A B)), !dot_vadd_l by assumption.
  rewrite (dot_comm B A). lra.
Qed.

Lemma dot_vneg_vneg (g : rvec) : dot (vneg g) (vneg g) = dot g g.
Proof. rewrite dot_vneg_l, dot_comm, dot_vneg_l. lra. Qed.

Lemma length_vmul (u v : rvec) :
  length u = length v -> length (vmul u v) = length u.
Proof.
  revert v. induction u as [|x u IH]; intros [|y v] H; try discriminate;
    [reflexivity|].
  injection H as H. simpl. f_equal. now apply IH.
Qed.

Lemma dot_app (x y x' y' : rvec) :
  length x = length y ->
  dot (x ++ x') (y ++ y') = dot x y + dot x' y'.
Proof.
  revert y. induction x as [|a x IH]; intros [|b y] H; try discriminate.
  - rewrite dot_nil_l. simpl. lra.
  - injection H as H. simpl. rewrite !dot_cons, IH by assumption. lra.
Qed.

(** What [transpose] is for a matrix with a first row of [k] entries. *)
Lemma transpose_rows (k : nat) (P : rmatrix) :
  P <> [] -> Forall (fun r : rvec => length r = k) P ->
  transpose P = transpose_aux k P.
Proof.
  intros Hne Hall. unfold transpose. destruct P as [|r P]; [contradiction|].
  inversion Hall as [|? ? Hr _]; subst. reflexivity.
Qed.

Lemma vadds_vadds (x : rvec) (a b : R) : vadds (vadds x a) b = vadds x (a + b).
Proof.
  unfold vadds. rewrite map_map. apply map_ext. intros y. simpl. lra.
Qed.

Lemma vadds_app (x y : rvec) (a : R) :
  vadds (x ++ y) a = vadds x a ++ vadds y a.
Proof. apply map_app. Qed.

Lemma vdivs_vscale (u : rvec) (c : R) : vdivs u c = vscale (/ c) u.
Proof.
  unfold vdivs, vscale. apply map_ext. intros x.
  cbn [fdiv fmul real_scalar]. unfold Rdiv. ring.
Qed.

Lemma vadds_zero (x : rvec) : vadds x 0 = x.
Proof.
  unfold vadds. rewrite <- (map_id x) at 2. apply map_ext. intros y.
  cbn [fadd real_scalar]. ring.
Qed.

Lemma dot_self_Exists (a : rvec) :
  0 < dot a a -> Exists (fun x => x <> 0) a.
Proof.
  induction a as [|x a IH]; [rewrite dot_nil_l; lra|].
  rewrite dot_cons. intros H. destruct (Req_dec x 0) as [->|Hx].
  - right. apply IH. lra.
  - now left.
Qed.

(** The entries of [a] divided by those of [t] are not all zero when an
    entry of [a] is not, and [t] is not zero where [a] is not. *)
Lemma quotient_pos (a t : rvec) :
  Exists (fun x => x <> 0) a ->
  Forall2 (fun x y => x <> 0 -> y <> 0) a t ->
  0 < dot (map2 fdiv a t) (map2 fdiv a t).
Proof.
  intros Hex Hall. induction Hall as [|x y a t Hxy _ IH].
  - inversion Hex.
  - change (map2 fdiv (x :: a) (y :: t)) with (x / y :: map2 fdiv a t).
    rewrite dot_cons.
    pose proof (dot_self_nonneg (map2 fdiv a t)) as Hrest.
    inversion Hex as [? ? Hx|? ? Hex']; subst.
    + assert (x / y <> 0).
      { unfold Rdiv. apply Rmult_integral_contrapositive_currified;
          [exact Hx|apply Rinv_neq_0_compat; now apply Hxy]. }
      assert (0 < x / y * (x / y)) by nra. lra.
    + specialize (IH Hex'). nra.
Qed.

(** The solution of the diagonal system [(tau + m_i) x_i = - y_i], entry by
    entry, against the quotients [y_i / t_i] for [0 < t_i <= tau + m_i]. *)
Lemma components_le (tau : R) (x m y t : rvec) :
  length x = length m -> length y = length m ->
  vadd (vscale tau x) (vmul m x) = vneg y ->
  Forall2 (fun ti s => 0 < ti <= s) t (vadds m tau) ->
  dot x x <= dot (map2 fdiv y t) (map2 fdiv y t).
Proof.
  revert m y t. induction x as [|a x IH]; intros [|b m] [|c y] t Hx Hy He Ht;
    try discriminate.
  - rewrite dot_nil_l. apply dot_self_nonneg.
  - injection Hx as Hx. injection Hy as Hy.
    change (vadds (b :: m) tau) with (b + tau :: vadds m tau) in Ht.
    inversion Ht as [|ti s t' ? [Hti Hs] Ht']; subst.
    change (tau * a + b * a :: vadd (vscale tau x) (vmul m x)
            = - c :: vneg y) in He.
    injection He as Ha He.
    change (map2 fdiv (c :: y) (ti :: t'))
      with (c / ti :: map2 fdiv y t').
    rewrite !dot_cons. specialize (IH m y t' Hx Hy He Ht').
    assert (Hq : c / ti * ti = c) by (field; lra).
    set (q := c / ti) in *.
    assert (a * a <= q * q); [|lra].
    assert (Hc : q * q * (ti * ti) = a * a * ((b + tau) * (b + tau))).
    { replace (q * q * (ti * ti)) with (q * ti * (q * ti)) by ring.
      rewrite Hq. replace c with (- (a * (b + tau))) by lra. ring. }
    assert (Hsq : ti * ti <= (b + tau) * (b + tau)) by nra.
    assert (H0 : 0 <= a * a) by nra.
    assert (Hle : a * a * (ti * ti) <= q * q * (ti * ti)).
    { rewrite Hc. apply Rmult_le_compat_l; assumption. }
    apply Rmult_le_reg_r with (ti * ti); [nra|exact Hle].
Qed.

(** *** The tolerance *)

Lemma obs_tol_pos : 0 < obs_tol (F:=R).
Proof. unfold obs_tol, dec. simpl. lra. Qed.

Lemma above_nonzero (x : R) : obs_tol < Rabs x -> x <> 0.
Proof.
  intros H ->. rewrite Rabs_R0 in H. pose proof obs_tol_pos. lra.
Qed.

Lemma kept_off_band (x : R) : kept x -> off_band x.
Proof.
  intros [->|H]; [now left|right]. pose proof obs_tol_pos.
  rewrite Rabs_pos_eq; lra.
Qed.

Lemma sq_vsub (A B : rvec) :
  length A = length B ->
  dot (vsub A B) (vsub A B) = dot A A - 2 * dot A B + dot B B.
Proof.
  intros H. rewrite dot_vsub_l by assumption.
  rewrite !(dot_comm _ (vsub A B)), !dot_vsub_l by assumption.
  rewrite (dot_comm B A). lra.
Qed.

Lemma length_vsub (u v : rvec) :
  length u = length v -> length (vsub u v) = length u.
Proof. intros H. unfold vsub. rewrite length_map2_min. lia. Qed.

Section Model.

Variables (k : nat) (P : rmatrix) (lamb_gamma : rvec) (gamma : R).
Hypothesis P_columns : orthonormal_columns k P.
Hypothesis P_rows : P <> [].
Hypothesis lamb_length : length lamb_gamma = k.

Let Pt := transpose P.

Lemma Pt_aux : Pt = transpose_aux k P.
Proof. apply transpose_rows; [exact P_rows|apply P_columns]. Qed.

Lemma length_Pt (c : rvec) : length (matvec Pt c) = k.
Proof. rewrite length_matvec, Pt_aux. apply length_transpose_aux. Qed.

Lemma adjoint_P (c x : rvec) :
  length c = length P -> length x = k ->
  dot c (matvec P x) = dot (matvec Pt c) x.
Proof.
  intros Hc Hx. rewrite Pt_aux. apply adjoint; [apply P_columns|assumption..].
Qed.

Lemma dot_P_P (x y : rvec) :
  length x = k -> length y = k ->
  dot (matvec P x) (matvec P y) = dot x y.
Proof.
  intros Hx Hy. rewrite adjoint_P; [|apply length_matvec|assumption].
  destruct P_columns as [_ Ho]. unfold Pt. now rewrite Ho.
Qed.

(** What is left of [c] outside the columns is orthogonal to them. *)
Lemma rest_orthogonal (c x : rvec) :
  length c = length P -> length x = k ->
  dot (matvec P x) (vsub c (matvec P (matvec Pt c))) = 0.
Proof.
  intros Hc Hx. rewrite dot_comm, dot_vsub_l by now rewrite length_matvec.
  rewrite adjoint_P by assumption.
  rewrite dot_P_P by (assumption || apply length_Pt). lra.
Qed.

(** Its squared norm. *)
Lemma rest_norm (c : rvec) :
  length c = length P ->
  dot (vsub c (matvec P (matvec Pt c))) (vsub c (matvec P (matvec Pt c)))
  = dot c c - dot (matvec Pt c) (matvec Pt c).
Proof.
  intros Hc. set (u := matvec Pt c).
  assert (Hu : length u = k) by apply length_Pt.
  rewrite dot_vsub_l by now rewrite length_matvec.
  rewrite !(dot_comm _ (vsub c (matvec P u))).
  rewrite !dot_vsub_l by now rewrite length_matvec.
  rewrite dot_P_P by assumption.
  rewrite (dot_comm (matvec P u) c), adjoint_P by assumption.
  fold u. lra.
Qed.

(** Bessel: the part of [c] along the columns is not longer than [c]. *)
Lemma bessel (c : rvec) :
  length c = length P ->
  dot (matvec Pt c) (matvec Pt c) <= dot c c.
Proof.
  intros Hc.
  pose proof (dot_self_nonneg (vsub c (matvec P (matvec Pt c)))) as Hpos.
  rewrite rest_norm in Hpos by assumption. lra.
Qed.

Variable g : rvec.
Hypothesis g_length : length g = length P.
Hypothesis rest_exact :
  last (obs_a P g) 0 = 0 -> dot g g - dot (matvec Pt g) (matvec Pt g) = 0.

Let w := matvec Pt g.
Let al := last (obs_a P g) 0.

Lemma obs_a_split : obs_a P g = w ++ [al].
Proof. unfold al, obs_a. fold Pt w. now rewrite last_last. Qed.

(** The last entry of [a] is the norm of what is left of the gradient. *)
Lemma a_last_sq : al * al = dot g g - dot w w.
Proof.
  pose proof (@bessel g g_length) as Hb. fold w in Hb.
  pose proof rest_exact as He. fold w al in He.
  unfold al, obs_a in *. fold Pt w in He |- *.
  set (llg := fsqrt (fabs (fsub (dot g g) (dot w w)))) in *.
  assert (Hllg : llg * llg = dot g g - dot w w).
  { unfold llg. change (fsqrt ?x) with (R_sqrt.sqrt x).
    change (fabs ?x) with (Rabs x).
    rewrite sqrt_sqrt by apply Rabs_pos. apply Rabs_pos_eq.
    change (fsub ?a ?b) with (a - b). lra. }
  rewrite last_last in *.
  destruct (fltb (fmul llg llg) obs_tol).
  - change (f0 (F:=R)) with 0 in *. rewrite He by reflexivity. lra.
  - exact Hllg.
Qed.

Lemma dot_a : dot (obs_a P g) (obs_a P g) = dot g g.
Proof.
  rewrite obs_a_split, dot_app by reflexivity.
  rewrite dot_cons, dot_nil_l, Rplus_0_r, a_last_sq. lra.
Qed.

Lemma length_a : length (obs_a P g) = S k.
Proof.
  rewrite obs_a_split, length_app. unfold w. rewrite length_Pt. simpl. lia.
Qed.

(** The quotients of [equation_p2] are those of the secular function. *)
Lemma pinv_quotients (x l : rvec) :
  Forall kept l ->
  Forall2 (fun a b : R => a <> 0 -> b <> 0) x l ->
  map2 (fun ai li => if fltb obs_tol (fabs (fadd li 0))
                     then fdiv ai (fadd li 0) else f0) x l
  = map2 fdiv x l.
Proof.
  intros Hk Hall. induction Hall as [|a b x l Hab _ IH]; [reflexivity|].
  inversion Hk as [|? ? Hb Hk']; subst. cbn [map2]. rewrite IH by assumption.
  f_equal. cbn [fadd fdiv real_scalar]. rewrite Rplus_0_r.
  change (fltb obs_tol (fabs b)) with (Rltb obs_tol (Rabs b)).
  pose proof obs_tol_pos. destruct Hb as [->|Hb].
  - assert (E : Rltb obs_tol (Rabs 0) = false)
      by (apply Rltb_false; rewrite Rabs_R0; lra).
    rewrite E. destruct (Req_dec a 0) as [->|Ha].
    + unfold f0, Rdiv. cbn [fofZ real_scalar]. ring.
    + now destruct (Hab Ha).
  - assert (E : Rltb obs_tol (Rabs b) = true)
      by (apply Rltb_true; rewrite Rabs_pos_eq; lra).
    now rewrite E.
Qed.

(** The norm of what [equation_p2] returns at [sigma = 0], for
    eigenvalues [l1 ++ [lg]] of the solver where [lg] is [gamma] or, for a
    [gamma] within the tolerance, zero. *)
Lemma easy_norm (l1 : rvec) (lg : R) :
  length l1 = k -> Forall kept l1 ->
  Forall2 (fun a b : R => a <> 0 -> b <> 0) (obs_a P g) (l1 ++ [lg]) ->
  (lg = 0 /\ gamma <= obs_tol) \/ (lg = gamma /\ obs_tol < gamma) ->
  0 <= gamma ->
  dot (equation_p2 0 gamma g (obs_a P g) (l1 ++ [lg]) P w)
      (equation_p2 0 gamma g (obs_a P g) (l1 ++ [lg]) P w)
  = dot (map2 fdiv (obs_a P g) (l1 ++ [lg]))
        (map2 fdiv (obs_a P g) (l1 ++ [lg])).
Proof.
  intros Hl1 Hk Hall Hlg Hgamma. pose proof obs_tol_pos as Htol.
  pose proof a_last_sq as Hal.
  rewrite obs_a_split in *.
  assert (Hw : length w = length l1) by (unfold w; now rewrite length_Pt).
  apply Forall2_app_inv_l in Hall as (l1' & l2' & Hall1 & Hall2 & Heq).
  destruct l2' as [|x l2']; [inversion Hall2|].
  apply Forall2_cons_iff in Hall2 as [Hlast Hnil].
  destruct l2'; [clear Hnil|inversion Hnil].
  apply app_inj_tail in Heq as [<- <-].
  unfold equation_p2.
  rewrite map2_app by exact Hw. cbn [map2]. rewrite removelast_last.
  rewrite (pinv_quotients Hk Hall1).
  set (v1 := map2 fdiv w l1).
  assert (Hv1 : length v1 = k).
  { unfold v1. rewrite length_map2_min. unfold rvec, vec in *. lia. }
  rewrite (map2_app fdiv) by exact Hw. fold v1.
  change (map2 fdiv [al] [lg]) with [al / lg].
  rewrite (@dot_app v1 v1) by reflexivity.
  rewrite (@dot_cons (al / lg)), dot_nil_l, Rplus_0_r.
  cbn [fadd real_scalar]. rewrite Rplus_0_r.
  change (fltb (fabs gamma) obs_tol) with (Rltb (Rabs gamma) obs_tol).
  rewrite (Rabs_pos_eq gamma Hgamma).
  destruct (Rltb gamma obs_tol) eqn:E.
  - apply Rltb_true in E. rewrite dot_vneg_vneg, dot_P_P by assumption.
    destruct Hlg as [[-> _]|[_ Hgt]]; [|lra].
    destruct (Req_dec al 0) as [Hz|Hnz]; [|now destruct (Hlast Hnz)].
    rewrite Hz. unfold Rdiv. ring.
  - apply Rltb_false in E.
    set (r := vsub g (matvec P w)).
    assert (Hr : length r = length P).
    { unfold r. rewrite length_vsub; [assumption|].
      now rewrite length_matvec. }
    rewrite sq_vsub
      by (rewrite length_vneg, length_matvec; unfold vdivs;
          now rewrite length_map).
    rewrite dot_vneg_vneg, dot_P_P by assumption.
    rewrite vdivs_vscale, dot_vneg_l, dot_vscale.
    rewrite (dot_comm (matvec P v1)), dot_vscale_l, (dot_comm r).
    unfold r, w. rewrite rest_orthogonal, rest_norm by assumption.
    fold w. rewrite <- Hal.
    destruct Hlg as [[-> Hle]|[-> Hgt]].
    + destruct (Req_dec al 0) as [Hz|Hnz]; [|now destruct (Hlast Hnz)].
      rewrite Hz. unfold Rdiv. ring.
    + field. lra.
Qed.

Variables (sigma : R) (p : rvec).
Hypothesis p_length : length p = length P.
Hypothesis p_solves :
  shifted_model P lamb_gamma gamma (sigma + gamma) p = vneg g.

Let u := matvec Pt p.
Let mu := vadds lamb_gamma (- gamma).
Let tau := sigma + gamma.

Lemma length_mu_u : length (vmul mu u) = k.
Proof.
  rewrite length_vmul; unfold mu, u.
  - now rewrite length_vadds.
  - now rewrite length_vadds, length_Pt.
Qed.

(** The equation in the basis of the columns. *)
Lemma solves_in_basis : vadd (vscale tau u) (vmul mu u) = vneg w.
Proof.
  unfold w. rewrite <- matvec_vneg, <- p_solves. unfold shifted_model.
  fold Pt u mu tau.
  rewrite matvec_vadd, matvec_vscale.
  - destruct P_columns as [_ Ho]. unfold Pt at 2. rewrite Ho by apply length_mu_u.
    reflexivity.
  - now rewrite length_vscale, length_matvec.
Qed.

(** The squared norm of the solution, from the norm of the equation. *)
Lemma solution_norm :
  tau * tau * (dot p p - dot u u) = dot g g - dot w w.
Proof.
  assert (Hg : dot g g
               = tau * tau * dot p p + 2 * tau * dot u (vmul mu u)
                 + dot (vmul mu u) (vmul mu u)).
  { rewrite <- dot_vneg_vneg, <- p_solves. unfold shifted_model.
    fold Pt u mu tau.
    rewrite sq_vadd by now rewrite length_vscale, length_matvec.
    rewrite dot_vscale, dot_vscale_l, dot_P_P by apply length_mu_u.
    rewrite adjoint_P by (assumption || apply length_mu_u). fold u.
    change (vadds lamb_gamma (fneg gamma)) with mu. lra. }
  assert (Hw : dot w w
               = tau * tau * dot u u + 2 * tau * dot u (vmul mu u)
                 + dot (vmul mu u) (vmul mu u)).
  { rewrite <- dot_vneg_vneg, <- solves_in_basis.
    rewrite sq_vadd.
    - rewrite dot_vscale, dot_vscale_l. lra.
    - rewrite length_vscale, length_mu_u. apply length_Pt. }
  lra.
Qed.

(** The norm of the solution against the norm the secular function
    takes, at shifted eigenvalues [t] that are positive and not above
    those of the model. *)
Lemma solution_le (t : rvec) :
  Forall2 (fun ti s => 0 < ti <= s) t (vadds (lamb_gamma ++ [gamma]) sigma) ->
  dot p p <= dot (map2 fdiv (obs_a P g) t) (map2 fdiv (obs_a P g) t).
Proof.
  intros Ht. rewrite vadds_app in Ht.
  apply Forall2_app_inv_r in Ht as (t1 & t2 & Ht1 & Ht2 & ->).
  change (vadds [gamma] sigma) with [gamma + sigma] in Ht2.
  destruct t2 as [|tg t3]; [inversion Ht2|].
  apply Forall2_cons_iff in Ht2 as [Htg Ht3].
  destruct t3; [clear Ht3|inversion Ht3].
  pose proof solution_norm as Hn. fold tau u w in Hn.
  assert (Hlen : length t1 = k).
  { apply Forall2_length in Ht1. now rewrite Ht1, length_vadds. }
  assert (Hu : dot u u <= dot (map2 fdiv w t1) (map2 fdiv w t1)).
  { apply (@components_le tau u mu w t1).
    - unfold u, mu. now rewrite length_Pt, length_vadds.
    - unfold w, mu. now rewrite length_Pt, length_vadds.
    - apply solves_in_basis.
    - unfold mu, tau. rewrite vadds_vadds.
      replace (- gamma + (sigma + gamma)) with sigma by lra. exact Ht1. }
  rewrite obs_a_split, map2_app by (unfold w; now rewrite length_Pt).
  rewrite dot_app by reflexivity.
  change (map2 fdiv [al] [tg]) with [al / tg].
  rewrite dot_cons, dot_nil_l, Rplus_0_r.
  rewrite <- a_last_sq in Hn.
  assert (Hq : al / tg * tg = al) by (field; lra).
  set (q := al / tg) in *.
  assert (Htau : 0 < tg <= tau) by (unfold tau; lra).
  set (X := dot p p - dot u u) in *.
  assert (X <= q * q); [|unfold X in *; lra].
  assert (Hsq : tg * tg <= tau * tau) by nra.
  assert (H0 : 0 <= q * q) by nra.
  assert (Hle : tau * tau * X <= tau * tau * (q * q)).
  { rewrite Hn, <- Hq.
    replace (q * tg * (q * tg)) with (q * q * (tg * tg)) by ring.
    rewrite (Rmult_comm (tau * tau)). apply Rmult_le_compat_l; assumption. }
  apply Rmult_le_reg_l with (tau * tau); [nra|exact Hle].
Qed.

End Model.

(** *** The secular function on entries that are zero or above the
        tolerance *)

(** The loop of [phi] and [phi_phi_T]: it returns early at an entry of [a]
    that is not zero over an entry of [t] that is, and sums the squares of
    the quotients otherwise. *)
Lemma secular_loop_cases (a t : rvec) :
  length a = length t ->
  Forall off_band a -> Forall off_band t ->
  forall o1 o2 : option R,
    (secular_loop (combine a t) o1 o2 = inl tt
     /\ ~ Forall2 (fun x y => x <> 0 -> y <> 0) a t)
    \/ (exists r1 r2,
          secular_loop (combine a t) o1 o2 = inr (r1, r2)
          /\ acc_val r1
             = acc_val o1 + dot (map2 fdiv a t) (map2 fdiv a t)
          /\ (r1 = None -> o1 = None /\ Forall (fun x => x = 0) a)
          /\ Forall2 (fun x y => x <> 0 -> y <> 0) a t).
Proof.
  intros Hlen Ha. revert t Hlen.
  induction Ha as [|x a Hx _ IH]; intros [|y t] Hlen Ht o1 o2;
    try discriminate.
  - right. exists o1, o2. cbn [combine secular_loop map2].
    rewrite dot_nil_l. split; [reflexivity|]. split; [lra|].
    split; [intros ->; split; [reflexivity|constructor]|constructor].
  - injection Hlen as Hlen. inversion Ht as [|? ? Hy Ht']; subst.
    cbn [combine secular_loop].
    change (fltb obs_tol (fabs x)) with (Rltb obs_tol (Rabs x)).
    change (fltb obs_tol (fabs y)) with (Rltb obs_tol (Rabs y)).
    change (fltb (fabs y) obs_tol) with (Rltb (Rabs y) obs_tol).
    change (map2 fdiv (x :: a) (y :: t)) with (x / y :: map2 fdiv a t).
    rewrite dot_cons.
    pose proof obs_tol_pos as Htol.
    destruct Hx as [->|Hx].
    + assert (E : Rltb obs_tol (Rabs 0) = false)
        by (apply Rltb_false; rewrite Rabs_R0; lra).
      rewrite E. cbn [andb].
      destruct (IH t Hlen Ht' o1 o2) as [[Hl Hn]|(r1 & r2 & Hr & Hv & Hz & Hf)].
      * left. split; [exact Hl|]. intros Hall. apply Hn.
        now inversion Hall.
      * right. exists r1, r2. split; [exact Hr|]. split; [|split].
        -- rewrite Hv. unfold Rdiv. lra.
        -- intros Hnone. destruct (Hz Hnone) as [Ho Hall].
           split; [exact Ho|]. now constructor.
        -- constructor; [intros H; now destruct H|exact Hf].
    + assert (E : Rltb obs_tol (Rabs x) = true) by now apply Rltb_true.
      rewrite E. cbn [andb]. destruct Hy as [->|Hy].
      * assert (E2 : Rltb (Rabs 0) obs_tol = true)
          by (apply Rltb_true; rewrite Rabs_R0; lra).
        rewrite E2. left. split; [reflexivity|]. intros Hall.
        inversion Hall as [|? ? ? ? Hxy _]; subst.
        now apply (Hxy (above_nonzero Hx)).
      * assert (E2 : Rltb (Rabs y) obs_tol = false)
          by (apply Rltb_false; lra).
        assert (E3 : Rltb obs_tol (Rabs y) = true) by now apply Rltb_true.
        rewrite E2, E3.
        match goal with
        | |- context [secular_loop (combine a t) ?n1 ?n2] =>
            destruct (IH t Hlen Ht' n1 n2)
              as [[Hl Hn]|(r1 & r2 & Hr & Hv & Hz & Hf)]
        end.
        -- left. split; [exact Hl|]. intros Hall. apply Hn.
           now inversion Hall.
        -- right. exists r1, r2. split; [exact Hr|]. split; [|split].
           ++ rewrite Hv. cbn [acc_val].
              cbn [fadd fmul fdiv real_scalar]. unfold f0.
              cbn [fofZ real_scalar]. destruct o1; cbn [acc_val]; lra.
           ++ intros Hnone. destruct (Hz Hnone) as [Ho _]. discriminate Ho.
           ++ constructor; [intros _; exact (above_nonzero Hy)|exact Hf].
Qed.

Lemma any_small_Forall (x : rvec) :
  any_small x = false -> Forall (fun y => obs_tol <= Rabs y) x.
Proof.
  unfold any_small. induction x as [|y x IH]; [constructor|].
  cbn [existsb]. intros H. apply orb_false_elim in H as [Hy H].
  constructor; [now apply Rltb_false|now apply IH].
Qed.

Lemma nonzero_where (a t : rvec) :
  length a = length t -> Forall (fun y => obs_tol <= Rabs y) t ->
  Forall2 (fun x y : R => x <> 0 -> y <> 0) a t.
Proof.
  revert t. induction a as [|x a IH]; intros [|y t] Hlen Ht;
    try discriminate; constructor.
  - intros _ ->. inversion Ht as [|? ? Hy _]; subst.
    rewrite Rabs_R0 in Hy. pose proof obs_tol_pos. lra.
  - injection Hlen as Hlen. inversion Ht; subst. now apply IH.
Qed.

(** The value of [phi]: the early return of the loop, or the reciprocal
    of the norm of the quotients less the reciprocal of [delta]. *)
Lemma phi_cases (trust_radius sigma delta : R) (a lam : rvec) :
  length a = length lam ->
  Forall off_band a -> Forall off_band (vadds lam sigma) ->
  Exists (fun x => x <> 0) a ->
  (phi trust_radius sigma delta a lam = Ok (- (1) / trust_radius)
   /\ ~ Forall2 (fun x y => x <> 0 -> y <> 0) a (vadds lam sigma))
  \/ (phi trust_radius sigma delta a lam
      = Ok (1 / R_sqrt.sqrt (dot (map2 fdiv a (vadds lam sigma))
                          (map2 fdiv a (vadds lam sigma)))
            - 1 / delta)
      /\ 0 < dot (map2 fdiv a (vadds lam sigma))
                 (map2 fdiv a (vadds lam sigma))
      /\ Forall2 (fun x y => x <> 0 -> y <> 0) a (vadds lam sigma)).
Proof.
  intros Hlen Ha Ht Hex. unfold phi.
  assert (Hlen' : length a = length (vadds lam sigma))
    by now rewrite length_vadds.
  set (t := vadds lam sigma) in *.
  destruct (any_small a || any_small t) eqn:Hsmall.
  - destruct (@secular_loop_cases a t Hlen' Ha Ht None None)
      as [[Hl Hn]|(r1 & r2 & Hr & Hv & Hz & Hf)].
    + left. rewrite Hl. now split.
    + right. rewrite Hr. destruct r1 as [v|].
      * cbn [acc_val] in Hv. rewrite Rplus_0_l in Hv. subst v.
        split; [reflexivity|]. split; [now apply quotient_pos|exact Hf].
      * destruct (Hz eq_refl) as [_ Hzero]. exfalso.
        clear - Hex Hzero. induction Hex as [x a Hx|x a _ IH];
          inversion Hzero; subst; [now apply Hx|now apply IH].
  - right. apply orb_false_elim in Hsmall as [_ Hst].
    apply any_small_Forall in Hst.
    pose proof (nonzero_where a Hlen' Hst) as Hf.
    split; [reflexivity|]. split; [now apply quotient_pos|exact Hf].
Qed.

(** *** The eigenvalues the solver works with *)

Lemma mask_cases (x : R) :
  0 <= x ->
  (fmul x (if fltb obs_tol (fabs x) then f1 else f0) = 0 /\ x <= obs_tol)
  \/ (fmul x (if fltb obs_tol (fabs x) then f1 else f0) = x /\ obs_tol < x).
Proof.
  intros Hx. change (fltb obs_tol (fabs x)) with (Rltb obs_tol (Rabs x)).
  rewrite (Rabs_pos_eq x Hx).
  destruct (Rltb obs_tol x) eqn:E.
  - apply Rltb_true in E. right. split; [|exact E].
    unfold f1. cbn [fmul fofZ real_scalar]. lra.
  - apply Rltb_false in E. left. split; [|exact E].
    unfold f0. cbn [fmul fofZ real_scalar]. lra.
Qed.

Lemma psd_Forall (l : rvec) :
  forallb (fun x => fleb f0 x) l = true -> Forall (fun x => 0 <= x) l.
Proof.
  induction l as [|x l IH]; [constructor|].
  cbn [forallb]. intros H. apply andb_prop in H as [Hx H].
  constructor; [now apply Rleb_true|now apply IH].
Qed.

Lemma mask_kept (l : rvec) :
  Forall (fun x => 0 <= x) l ->
  Forall kept
         (map (fun x => fmul x (if fltb obs_tol (fabs x) then f1 else f0)) l).
Proof.
  induction 1 as [|x l Hx _ IH]; cbn [map]; constructor; [|exact IH].
  destruct (mask_cases Hx) as [[-> _]|[-> H]]; [now left|now right].
Qed.

Lemma mask_above (l : rvec) :
  Forall (fun x => 0 <= x) l ->
  Forall (fun x => obs_tol < x)
         (map (fun x => fmul x (if fltb obs_tol (fabs x) then f1 else f0)) l)
  -> map (fun x => fmul x (if fltb obs_tol (fabs x) then f1 else f0)) l = l.
Proof.
  induction 1 as [|x l Hx _ IH]; cbn [map]; [reflexivity|].
  intros Hall. inversion Hall as [|? ? Hm Hrest]; subst.
  rewrite IH by assumption. f_equal.
  destruct (mask_cases Hx) as [[E _]|[E _]]; [|exact E].
  change (obs_tol < fmul x (if fltb obs_tol (fabs x) then f1 else f0)) in Hm.
  rewrite E in Hm. pose proof obs_tol_pos. lra.
Qed.

(** The shifted eigenvalues of the solver, when above the tolerance, are
    positive and not above those of the model. *)
Lemma mask_shifted (l : rvec) (sigma : R) :
  Forall (fun x => 0 <= x) l ->
  Forall (fun x => obs_tol < x)
         (vadds (map (fun x => fmul x (if fltb obs_tol (fabs x)
                                       then f1 else f0)) l) sigma) ->
  Forall2 (fun ti s => 0 < ti <= s)
          (vadds (map (fun x => fmul x (if fltb obs_tol (fabs x)
                                        then f1 else f0)) l) sigma)
          (vadds l sigma).
Proof.
  induction 1 as [|x l Hx _ IH]; cbn [map vadds]; [constructor|].
  intros Hall. inversion Hall as [|? ? Hm Hrest]; subst.
  constructor; [|now apply IH].
  change (obs_tol < fmul x (if fltb obs_tol (fabs x) then f1 else f0) + sigma)
    in Hm.
  change (0 < fmul x (if fltb obs_tol (fabs x) then f1 else f0) + sigma
          <= x + sigma).
  pose proof obs_tol_pos.
  destruct (mask_cases Hx) as [[E Hle]|[E _]]; rewrite E in *; lra.
Qed.

Lemma tmin_fold_cases (l : rvec) :
  Forall kept l -> forall m, kept m ->
  (obs_tol < fold_left tmin_step l m /\ obs_tol < m
   /\ Forall (fun x => obs_tol < x) l)
  \/ fold_left tmin_step l m = 0.
Proof.
  pose proof obs_tol_pos as Htol.
  induction 1 as [|x l Hx _ IH]; intros m Hm; cbn [fold_left].
  - destruct Hm as [->|Hm]; [now right|left]. repeat split; try assumption.
    constructor.
  - assert (Hstep : tmin_step m x = if Rltb x m then x else m)
      by reflexivity.
    rewrite Hstep. clear Hstep.
    destruct (Rltb x m) eqn:E.
    + apply Rltb_true in E.
      destruct (IH x Hx) as [(H1 & H2 & H3)|H0]; [left|now right].
      repeat split; [exact H1|lra|]. now constructor.
    + apply Rltb_false in E.
      destruct (IH m Hm) as [(H1 & H2 & H3)|H0]; [left|now right].
      repeat split; [exact H1|exact H2|]. constructor; [lra|exact H3].
Qed.

Lemma tensor_min_cases (l : rvec) :
  l <> [] -> Forall kept l ->
  (0 < tensor_min l /\ Forall (fun x => obs_tol < x) l)
  \/ tensor_min l = 0.
Proof.
  intros Hne Hall. destruct l as [|m l]; [contradiction|].
  inversion Hall as [|? ? Hm Hl]; subst. unfold tensor_min. cbn [hd tl].
  pose proof obs_tol_pos.
  destruct (tmin_fold_cases Hl Hm) as [(H1 & H2 & H3)|H0]; [left|now right].
  split; [lra|now constructor].
Qed.

(** From the value of the secular function to the norm. *)
Lemma secular_bound (N trust_radius phi_s : R) :
  0 < N -> 0 < trust_radius ->
  phi_s = 1 / N - 1 / trust_radius ->
  (0 <= phi_s -> N <= trust_radius)
  /\ (forall eps, - eps <= phi_s -> eps * trust_radius < 1 ->
      N <= trust_radius / (1 - eps * trust_radius)).
Proof.
  intros HN HD ->. split.
  - intros H. apply Rnot_lt_le. intros Hlt.
    assert (1 / N < 1 / trust_radius).
    { unfold Rdiv. rewrite !Rmult_1_l. now apply Rinv_lt_contravar; [nra|]. }
    lra.
  - intros eps H He.
    assert (Hd : 0 < 1 - eps * trust_radius) by lra.
    assert (H1 : (1 - eps * trust_radius) / trust_radius <= 1 / N)
      by (replace ((1 - eps * trust_radius) / trust_radius)
            with (1 / trust_radius - eps) by (field; lra); lra).
    apply Rmult_le_reg_r with ((1 - eps * trust_radius) / trust_radius).
    + apply Rdiv_lt_0_compat; lra.
    + replace (trust_radius / (1 - eps * trust_radius)
               * ((1 - eps * trust_radius) / trust_radius)) with 1
        by (field; lra).
      replace 1 with (N * (1 / N)) at 2 by (field; lra).
      apply Rmult_le_compat_l; lra.
Qed.

Lemma forallb_above (lam : rvec) :
  forallb (fun x => fltb obs_tol x) lam = true ->
  Forall (fun x => obs_tol < x) lam.
Proof.
  induction lam as [|x lam IH]; [constructor|].
  cbn [forallb]. intros H. apply andb_prop in H as [Hx H].
  constructor; [now apply Rltb_true|now apply IH].
Qed.

Lemma length_equation_p1 (la : Linalg (F:=R)) (psi M : rmatrix) (tau : R)
    (g : rvec) :
  length psi = length g -> length (equation_p1 la psi M tau g) = length g.
Proof.
  intros H. unfold equation_p1, vdivs, vneg, vsub.
  rewrite !length_map, length_map2_min, length_matvec. lia.
Qed.

(** *** The solver on a positive semidefinite model *)

Section Solver.

Variable la : Linalg (F:=R).
Variables (newton_maxit : nat) (M P : rmatrix) (lamb_gamma : rvec)
  (trust_radius gamma : R) (g : rvec) (psi : rmatrix).
Hypothesis g_pos : 0 < norm g.
Hypothesis radius_pos : 0 < trust_radius.
Hypothesis model : obs_model P lamb_gamma gamma g psi.

Let a := obs_a P g.
Let lam := obs_lam lamb_gamma gamma.

Lemma model_rows : P <> [].
Proof.
  destruct model as (_ & Hlen & _). intros ->. destruct g; [|discriminate].
  pose proof g_pos as Hg. unfold norm in Hg. rewrite dot_nil_l in Hg.
  change (fsqrt 0) with (R_sqrt.sqrt 0) in Hg. rewrite sqrt_0 in Hg. lra.
Qed.

Lemma model_psd : Forall (fun x => 0 <= x) (lamb_gamma ++ [gamma]).
Proof. destruct model as (_ & _ & _ & H & _). now apply psd_Forall. Qed.

Lemma model_a : Forall off_band a.
Proof.
  destruct model as (_ & _ & _ & _ & H & _).
  eapply Forall_impl; [|exact H]. intros x [Hx|Hx]; [now left|right].
  now apply Rltb_true.
Qed.

Lemma model_Exists : Exists (fun x => x <> 0) a.
Proof.
  destruct model as (HP & Hlen & _ & _ & _ & Hrest).
  apply dot_self_Exists. unfold a.
  rewrite (@dot_a _ P HP model_rows g Hlen Hrest).
  now apply norm_pos_dot.
Qed.

Lemma model_length : length a = length lam.
Proof.
  destruct model as (HP & Hlen & _).
  unfold a, lam, obs_lam.
  rewrite (@length_a _ P lamb_gamma HP model_rows eq_refl g Hlen).
  rewrite length_map, length_app. simpl. lia.
Qed.

Lemma lam_kept : Forall kept lam.
Proof. apply mask_kept, model_psd. Qed.

Lemma lam_nonempty : lam <> [].
Proof. unfold lam, obs_lam. now destruct lamb_gamma. Qed.

(** The secular function at zero. *)
Lemma phi_zero_cases :
  phi trust_radius 0 trust_radius a lam = Ok (- (1) / trust_radius)
  \/ (phi trust_radius 0 trust_radius a lam
      = Ok (1 / R_sqrt.sqrt (dot (map2 fdiv a lam) (map2 fdiv a lam))
            - 1 / trust_radius)
      /\ 0 < dot (map2 fdiv a lam) (map2 fdiv a lam)
      /\ Forall2 (fun x y => x <> 0 -> y <> 0) a lam).
Proof.
  assert (Ht : Forall off_band (vadds lam 0)).
  { rewrite vadds_zero. eapply Forall_impl; [|exact lam_kept].
    exact kept_off_band. }
  destruct (@phi_cases trust_radius 0 trust_radius a lam model_length
              model_a Ht model_Exists) as [[H _]|H].
  - now left.
  - right. now rewrite vadds_zero in H.
Qed.

Lemma phi_zero_defined :
  exists phi_0, phi trust_radius 0 trust_radius a lam = Ok phi_0.
Proof. destruct phi_zero_cases as [H|[H _]]; eexists; exact H. Qed.

Lemma early_negative : - (1) / trust_radius < 0.
Proof.
  pose proof radius_pos.
  replace (- (1) / trust_radius) with (- (1 / trust_radius)) by (field; lra).
  assert (0 < 1 / trust_radius) by (apply Rdiv_lt_0_compat; lra). lra.
Qed.

(** The three ways of the solver. *)
Lemma obs_interior (phi_0 : R) :
  phi trust_radius 0 trust_radius a lam = Ok phi_0 ->
  0 <= phi_0 -> 0 < tensor_min lam ->
  trust_solver_OBS la newton_maxit M P lamb_gamma trust_radius gamma g psi
  = Ok (equation_p1 la psi M gamma g).
Proof.
  intros Hphi Hpos Hmin. unfold trust_solver_OBS.
  change (matvec (transpose P) g ++ _) with a.
  change (map _ (lamb_gamma ++ [gamma])) with lam.
  change (f0 (F:=R)) with 0. rewrite Hphi. cbn [bind].
  change (fleb 0 phi_0) with (Rleb 0 phi_0).
  change (fltb 0 ?x) with (Rltb 0 x).
  assert (E1 : Rleb 0 phi_0 = true) by now apply Rleb_true.
  assert (E2 : Rltb 0 (tensor_min lam) = true) by now apply Rltb_true.
  rewrite E1, E2. cbn [andb].
  change (fadd gamma 0) with (gamma + 0). now rewrite Rplus_0_r.
Qed.

Lemma obs_easy (phi_0 : R) :
  phi trust_radius 0 trust_radius a lam = Ok phi_0 ->
  0 <= phi_0 -> tensor_min lam = 0 ->
  trust_solver_OBS la newton_maxit M P lamb_gamma trust_radius gamma g psi
  = Ok (equation_p2 0 gamma g a lam P (matvec (transpose P) g)).
Proof.
  intros Hphi Hpos Hmin. unfold trust_solver_OBS.
  change (matvec (transpose P) g ++ _) with a.
  change (map _ (lamb_gamma ++ [gamma])) with lam.
  change (f0 (F:=R)) with 0. rewrite Hphi. cbn [bind]. rewrite !Hmin.
  change (fneg (F:=R) 0) with (- 0). rewrite !Ropp_0. rewrite Hphi.
  cbn [bind].
  change (fleb 0 ?x) with (Rleb 0 x).
  change (fltb 0 0) with (Rltb 0 0).
  assert (E1 : Rleb 0 phi_0 = true) by now apply Rleb_true.
  assert (E2 : Rltb 0 0 = false) by (apply Rltb_false; lra).
  assert (E3 : Rleb 0 0 = true) by (apply Rleb_true; lra).
  rewrite E1, E2, E3. reflexivity.
Qed.

Lemma obs_newton (phi_0 sigma : R) :
  phi trust_radius 0 trust_radius a lam = Ok phi_0 ->
  phi_0 < 0 ->
  newton_method newton_maxit trust_radius (obs_start trust_radius a lam)
                trust_radius a lam = Ok sigma ->
  trust_solver_OBS la newton_maxit M P lamb_gamma trust_radius gamma g psi
  = Ok (equation_p1 la psi M (sigma + gamma) g).
Proof.
  intros Hphi Hneg Hnewton. unfold trust_solver_OBS.
  change (matvec (transpose P) g ++ _) with a.
  change (map _ (lamb_gamma ++ [gamma])) with lam.
  unfold obs_start in Hnewton.
  change (f0 (F:=R)) with 0 in *. rewrite Hphi. cbn [bind].
  change (fleb 0 phi_0) with (Rleb 0 phi_0).
  assert (E1 : Rleb 0 phi_0 = false) by now apply Rleb_false.
  rewrite E1. cbn [andb].
  destruct (tensor_min_cases lam_nonempty lam_kept) as [[Hmin _]|Hmin].
  - change (fltb 0 (tensor_min lam)) with (Rltb 0 (tensor_min lam)) in *.
    change (fleb (tensor_min lam) 0) with (Rleb (tensor_min lam) 0).
    assert (E2 : Rltb 0 (tensor_min lam) = true) by now apply Rltb_true.
    assert (E3 : Rleb (tensor_min lam) 0 = false) by now apply Rleb_false.
    rewrite E2 in *. rewrite E3. cbn [bind]. rewrite Hnewton. reflexivity.
  - rewrite !Hmin in *.
    change (fltb 0 0) with (Rltb 0 0) in *.
    change (fleb 0 0) with (Rleb 0 0).
    assert (E2 : Rltb 0 0 = false) by (apply Rltb_false; lra).
    assert (E3 : Rleb 0 0 = true) by (apply Rleb_true; lra).
    rewrite E2 in *. rewrite E3.
    change (fneg (F:=R) 0) with (- 0) in *. rewrite !Ropp_0 in *.
    rewrite Hphi. cbn [bind].
    change (fleb 0 phi_0) with (Rleb 0 phi_0). rewrite E1.
    cbv zeta in Hnewton.
    match type of Hnewton with
    | context [if ?c then _ else _] => destruct c
    end; rewrite Hnewton; reflexivity.
Qed.

(** The bounds. *)
Lemma norm_le_secular (p : rvec) (S : R) :
  dot p p <= S -> norm p <= R_sqrt.sqrt S.
Proof. intros H. unfold norm. now apply sqrt_le_1_alt. Qed.

Lemma interior_bound (phi_0 : R) :
  phi trust_radius 0 trust_radius a lam = Ok phi_0 ->
  0 <= phi_0 -> 0 < tensor_min lam ->
  shifted_model P lamb_gamma gamma gamma (equation_p1 la psi M gamma g)
  = vneg g ->
  norm (equation_p1 la psi M gamma g) <= trust_radius.
Proof.
  intros Hphi Hpos Hmin Hsol.
  pose proof model as (HP & Hlen & Hpsi & _ & _ & Hrest).
  pose proof early_negative as Hearly. pose proof obs_tol_pos as Htol.
  destruct (tensor_min_cases lam_nonempty lam_kept) as [[_ Hall]|H0];
    [|lra].
  assert (Hlam : lam = lamb_gamma ++ [gamma])
    by (apply mask_above; [exact model_psd|exact Hall]).
  destruct phi_zero_cases as [H|(H & HS & _)]; rewrite Hphi in H;
    injection H as H; [lra|].
  pose proof (length_equation_p1 la psi M gamma g Hpsi) as Hp.
  rewrite Hlen in Hp. rewrite <- (Rplus_0_l gamma) in Hsol at 2.
  assert (Ht : Forall2 (fun ti s => 0 < ti <= s) lam
                       (vadds (lamb_gamma ++ [gamma]) 0)).
  { rewrite vadds_zero, <- Hlam. clear - Hall Htol.
    induction Hall; constructor; [lra|assumption]. }
  pose proof (@solution_le _ P lamb_gamma gamma HP model_rows eq_refl g Hlen
                Hrest 0 _ Hp Hsol lam Ht) as Hle.
  eapply Rle_trans; [apply norm_le_secular, Hle|].
  fold a.
  apply (@secular_bound _ trust_radius phi_0); try assumption.
  now apply sqrt_lt_R0.
Qed.

Lemma easy_bound (phi_0 : R) :
  phi trust_radius 0 trust_radius a lam = Ok phi_0 ->
  0 <= phi_0 ->
  norm (equation_p2 0 gamma g a lam P (matvec (transpose P) g))
  <= trust_radius.
Proof.
  intros Hphi Hpos.
  pose proof model as (HP & Hlen & Hpsi & _ & _ & Hrest).
  pose proof early_negative as Hearly.
  destruct phi_zero_cases as [H|(H & HS & Hall)]; rewrite Hphi in H;
    injection H as H; [lra|].
  pose proof model_psd as Hpsd. apply Forall_app in Hpsd as [Hpsd1 Hpsd2].
  pose proof (Forall_inv Hpsd2) as Hgamma. cbv beta in Hgamma.
  unfold lam, obs_lam in *. rewrite map_app in *. cbn [map] in *.
  unfold a in *.
  pose proof (@easy_norm _ P lamb_gamma gamma HP model_rows eq_refl g Hlen
                Hrest _ _ (length_map _ _) (mask_kept Hpsd1) Hall
                (mask_cases Hgamma) Hgamma) as Hnorm.
  unfold norm. rewrite Hnorm.
  apply (@secular_bound _ trust_radius phi_0); try assumption.
  now apply sqrt_lt_R0.
Qed.

Lemma newton_bound (sigma phi_s : R) :
  forallb (fun t => fltb obs_tol t) (vadds lam sigma) = true ->
  phi trust_radius sigma trust_radius a lam = Ok phi_s ->
  fltb (dec 1 (-15)) (fabs phi_s) = false ->
  dec 1 (-15) * trust_radius < 1 ->
  shifted_model P lamb_gamma gamma (sigma + gamma)
                (equation_p1 la psi M (sigma + gamma) g) = vneg g ->
  norm (equation_p1 la psi M (sigma + gamma) g)
  <= trust_radius / (1 - dec 1 (-15) * trust_radius).
Proof.
  intros Ht Hs Hstop Heps Hsol.
  pose proof model as (HP & Hlen & Hpsi & _ & _ & Hrest).
  pose proof obs_tol_pos as Htol.
  apply forallb_above in Ht.
  assert (Hoff : Forall off_band (vadds lam sigma)).
  { eapply Forall_impl; [|exact Ht]. intros x Hx. right.
    rewrite Rabs_pos_eq; lra. }
  assert (Hnz : Forall2 (fun x y : R => x <> 0 -> y <> 0) a
                        (vadds lam sigma)).
  { apply nonzero_where; [now rewrite length_vadds, model_length|].
    eapply Forall_impl; [|exact Ht]. intros x Hx.
    rewrite Rabs_pos_eq; lra. }
  destruct (@phi_cases trust_radius sigma trust_radius a lam model_length
              model_a Hoff model_Exists) as [[_ Hn]|(H & HS & _)];
    [now destruct Hn|].
  rewrite Hs in H. injection H as H.
  pose proof (length_equation_p1 la psi M (sigma + gamma) g Hpsi) as Hp.
  rewrite Hlen in Hp.
  pose proof (@solution_le _ P lamb_gamma gamma HP model_rows eq_refl g Hlen
                Hrest sigma _ Hp Hsol (vadds lam sigma)
                (mask_shifted sigma model_psd Ht)) as Hle.
  eapply Rle_trans; [apply norm_le_secular, Hle|].
  fold a.
  change (fltb (dec 1 (-15)) (fabs phi_s))
    with (Rltb (dec 1 (-15)) (Rabs phi_s)) in Hstop.
  apply Rltb_false in Hstop.
  apply (@secular_bound _ trust_radius phi_s); try assumption.
  - now apply sqrt_lt_R0.
  - destruct (Rcase_abs phi_s) as [Hn|Hp'].
    + rewrite (Rabs_left _ Hn) in Hstop. lra.
    + rewrite (Rabs_right _ Hp') in Hstop.
      assert (0 < dec (F:=R) 1 (-15)) by (unfold dec; simpl; lra). lra.
Qed.

End Solver.

(** *** The three solvers *)

Lemma steihaug_first_pass_within (cg_iter : nat) (g : rvec)
    (hess_1 hess_2 : rmatrix) (trust_radius : R) :
  0 < dot g g -> 0 < trust_radius -> length hess_1 = length g ->
  (length (cg_directions cg_iter g hess_1 hess_2 trust_radius) <= 1)%nat ->
  norm (trust_solver_steihaug cg_iter g hess_1 hess_2 trust_radius)
  <= trust_radius.
Proof.
  intros Hg HD Hh Hone. apply steihaug_within_radius; try assumption.
  unfold cg_directions in *.
  destruct cg_iter as [|n]; [constructor|].
  cbn [steihaug_directions] in *.
  destruct (steihaug_body _ _ _ _ _ _ _) as [p|z r d].
  - constructor; [|constructor]. now rewrite dot_vneg_vneg.
  - destruct n; simpl in Hone; [|lia].
    constructor; [|constructor]. now rewrite dot_vneg_vneg.
Qed.

Lemma steihaug_no_loop_within (cg_iter : nat) (g : rvec)
    (hess_1 hess_2 : rmatrix) (trust_radius : R) :
  0 < dot g g -> 0 < trust_radius ->
  dot (vecmat g hess_1) (matvec hess_2 g) <= 0 ->
  norm (trust_solver_steihaug cg_iter g hess_1 hess_2 trust_radius)
  <= trust_radius.
Proof.
  intros Hg HD Hc. pose proof (@norm_pos g Hg) as Hn.
  apply Rleb_true in Hc. unfold trust_solver_steihaug.
  change (f0 (F:=R)) with 0. change (fleb ?x 0) with (Rleb x 0).
  rewrite Hc. rewrite norm_vscale.
  change (Rabs (- trust_radius / norm g) * norm g <= trust_radius).
  replace (- trust_radius / norm g) with (- (trust_radius / norm g))
    by (field; lra).
  rewrite Rabs_Ropp, Rabs_pos_eq.
  - replace (trust_radius / norm g * norm g) with trust_radius
      by (field; lra).
    lra.
  - apply Rlt_le, Rdiv_lt_0_compat; lra.
Qed.


(** *** Runs in exact arithmetic *)

Ltac rsimp :=
  cbn [fadd fsub fmul fdiv fneg fabs fsqrt fltb fleb fofZ fisnan real_scalar]
    in *.

Ltac rlist :=
  cbv [obs_a obs_lam equation_p1 equation_p2 shifted_model
       vecmat matvec transpose transpose_aux
       mm madd mscale vadd vsub vmul vneg vscale vdivs vadds vabs
       dot vsum fold_left map2 map hd tl
       length app removelast last linalg_solve linalg_R1 plane_e1 stiff_1 stiff_2
       f0 f1 f2 any_small existsb forallb combine zeros repeat norm
       tensor_min tmin_step pymin pymax pymax_list boundary_tau
       secular_loop];
  rsimp.

Lemma sqrt_of_square (x y : R) : 0 <= y -> x = y * y -> R_sqrt.sqrt x = y.
Proof. intros Hy ->. now apply sqrt_square. Qed.

Ltac rabs :=
  repeat match goal with
  | |- context [Rabs ?a] =>
      first [rewrite (Rabs_pos_eq a) by lra | rewrite (Rabs_left a) by lra]
  end.

Ltac rsqrt y :=
  match goal with
  | |- context [R_sqrt.sqrt ?a] =>
      rewrite (@sqrt_of_square a y) by lra
  end.

Ltac rtest :=
  repeat match goal with
  | |- context [Rltb ?a ?b] =>
      first [ rewrite (proj2 (Rltb_true a b)) by lra
            | rewrite (proj2 (Rltb_false a b)) by lra ]
  | |- context [Rleb ?a ?b] =>
      first [ rewrite (proj2 (Rleb_true a b)) by lra
            | rewrite (proj2 (Rleb_false a b)) by lra ]
  end;
  cbv beta iota; cbn [andb orb negb].

Lemma obs_tol_value : obs_tol (F:=R) = / 10000000000.
Proof. unfold obs_tol, dec. simpl. lra. Qed.

Lemma obs_a_34 : obs_a plane_e1 [3; 4] = [3; 4].
Proof.
  rlist. rabs. repeat rsqrt 4. rewrite obs_tol_value. rtest.
  f_equal. lra.
Qed.

Lemma plane_e1_orthonormal : orthonormal_columns 1 plane_e1.
Proof.
  split.
  - repeat constructor.
  - intros [|x [|y l]] H; try discriminate. rlist. f_equal. lra.
Qed.

Lemma obs_lam_64_32 : obs_lam [64] 32 = [64; 32].
Proof.
  rlist. rabs. rewrite obs_tol_value. rtest. repeat (f_equal; try lra).
Qed.

Lemma norm_34 : 0 < norm ([3; 4] : rvec).
Proof. rlist. apply sqrt_lt_R0. lra. Qed.

(** The first pass of the CG loop on [diag(1, 7)] from the gradient
    [(3, 4)] leaves the region of radius [1/4]. *)
Lemma stiff_first_pass (delta : R) :
  exists p, steihaug_body stiff_1 stiff_2 (1 / 4) delta [0; 0] [3; 4]
                          [- (3); - (4)] = CgReturn p.
Proof.
  eexists. unfold steihaug_body. rlist. rtest.
  match goal with
  | |- context [Rleb (1 / 4) (R_sqrt.sqrt ?a)] =>
      rewrite (@sqrt_of_square a (125 / 121)) by first [lra | field]
  end.
  rtest. reflexivity.
Qed.

Ltac above_tol :=
  right; rsimp; rabs; rewrite obs_tol_value; rtest; reflexivity.

Lemma directions_of_return (n : nat) (h1 h2 : rmatrix)
    (trust_radius delta : R) (z r d p : rvec) :
  steihaug_body h1 h2 trust_radius delta z r d = CgReturn p ->
  steihaug_directions (S n) h1 h2 trust_radius delta z r d = [d].
Proof.
  intros H.
  change (steihaug_directions (S n) h1 h2 trust_radius delta z r d)
    with (d :: match steihaug_body h1 h2 trust_radius delta z r d with
               | CgReturn _ => []
               | CgNext z r d =>
                   steihaug_directions n h1 h2 trust_radius delta z r d
               end).
  now rewrite H.
Qed.

Lemma stiff_directions :
  (length (cg_directions 1000 ([3; 4]%R : rvec) stiff_1 stiff_2 (1 / 4)%R)
   <= 1)%nat.
Proof.
  unfold cg_directions.
  match goal with
  | |- context [steihaug_directions _ _ _ _ ?dl _ _ _] =>
      destruct (stiff_first_pass dl) as [p Hp];
      change (length (steihaug_directions (S 999) stiff_1 stiff_2 (1 / 4)%R
                        dl [0; 0]%R [3; 4]%R [- (3); - (4)]%R) <= 1)%nat
  end.
  rewrite (directions_of_return 999 _ _ _ _ _ _ _ Hp). simpl. lia.
Qed.

Lemma recip_ge (N D : R) : 0 < N -> N <= D -> 0 <= 1 / N - 1 / D.
Proof.
  intros HN HD. assert (1 / D <= 1 / N); [|lra].
  unfold Rdiv. rewrite !Rmult_1_l. apply Rinv_le_contravar; assumption.
Qed.

(** *** An interior step *)

Lemma interior_model :
  obs_model plane_e1 ([64] : rvec) 32 ([3; 4] : rvec) plane_e1.
Proof.
  split; [exact plane_e1_orthonormal|]. split; [reflexivity|].
  split; [reflexivity|]. split; [rlist; rtest; reflexivity|].
  rewrite obs_a_34. split.
  - constructor; [above_tol|]. constructor; [above_tol|]. constructor.
  - cbn [last]. unfold f0. rsimp. intros H. exfalso. lra.
Qed.

Lemma interior_phi :
  exists v, phi (1 / 4) 0 (1 / 4) ([3; 4] : rvec) [64; 32] = Ok v /\ 0 <= v.
Proof.
  unfold phi. rlist. rabs. rewrite obs_tol_value. rtest.
  eexists. split; [reflexivity|].
  match goal with |- context [R_sqrt.sqrt ?a] => set (X := a) end.
  assert (HX : 0 < X <= 1 / 4 * (1 / 4)) by (unfold X; lra).
  apply recip_ge.
  - apply sqrt_lt_R0. lra.
  - rewrite <- (sqrt_square (1 / 4)) by lra. apply sqrt_le_1_alt. lra.
Qed.

Lemma interior_solves :
  shifted_model plane_e1 ([64] : rvec) 32 32
                (equation_p1 linalg_R1 plane_e1 [[1 / 32]] 32 [3; 4])
  = vneg [3; 4].
Proof. rlist. repeat (f_equal; try field). Qed.

(** *** A step by the pseudo-inverse, on a singular model *)

Lemma obs_a_04 : obs_a plane_e1 [0; 4] = [0; 4].
Proof.
  rlist. rabs. repeat rsqrt 4. rewrite obs_tol_value. rtest.
  f_equal. lra.
Qed.

Lemma obs_lam_0_32 : obs_lam [0] 32 = [0; 32].
Proof.
  rlist. rabs. rewrite obs_tol_value. rtest. repeat (f_equal; try lra).
Qed.

Lemma singular_model :
  obs_model plane_e1 ([0] : rvec) 32 ([0; 4] : rvec) plane_e1.
Proof.
  split; [exact plane_e1_orthonormal|]. split; [reflexivity|].
  split; [reflexivity|]. split; [rlist; rtest; reflexivity|].
  rewrite obs_a_04. split.
  - constructor; [now left|]. constructor; [above_tol|]. constructor.
  - cbn [last]. unfold f0. rsimp. intros H. exfalso. lra.
Qed.

Lemma singular_phi :
  exists v, phi (1 / 4) 0 (1 / 4) ([0; 4] : rvec) [0; 32] = Ok v /\ 0 <= v.
Proof.
  unfold phi. rlist. rabs. rewrite obs_tol_value. rtest.
  eexists. split; [reflexivity|].
  rsqrt (1 / 8). lra.
Qed.

Lemma singular_min : tensor_min ([0; 32] : rvec) = 0.
Proof. rlist. rtest. reflexivity. Qed.

(** *** A step on the boundary, found by one Newton step *)

Lemma obs_a_30 : obs_a plane_e1 [3; 0] = [3; 0].
Proof.
  rlist. rabs. repeat rsqrt 0. rewrite obs_tol_value. rtest.
  f_equal. lra.
Qed.

Lemma boundary_model :
  obs_model plane_e1 ([64] : rvec) 32 ([3; 0] : rvec) plane_e1.
Proof.
  split; [exact plane_e1_orthonormal|]. split; [reflexivity|].
  split; [reflexivity|]. split; [rlist; rtest; reflexivity|].
  rewrite obs_a_30. split.
  - constructor; [above_tol|]. constructor; [now left|]. constructor.
  - intros _. rlist. lra.
Qed.

Lemma boundary_phi :
  exists v,
    phi (1 / 64) 0 (1 / 64) ([3; 0] : rvec) [64; 32] = Ok v /\ v < 0.
Proof.
  unfold phi. rlist. rabs. rewrite obs_tol_value. rtest.
  eexists. split; [reflexivity|].
  rsqrt (3 / 64). lra.
Qed.

Lemma boundary_start : obs_start (1 / 64) ([3; 0] : rvec) [64; 32] = 0.
Proof. unfold obs_start. rlist. rtest. reflexivity. Qed.

Lemma boundary_first :
  phi_phi_T (1 / 64) 0 (1 / 64) ([3; 0] : rvec) [64; 32]
  = Ok (64 / 3 - 64, 1 / 3).
Proof.
  unfold phi_phi_T. rlist. rabs. rewrite obs_tol_value. rtest.
  rabs. repeat rsqrt (3 / 64). apply f_equal. apply f_equal2; field.
Qed.

Lemma boundary_second :
  phi_phi_T (1 / 64) 128 (1 / 64) ([3; 0] : rvec) [64; 32]
  = Ok (0, 1 / 3).
Proof.
  unfold phi_phi_T. rlist. rabs. rewrite obs_tol_value. rtest.
  rabs. repeat rsqrt (1 / 64). apply f_equal. apply f_equal2; field.
Qed.

Lemma dec_15 : dec (F:=R) 1 (-15) = / 1000000000000000.
Proof. unfold dec. simpl. lra. Qed.

Lemma boundary_newton :
  newton_method 5 (1 / 64) 0 (1 / 64) ([3; 0] : rvec) [64; 32] = Ok 128.
Proof.
  unfold newton_method. rewrite boundary_first. cbn [bind newton_loop].
  rsimp. rewrite dec_15. rabs. rtest.
  replace (0 - (64 / 3 - 64) / (1 / 3)) with 128 by field.
  rewrite boundary_second. cbn [bind]. rabs. rtest. reflexivity.
Qed.

Lemma boundary_shifted :
  forallb (fun t => fltb obs_tol t) (vadds ([64; 32] : rvec) 128) = true.
Proof. rlist. rewrite obs_tol_value. rtest. reflexivity. Qed.

Lemma boundary_phi_end :
  phi (1 / 64) 128 (1 / 64) ([3; 0] : rvec) [64; 32] = Ok 0.
Proof.
  unfold phi. rlist. rabs. rewrite obs_tol_value. rtest.
  rsqrt (1 / 64). f_equal. field.
Qed.

Lemma boundary_solves :
  shifted_model plane_e1 ([64] : rvec) 32 (128 + 32)
                (equation_p1 linalg_R1 plane_e1 [[1 / 32]] (128 + 32) [3; 0])
  = vneg [3; 0].
Proof. rlist. repeat (f_equal; try field). Qed.

Lemma norm_04 : 0 < norm ([0; 4] : rvec).
Proof. rlist. apply sqrt_lt_R0. lra. Qed.

Lemma norm_30 : 0 < norm ([3; 0] : rvec).
Proof. rlist. apply sqrt_lt_R0. lra. Qed.

Lemma quarter_pos : 0 < 1 / 4.
Proof. lra. Qed.

Lemma sixty_fourth_pos : 0 < 1 / 64.
Proof. lra. Qed.


End TrustRegionBound.

(* ================================================================= *)
(** ** The hard case on a full basis *)

Section HardCase.

Context {F : Type} {SF : Scalar F}.
Local Open Scope sc_scope.

Lemma off_range_error (P : matrix (F:=F)) (n i : nat) e :
  off_range P n i = Raise e -> e = IndexError /\ (n <= i)%nat.
Proof.
  unfold off_range, unit_vec. destruct (Nat.ltb_spec i n); simpl.
  - discriminate.
  - intros [= <-]. now split.
Qed.

Lemma off_range_outside (P : matrix (F:=F)) (n i : nat) :
  (n <= i)%nat -> off_range P n i = Raise IndexError.
Proof.
  intros H. unfold off_range, unit_vec.
  destruct (Nat.ltb_spec i n); [lia|reflexivity].
Qed.

Lemma search_u_min_none (P : matrix (F:=F)) (left i : nat) :
  spans_all P ->
  search_u_min P (length P) i left
  = if ((left =? 0) || (i + left <=? length P))%nat
    then Ok None else Raise IndexError.
Proof.
  intros Hall. revert i. induction left as [|left IH]; intros i;
    [reflexivity|].
  cbn [search_u_min Nat.eqb orb].
  destruct (off_range P (length P) i) as [u|e] eqn:Hoff; cbn [bind].
  - rewrite (Hall i u Hoff), IH.
    assert (Hi : (i < length P)%nat).
    { destruct (Nat.lt_ge_cases i (length P)) as [H|H]; [exact H|].
      rewrite (off_range_outside P H) in Hoff. discriminate. }
    destruct left as [|left]; cbn [Nat.eqb orb].
    + destruct (Nat.leb_spec (i + 1) (length P)); [reflexivity|lia].
    + replace (S i + S left)%nat with (i + S (S left))%nat by lia.
      reflexivity.
  - apply off_range_error in Hoff as [-> Hi].
    destruct (Nat.leb_spec (i + S left) (length P)); [lia|reflexivity].
Qed.

(** X21.  The hard case of the OBS solver on a basis [P] that has at
    least as many columns as rows and spans every unit vector up to the
    tolerance: when [lam_min] is not the last eigenvalue [lam[-2]] (for
    [lam] of two entries or more), the search of [equation_p3] finds no
    vector outside the range of [P] and the index it then uses is out of
    range: [IndexError]. *)
Theorem equation_p3_full_basis_raises (lam_min delta : F) (p_hat lam : vec)
    (P : matrix) :
  (2 <= length lam)%nat ->
  (fabs (lam_min - nth (length lam - 2) lam f0) <? obs_tol) = false ->
  (length P <= length (hd [] P))%nat ->
  spans_all P ->
  equation_p3 lam_min delta p_hat lam P = Raise IndexError.
Proof.
  intros Hlen Hlam Hshape Hall. unfold equation_p3.
  destruct (Nat.ltb_spec (length lam) 2) as [Hshort|_]; [lia|]. rewrite Hlam.
  rewrite (search_u_min_none _ _ Hall). simpl.
  set (k := length (hd [] P)) in *.
  destruct ((k =? 0)%nat || (k <=? length P)%nat) eqn:Hk; [|reflexivity].
  cbn [bind]. rewrite off_range_outside; [reflexivity|].
  destruct k; simpl; lia.
Qed.

End HardCase.

Lemma equation_p3_full_basis_raises_witness :
  equation_p3 (-1)%float 1%float [0%float] [-1; 1; 1]%float [[1%float]]
  = Raise IndexError.
Proof.
  apply equation_p3_full_basis_raises.
  - simpl. lia.
  - vm_compute. reflexivity.
  - simpl. lia.
  - intros [|i] u H.
    + vm_compute in H. injection H as <-. vm_compute. reflexivity.
    + rewrite off_range_outside in H by (simpl; lia). discriminate.
Defined.
